(** * COATi: marginal pairwise aligner, rate matrices and guide trees

    A shallow embedding of the parts of COATi that its specification makes
    claims about:

    - [lib/tree.cc]: the Newick semantic actions and parser, [find_node],
      [reroot], [distance_ref];
    - [lib/align_marginal.cc]: [order_ref], [alignment_score] and the control
      flow of [marg_alignment];
    - [lib/mutation_coati.cc]: [gtr_q], [mg94_p], [marginal_p].

    C++ exceptions are values of [exn]; a function that may throw returns a
    [result].  [coati::float_t] arithmetic is kept behind the interface
    [FloatOps], with two instances: IEEE binary32 (over [spec_float], the
    libm functions being parameters) and exact arithmetic over the reals
    extended with the IEEE special values. *)

From Stdlib Require Import ZArith List String Ascii Lia Reals Lra DecimalString.
From Stdlib Require Import Floats.SpecFloat.
From stdpp Require Import base option list.

Local Open Scope string_scope.
Local Open Scope list_scope.
Local Open Scope Z_scope.

(** ** Exceptions *)

Inductive exn : Type :=
| invalid_argument (what : string)
| out_of_range (what : string)
| runtime_error (what : string).

Inductive result (A : Type) : Type :=
| Ok (a : A)
| Throw (e : exn).
Arguments Ok {A} a.
Arguments Throw {A} e.

#[global] Instance result_ret : MRet result := fun A a => Ok a.

#[global] Instance result_bind : MBind result := fun A B k r =>
  match r with
  | Ok a => k a
  | Throw e => Throw e
  end.

(** ** Floating-point interface

    What the sources use of [float]: literals, conversions from [int], the
    four operations, the two comparisons and libm's [logf] and [expf]. *)

Class FloatOps (F : Type) : Type := {
  f_of_Z : Z -> F;                 (* int -> float conversion *)
  f_lit : Z -> positive -> F;      (* the decimal literal n/d *)
  fadd : F -> F -> F;
  fsub : F -> F -> F;
  fmul : F -> F -> F;
  fdiv : F -> F -> F;
  fneg : F -> F;
  fltb : F -> F -> bool;
  fleb : F -> F -> bool;
}.

Class Libm (F : Type) : Type := {
  logf : F -> F;
  expf : F -> F;
}.

(** C++ [for] loops over an index range. *)
Definition range (lo : nat) (n : nat) : list Z := map Z.of_nat (seq lo n).

(** [std::vector<float>] element access.  Reading past the end is undefined
    in C++; the default below is never reached for the four frequencies and
    six exchangeabilities the callers pass. *)
Definition vec_at {F : Type} {FO : FloatOps F} (v : list F) (i : Z) : F :=
  nth (Z.to_nat i) v (f_of_Z 0).

(** [coati::Matrixf] (declared in [matrix.hpp]) is used through its element
    access [m(row, col)] only, and is modelled by it.  [Matrixf rows cols]
    is the freshly constructed, zero-filled matrix; [mset] is the assignment
    [m(row, col) = v]. *)
Definition Matrix (F : Type) : Type := Z -> Z -> F.

Definition Matrixf {F : Type} {FO : FloatOps F} (rows cols : Z) : Matrix F :=
  fun _ _ => f_of_Z 0.

Definition mset {F : Type} (m : Matrix F) (row col : Z) (v : F) : Matrix F :=
  fun r c => if (r =? row) && (c =? col) then v else m r c.

(** * Guide trees ([lib/tree.cc]) *)

Module tree.

Section Tree.

Context {F : Type} {FO : FloatOps F}.

(** [node_t].  The struct is declared in [tree.hpp]; its constructor
    [node_t(label, length, is_leaf = false, parent = 0)] is used here the way
    [make_leaf], [make_inode] and the test cases call it. *)
Record node_t : Type := mk_node {
  label : string;
  length : F;
  is_leaf : bool;
  parent : nat;
  children : list nat;
}.

(** [tree_t] is [std::vector<node_t>]. *)
#[local] Abbreviation tree_t := (list node_t).

Definition node (lbl : string) (len : F) (leaf : bool) (par : nat) : node_t :=
  mk_node lbl len leaf par [].

Definition set_parent (p : nat) (nd : node_t) : node_t :=
  mk_node (label nd) (length nd) (is_leaf nd) p (children nd).

Definition set_length (len : F) (nd : node_t) : node_t :=
  mk_node (label nd) len (is_leaf nd) (parent nd) (children nd).

(** *** Semantic actions of the Newick grammar *)

(** [make_leaf]: a tree with one leaf node. *)
Definition make_leaf (lbl : string) (len : F) : tree_t :=
  [node lbl len true 0].

(** The inner loop of [make_inode]: append the nodes of [w], shifting their
    parent index by [n]. *)
Definition push_subtree (n : nat) (w : tree_t) (val : tree_t) : tree_t :=
  fold_left (fun v x => v ++ [set_parent (parent x + n) x]) w val.

(** The outer loop body of [make_inode]: [n = val.size()], append [w], then
    [val[n].parent = 0]. *)
Definition attach (val : tree_t) (w : tree_t) : tree_t :=
  let n := Datatypes.length val in
  alter (set_parent 0) n (push_subtree n w val).

(** [make_inode]: one internal node followed by the subtrees of [v]. *)
Definition make_inode (v : list tree_t) (lbl : string) (len : F) : tree_t :=
  fold_left attach v [node lbl len false 0].

(** *** The grammar

    A label is one or more of the characters [-], [0-9], [A-Z], [a-z], [/],
    [%], [_] and [.]; the label of an internal node may be empty; a length
    is a colon followed by a number, and 0.0 when there is none; a leaf is a
    label and a length; an internal node is a parenthesised, comma-separated
    list of nodes followed by a label and a length; a tree is a node and an
    optional semicolon.

    Boost.Spirit's numeric parser [float_] is a parameter: it consumes a
    prefix of the input and yields a value, or fails. *)

Variable float_ : list ascii -> option (F * list ascii).

Definition in_range (lo hi c : ascii) : bool :=
  (nat_of_ascii lo <=? nat_of_ascii c)%nat && (nat_of_ascii c <=? nat_of_ascii hi)%nat.

Definition label_char (c : ascii) : bool :=
  Ascii.eqb c "-" || in_range "0" "9" c || in_range "A" "Z" c ||
  in_range "a" "z" c || Ascii.eqb c "/" || Ascii.eqb c "%" ||
  Ascii.eqb c "_" || Ascii.eqb c ".".

Fixpoint span_label (s : list ascii) : list ascii * list ascii :=
  match s with
  | c :: s' =>
      if label_char c
      then let '(l, r) := span_label s' in (c :: l, r)
      else ([], s)
  | [] => ([], [])
  end.

Definition parse_label (s : list ascii) : option (string * list ascii) :=
  match span_label s with
  | ([], _) => None
  | (l, r) => Some (string_of_list_ascii l, r)
  end.

Definition parse_ilabel (s : list ascii) : string * list ascii :=
  match parse_label s with
  | Some r => r
  | None => (EmptyString, s)
  end.

Definition parse_length (s : list ascii) : F * list ascii :=
  match s with
  | ":"%char :: s' =>
      match float_ s' with
      | Some r => r
      | None => (f_lit 0 1, s)
      end
  | _ => (f_lit 0 1, s)
  end.

Definition parse_leaf (s : list ascii) : option (tree_t * list ascii) :=
  match parse_label s with
  | Some (lbl, s1) =>
      let '(len, s2) := parse_length s1 in Some (make_leaf lbl len, s2)
  | None => None
  end.

(** The tail of [node % ',']: as many [',' node] as parse. *)
Fixpoint parse_more (n : nat) (p : list ascii -> option (tree_t * list ascii))
    (s : list ascii) : list tree_t * list ascii :=
  match n, s with
  | S n', ","%char :: s1 =>
      match p s1 with
      | Some (w, s2) => let '(ws, r) := parse_more n' p s2 in (w :: ws, r)
      | None => ([], s)
      end
  | _, _ => ([], s)
  end.

(** [node], with [inode] inlined.  [fuel] bounds the nesting depth; every
    fuel above the length of the input gives the same result (see
    [parse_node_fuel]). *)
Fixpoint parse_node (fuel : nat) (s : list ascii) : option (tree_t * list ascii) :=
  match fuel with
  | O => None
  | S fuel' =>
      match parse_leaf s with
      | Some r => Some r
      | None =>
          match s with
          | "("%char :: s1 =>
              match parse_node fuel' s1 with
              | Some (w, s2) =>
                  let '(ws, s3) := parse_more (Datatypes.length s2) (parse_node fuel') s2 in
                  match s3 with
                  | ")"%char :: s4 =>
                      let '(lbl, s5) := parse_ilabel s4 in
                      let '(len, s6) := parse_length s5 in
                      Some (make_inode (w :: ws) lbl len, s6)
                  | _ => None
                  end
              | None => None
              end
          | _ => None
          end
      end
  end.

Definition parse_tree (s : list ascii) : option (tree_t * list ascii) :=
  match parse_node (S (Datatypes.length s)) s with
  | Some (t, ";"%char :: r) => Some (t, r)
  | other => other
  end.

(** A parser that consumes a prefix of its input leaves no more input than
    it was given; [float_] is one. *)
Definition consumes {A : Type} (p : list ascii -> option (A * list ascii)) : Prop :=
  forall s a r, p s = Some (a, r) -> (Datatypes.length r <= Datatypes.length s)%nat.

Definition blank (c : ascii) : bool :=
  Ascii.eqb c "009" || Ascii.eqb c "010" || Ascii.eqb c " ".

(** [parse_newick]: [Some t] when the C++ returns [true] with [guide_tree = t],
    [None] when it returns [false]. *)
Definition parse_newick (content : string) : option tree_t :=
  let s := filter (fun c => negb (blank c)) (list_ascii_of_string content) in
  match parse_tree s with
  | Some (t, []) => Some t
  | _ => None
  end.

(** *** [find_node], [reroot], [distance_ref] *)

(** [find_node]: the index of the first node labelled [name]. *)
Fixpoint find_node (t : tree_t) (name : string) : option nat :=
  match t with
  | [] => None
  | nd :: t' =>
      if String.eqb (label nd) name then Some O
      else S <$> find_node t' name
  end.

(** The [while] loop of [reroot] together with the [push_back] after it: the
    nodes from [n] up to and including the root.  [None] when [fuel] runs
    out or an index leaves the vector. *)
Fixpoint ancestors_from (fuel : nat) (t : tree_t) (n : nat) : option (list nat) :=
  match fuel with
  | O => None
  | S fuel' =>
      nd ← t !! n;
      if Nat.eqb (parent nd) n then Some [n]
      else (n ::.) <$> ancestors_from fuel' t (parent nd)
  end.

(** One iteration of the [for] loop of [reroot]. *)
Definition reverse_edge (ancestors : list nat) (t : tree_t) (i : nat) : tree_t :=
  match ancestors !! i, ancestors !! (i - 1)%nat with
  | Some a, Some b =>
      let t1 := alter (set_parent b) a t in
      match t1 !! b with
      | Some nb => alter (set_length (length nb)) a t1
      | None => t1
      end
  | _, _ => t
  end.

(** [for(i = ancestors.size() - 1; i > 0; i--)]. *)
Definition reverse_path (ancestors : list nat) (t : tree_t) : tree_t :=
  fold_left (reverse_edge ancestors) (rev (seq 1 (Datatypes.length ancestors - 1))) t.

Definition reroot_with (fuel : nat) (t : tree_t) (outgroup : string)
    : option (result tree_t) :=
  match find_node t outgroup with
  | None =>
      Some (Throw (invalid_argument "Outgroup label could not be found, re-root failed."))
  | Some ref =>
      nd ← t !! ref;
      let newroot := parent nd in
      ancestors ← ancestors_from fuel t newroot;
      let t1 := reverse_path ancestors t in
      let t2 := alter (set_parent newroot) newroot t1 in
      Some (Ok (alter (set_length (f_of_Z 0)) newroot t2))
  end.

(** [reroot].  A walk that ends visits no node twice, so one unit of fuel
    per node of the vector is enough (see [ancestors_from_enough]). *)
Definition reroot (t : tree_t) (outgroup : string) : option (result tree_t) :=
  reroot_with (Datatypes.length t) t outgroup.

(** [distance_ref]: the [while] loop accumulates the branch lengths from
    [node] up to the root. *)
Fixpoint distance_up (fuel : nat) (t : tree_t) (n : nat) (distance : F) : option F :=
  match fuel with
  | O => None
  | S fuel' =>
      nd ← t !! n;
      if Nat.eqb (parent nd) n then Some distance
      else distance_up fuel' t (parent nd) (fadd distance (length nd))
  end.

Definition distance_ref (t : tree_t) (ref n : nat) : option F :=
  distance ← distance_up (Datatypes.length t) t n (f_of_Z 0);
  r ← t !! ref;
  Some (fadd distance (length r)).

(** *** Shapes of trees *)

(** [climbs t n path]: following the parent links from [n] visits [path]
    and stops at its last node, which is its own parent. *)
Inductive climbs (t : tree_t) : nat -> list nat -> Prop :=
| climbs_root n nd :
    t !! n = Some nd -> parent nd = n -> climbs t n [n]
| climbs_step n nd path :
    t !! n = Some nd -> parent nd <> n ->
    climbs t (parent nd) path -> climbs t n (n :: path).

(** The order in which the semantic actions lay the nodes out: the root
    first and its own parent, every other node after its parent. *)
Definition newick_order (t : tree_t) : Prop :=
  (exists r, t !! 0%nat = Some r /\ parent r = 0%nat) /\
  forall i nd, (0 < i)%nat -> t !! i = Some nd -> (parent nd < i)%nat.

(** Two trees whose nodes carry the same labels and leaf flags. *)
Definition same_tags (t t' : tree_t) : Prop :=
  label <$> t' = label <$> t /\ is_leaf <$> t' = is_leaf <$> t.

Definition shift_parent (n : nat) (nd : node_t) : node_t :=
  set_parent (parent nd + n) nd.

(** Every node of [t] climbs to [root]. *)
Definition rooted (t : tree_t) (root : nat) : Prop :=
  forall n, (n < Datatypes.length t)%nat ->
    exists path, climbs t n path /\ last path = Some root.

(** What [reroot] leaves at a node whose parent becomes [a], the node it
    was the parent of, and whose branch becomes the branch [a] had. *)
Definition reversed (a : nat) (na nb : node_t) : node_t :=
  set_length (length na) (set_parent a nb).

(** The branch lengths [distance_ref] adds up on the way from a node to the
    root: those of the nodes [path] without its last. *)
Definition path_length (t : tree_t) (path : list nat) (distance : F) : F :=
  fold_left (fun dist k =>
               match t !! k with
               | Some nd => fadd dist (length nd)
               | None => dist
               end)
            (removelast path) distance.

(** The leaf flags agree with the parent links: no other node has a leaf
    for its parent, and a node that is not a leaf is the parent of a later
    node. *)
Definition leaves_childless (t : tree_t) : Prop :=
  forall i nd j nj,
    t !! i = Some nd -> is_leaf nd = true ->
    t !! j = Some nj -> parent nj = i -> j = i.

Definition inner_has_child (t : tree_t) (i : nat) : Prop :=
  forall nd, t !! i = Some nd -> is_leaf nd = false ->
    exists j nj, t !! j = Some nj /\ (i < j)%nat /\ parent nj = i.

(** A label the grammar can have read: characters of [label] only, and at
    least one at a leaf. *)
Definition label_ok (nd : node_t) : Prop :=
  Forall (fun c => label_char c = true) (list_ascii_of_string (label nd)) /\
  (is_leaf nd = true -> label nd <> EmptyString).

(** What [make_inode] has built after some of the subtrees: the root is not
    a leaf, and below it the flags agree with the links. *)
Definition flagged_below (t : tree_t) : Prop :=
  newick_order t /\
  (exists r, t !! 0%nat = Some r /\ is_leaf r = false) /\
  leaves_childless t /\
  forall i, (0 < i)%nat -> inner_has_child t i.

(** A tree laid out in the order of the parser whose flags agree with its
    links. *)
Definition flagged (t : tree_t) : Prop :=
  newick_order t /\ leaves_childless t /\ forall i, inner_has_child t i.

(** *** [aln_order]

    The order in which the leaves are aligned, as pairs of the index of a
    leaf and a branch length.  [FLT_MAX] is the parameter [flt_max].  The
    function is [None] where the [while] loop has not ended after [fuel]
    iterations, and where the C++ indexes [tree] past its end with the
    closest pair or with [ancestor].  The children the loops index with
    are those the first loop has pushed, indices of the tree; an entry of a
    list of children that is not one is passed over. *)

Definition add_child (c : nat) (nd : node_t) : node_t :=
  mk_node (label nd) (length nd) (is_leaf nd) (parent nd) (children nd ++ [c]).

(** [for(i = 1; i < tree.size(); i++)
       tree[tree[i].parent].children.push_back(i)]. *)
Definition fill_children (t : tree_t) : tree_t :=
  fold_left (fun t i =>
               match t !! i with
               | Some nd => alter (add_child i) (parent nd) t
               | None => t
               end)
            (seq 1 (Datatypes.length t - 1)) t.

(** The body of the innermost loop of the search of the closest pair, at the
    children [cj] and [ck]. *)
Definition closer (t : tree_t) (st : (nat * nat) * F) (cj ck : nat)
    : (nat * nat) * F :=
  match t !! cj, t !! ck with
  | Some nj, Some nk =>
      (* if both nodes aren't children skip *)
      if negb (is_leaf nj && is_leaf nk) then st
      else if fltb (fadd (length nj) (length nk)) (snd st)
      then ((cj, ck), fadd (length nj) (length nk))
      else st
  | _, _ => st
  end.

(** The loops over [j] and [k > j], at node [i]. *)
Definition closest_at (t : tree_t) (st : (nat * nat) * F) (i : nat)
    : (nat * nat) * F :=
  match t !! i with
  | Some nd =>
      let ch := children nd in
      if (Datatypes.length ch =? 0)%nat then st
      else
        fold_left (fun st j =>
          fold_left (fun st k =>
                       match ch !! j, ch !! k with
                       | Some cj, Some ck => closer t st cj ck
                       | _, _ => st
                       end)
                    (seq (S j) (Datatypes.length ch - S j)) st)
          (seq 0 (Datatypes.length ch - 1)) st
  | None => st
  end.

(** Part 1: the closest pair of sibling leaves, [(0, 0)] when there is
    none. *)
Definition closest (flt_max : F) (t : tree_t) : (nat * nat) * F :=
  fold_left (closest_at t) (seq 0 (Datatypes.length t)) ((0%nat, 0%nat), flt_max).

(** The variables of the [while] loop. *)
Record order_state : Type := mk_order {
  order_list : list (nat * F);
  visited : list bool;
  ancestor : nat;
  branch : F;
}.

(** The [for] loop of the [while] loop, at the child [c]: an unvisited leaf
    is visited and listed. *)
Definition visit_leaf (t : tree_t) (st : order_state) (c : nat) : order_state :=
  match visited st !! c, t !! c with
  | Some false, Some nc =>
      if is_leaf nc then
        mk_order (order_list st ++ [(c, fadd (length nc) (branch st))])
                 (<[c := true]> (visited st)) (ancestor st) (f_of_Z 0)
      else st
  | _, _ => st
  end.

Definition unvisited (vis : list bool) (c : nat) : bool :=
  match vis !! c with
  | Some b => negb b
  | None => false
  end.

Definition unvisited_inode (t : tree_t) (vis : list bool) (c : nat) : bool :=
  match vis !! c, t !! c with
  | Some b, Some nc => negb b && negb (is_leaf nc)
  | _, _ => false
  end.

(** One iteration of the [while] loop. *)
Definition order_step (t : tree_t) (st : order_state) : option order_state :=
  na ← t !! ancestor st;
  (* find leafs *)
  let st1 := fold_left (visit_leaf t) (children na) st in
  if existsb (unvisited (visited st1)) (children na) then
    (* look for !visited and inode within ancestor's children *)
    match List.find (unvisited_inode t (visited st1)) (children na) with
    | Some c =>
        nc ← t !! c;
        Some (mk_order (order_list st1) (<[c := true]> (visited st1)) c
                       (fadd (branch st1) (length nc)))
    | None => Some st1
    end
  else
    (* else mark ancestor as visited & move to its parent *)
    Some (mk_order (order_list st1) (<[ancestor st1 := true]> (visited st1))
                   (parent na) (fadd (branch st1) (length na))).

Fixpoint order_loop (fuel : nat) (t : tree_t) (st : order_state)
    : option (list (nat * F)) :=
  if existsb negb (visited st) then
    match fuel with
    | O => None
    | S fuel' => st' ← order_step t st; order_loop fuel' t st'
    end
  else Some (order_list st).

(** [aln_order], with the tree it is given; the list it fills is the
    result. *)
Definition aln_order (flt_max : F) (fuel : nat) (tree : tree_t)
    : option (list (nat * F)) :=
  let t := fill_children tree in
  let closest_pair := fst (closest flt_max t) in
  first ← t !! fst closest_pair;
  second ← t !! snd closest_pair;
  let order :=
    [(fst closest_pair, f_of_Z 0);
     (snd closest_pair, fadd (length first) (length second))] in
  let vis :=
    <[fst closest_pair := true]>
      (<[snd closest_pair := true]> (replicate (Datatypes.length t) false)) in
  order_loop fuel t (mk_order order vis (parent second) (f_of_Z 0)).

(** The nodes after node 0 whose parent is [p], in increasing order. *)
Definition children_of (t : tree_t) (p : nat) : list nat :=
  List.filter (fun i => match t !! i with
                        | Some nd => Nat.eqb (parent nd) p
                        | None => false
                        end)
              (seq 1 (Datatypes.length t - 1)).

Definition add_children (cs : list nat) (nd : node_t) : node_t :=
  mk_node (label nd) (length nd) (is_leaf nd) (parent nd) (children nd ++ cs).

(** What the [while] loop of [aln_order] keeps: the leaves that are marked
    visited are the leaves that are listed, no leaf is listed twice, and
    the node the loop stands at is not a leaf. *)
Definition leaf_at (t : tree_t) (c : nat) : Prop :=
  exists nc, t !! c = Some nc /\ is_leaf nc = true.

Definition order_inv (t : tree_t) (st : order_state) : Prop :=
  Datatypes.length (visited st) = Datatypes.length t /\
  (forall c, leaf_at t c ->
     (visited st !! c = Some true <-> c ∈ (order_list st).*1)) /\
  (forall c, leaf_at t c -> (count_occ Nat.eq_dec (order_list st).*1 c <= 1)%nat) /\
  (forall na, t !! ancestor st = Some na -> is_leaf na = false).

(** No node has a leaf for its parent. *)
Definition parents_inner (t : tree_t) : Prop :=
  forall j nj np, t !! j = Some nj -> t !! parent nj = Some np -> is_leaf np = false.

(** What the search of the closest pair can yield: [(0, 0)], or two
    children of one node, the first listed before the second. *)
Definition sibling_pair (t : tree_t) (pair : nat * nat) : Prop :=
  pair = (0%nat, 0%nat) \/
  exists i ni j k,
    t !! i = Some ni /\ (j < k)%nat /\
    children ni !! j = Some (fst pair) /\ children ni !! k = Some (snd pair).


(** *** The [while] loop of [aln_order] ends

    [above t a v]: [v] is [a] or one of the nodes over it, following the
    parent links. *)
Inductive above (t : tree_t) : nat -> nat -> Prop :=
| above_self a : above t a a
| above_up a na v : t !! a = Some na -> above t (parent na) v -> above t a v.

(** The tree the loop walks: laid out in the order of the parser, the lists
    of children filled from the parent links, and no leaf a parent. *)
Definition linked (t : tree_t) : Prop :=
  newick_order t /\
  leaves_childless t /\
  forall p np c, t !! p = Some np ->
    (c ∈ children np <->
     (0 < c)%nat /\ exists nc, t !! c = Some nc /\ parent nc = p).

(** What the loop keeps on its way: it stands at a node of the tree, and a
    visited node that is not over that node has all its children visited. *)
Definition walk_inv (t : tree_t) (st : order_state) : Prop :=
  Datatypes.length (visited st) = Datatypes.length t /\
  (ancestor st < Datatypes.length t)%nat /\
  forall v c nc,
    visited st !! v = Some true -> (0 < c)%nat ->
    t !! c = Some nc -> parent nc = v ->
    visited st !! c = Some true \/ above t (ancestor st) v.

Definition unvisited_count (vis : list bool) : nat :=
  Datatypes.length (List.filter negb vis).

(** What gets smaller at every iteration. *)
Definition walk_measure (t : tree_t) (st : order_state) : nat :=
  S (Datatypes.length t) * unvisited_count (visited st) + ancestor st.

(** What the search of the closest pair can yield, as to the leaves:
    [(0, 0)], or two leaves. *)
Definition leaf_pair (t : tree_t) (pair : nat * nat) : Prop :=
  pair = (0%nat, 0%nat) \/ (leaf_at t (fst pair) /\ leaf_at t (snd pair)).
End Tree.

End tree.

(** * Substitution models ([lib/mutation_coati.cc]) *)

Module mutation.

Section Mutation.

Context {F : Type} {FO : FloatOps F} {LM : Libm F}.

(** [amino_group_table] (a constant table of [mutation_coati.hpp]) and
    Eigen's matrix exponential [Q.exp()] are parameters. *)
Variable amino_group_table : Z -> Z.
Variable mat_exp : Matrix F -> Matrix F.

(** The nucleotide of codon [cod] at position [pos], as the sources extract
    it: [(cod & 48) >> 4], [(cod & 12) >> 2], [cod & 3]. *)
Definition nuc_at (pos : Z) (cod : Z) : Z :=
  match pos with
  | 0 => Z.shiftr (Z.land cod 48) 4
  | 1 => Z.shiftr (Z.land cod 12) 2
  | _ => Z.land cod 3
  end.

(** Modelled from the spec: [coati::utils::cod_distance], whose definition
    is not among the sources, is the number of nucleotide positions in which
    two codons differ (0..3). *)
Definition cod_distance (a b : Z) : Z :=
  (if nuc_at 0 a =? nuc_at 0 b then 0 else 1) +
  (if nuc_at 1 a =? nuc_at 1 b then 0 else 1) +
  (if nuc_at 2 a =? nuc_at 2 b then 0 else 1).

(** [gtr_q]. *)
Definition gtr_q (pi sigma : list F) : result (Matrix F) :=
  if existsb (fun f => fltb f (f_lit 0 1) || fltb (f_lit 1 1) f) sigma
  then Throw (invalid_argument "Sigma values must be in range [0,1].")
  else
    let m := Matrixf 4 4 in
    (* set sigmas *)
    let m := mset (mset m 1 0 (vec_at sigma 0)) 0 1 (vec_at sigma 0) in
    let m := mset (mset m 2 0 (vec_at sigma 1)) 0 2 (vec_at sigma 1) in
    let m := mset (mset m 3 0 (vec_at sigma 2)) 0 3 (vec_at sigma 2) in
    let m := mset (mset m 2 1 (vec_at sigma 3)) 1 2 (vec_at sigma 3) in
    let m := mset (mset m 3 1 (vec_at sigma 4)) 1 3 (vec_at sigma 4) in
    let m := mset (mset m 3 2 (vec_at sigma 5)) 2 3 (vec_at sigma 5) in
    (* multiply by corresponding pi *)
    let m :=
      fold_left (fun m i =>
        fold_left (fun m j => mset m i j (fmul (m i j) (vec_at pi j)))
                  (range 0 4) m)
        (range 0 4) m in
    (* set major diagonal *)
    let m := mset m 0 0 (fneg (fadd (fadd (m 0 1) (m 0 2)) (m 0 3))) in
    let m := mset m 1 1 (fneg (fadd (fadd (m 1 0) (m 1 2)) (m 1 3))) in
    let m := mset m 2 2 (fneg (fadd (fadd (m 2 0) (m 2 1)) (m 2 3))) in
    let m := mset m 3 3 (fneg (fadd (fadd (m 3 0) (m 3 1)) (m 3 2))) in
    Ok m.

(** Yang (1994), the fixed nucleotide rate matrix of [mg94_p]. *)
Definition yang_q : Matrix F :=
  fun r c =>
    match r, c with
    | 0, 0 => f_lit (-818) 1000 | 0, 1 => f_lit 132 1000
    | 0, 2 => f_lit 586 1000 | 0, 3 => f_lit 1 10
    | 1, 0 => f_lit 221 1000 | 1, 1 => f_lit (-1349) 1000
    | 1, 2 => f_lit 231 1000 | 1, 3 => f_lit 897 1000
    | 2, 0 => f_lit 909 1000 | 2, 1 => f_lit 215 1000
    | 2, 2 => f_lit (-1322) 1000 | 2, 3 => f_lit 198 1000
    | 3, 0 => f_lit 1 10 | 3, 1 => f_lit 537 1000
    | 3, 2 => f_lit 128 1000 | 3, 3 => f_lit (-765) 1000
    | _, _ => f_of_Z 0
    end.

(** The variables [mg94_p] carries across the iterations of its loops. *)
Record mg94_state : Type := mk_mg94 {
  Q : Matrix F;
  Pi : Z -> F;
  x : Z;
  y : Z;
  rowSum : F;
  d : F;
}.

(** The body of the inner loop of [mg94_p], at row [i] and column [j]. *)
Definition mg94_cell (omega : F) (nuc_q : Matrix F) (i : Z) (st : mg94_state) (j : Z)
    : mg94_state :=
  let st1 :=
    if i =? j then
      mk_mg94 (mset (Q st) i j (f_of_Z 0)) (Pi st) (x st) (y st) (rowSum st) (d st)
    else if 1 <? cod_distance i j then
      mk_mg94 (mset (Q st) i j (f_of_Z 0)) (Pi st) (x st) (y st) (rowSum st) (d st)
    else
      let w := if amino_group_table i =? amino_group_table j
               then f_of_Z 1 else omega in
      let '(x1, y1) :=
        if negb (Z.land i 48 =? Z.land j 48) then
          (Z.shiftr (Z.land i 48) 4, Z.shiftr (Z.land j 48) 4)
        else if negb (Z.land i 12 =? Z.land j 12) then
          (Z.shiftr (Z.land i 12) 2, Z.shiftr (Z.land j 12) 2)
        else if negb (Z.land i 3 =? Z.land j 3) then
          (Z.land i 3, Z.land j 3)
        else (x st, y st) in
      mk_mg94 (mset (Q st) i j (fmul w (nuc_q x1 y1))) (Pi st) x1 y1 (rowSum st) (d st) in
  mk_mg94 (Q st1) (Pi st1) (x st1) (y st1) (fadd (rowSum st1) (Q st1 i j)) (d st1).

(** The body of the outer loop of [mg94_p], at row [i]. *)
Definition mg94_row (omega : F) (nuc_freqs : list F) (nuc_q : Matrix F)
    (st : mg94_state) (i : Z) : mg94_state :=
  let pi_i :=
    fmul (fmul (vec_at nuc_freqs (Z.shiftr (Z.land i 48) 4))
               (vec_at nuc_freqs (Z.shiftr (Z.land i 12) 2)))
         (vec_at nuc_freqs (Z.land i 3)) in
  let st0 :=
    mk_mg94 (Q st) (fun k => if k =? i then pi_i else Pi st k) (x st) (y st)
            (f_lit 0 1) (d st) in
  let st1 := fold_left (mg94_cell omega nuc_q i) (range 0 64) st0 in
  mk_mg94 (mset (Q st1) i i (fneg (rowSum st1))) (Pi st1) (x st1) (y st1)
          (rowSum st1) (fadd (d st1) (fmul (Pi st1 i) (rowSum st1))).

(** The rate matrix [Q] of [mg94_p] when its loops end, before it is
    normalised, with the normalising constant [d]. *)
Definition mg94_q (omega : F) (nuc_freqs : list F) (nuc_q : Matrix F) : mg94_state :=
  fold_left (mg94_row omega nuc_freqs nuc_q) (range 0 64)
    (mk_mg94 (Matrixf 64 64) (fun _ => f_of_Z 0) 0 0 (f_lit 0 1) (f_lit 0 1)).

(** [mg94_p]. *)
Definition mg94_p (br_len omega : F) (nuc_freqs sigma : list F) : result (Matrix F) :=
  if fleb br_len (f_of_Z 0)
  then Throw (out_of_range "Branch length must be positive.")
  else
    nuc_q ← (if existsb (fun f => fltb (f_lit 0 1) f) sigma
             then gtr_q nuc_freqs sigma
             else Ok yang_q);
    let st := mg94_q omega nuc_freqs nuc_q in
    (* normalize *)
    let Q1 : Matrix F := fun r c => fdiv (Q st r c) (d st) in
    let Q2 : Matrix F := fun r c => fmul (Q1 r c) br_len in
    Ok (mat_exp Q2).

(** The first position in which two codons differ, and the rate the model
    gives to the substitution of codon [j] for codon [i]. *)
Definition diff_pos (i j : Z) : Z :=
  if negb (nuc_at 0 i =? nuc_at 0 j) then 0
  else if negb (nuc_at 1 i =? nuc_at 1 j) then 1
  else 2.

Definition rate_entry (omega : F) (nuc_q : Matrix F) (i j : Z) : F :=
  if 1 <? cod_distance i j then f_of_Z 0
  else
    fmul (if amino_group_table i =? amino_group_table j then f_of_Z 1 else omega)
         (nuc_q (nuc_at (diff_pos i j) i) (nuc_at (diff_pos i j) j)).

(** What the masks of [mg94_p] compare, checked on one pair of codons: two
    codons agree under a mask exactly when they carry the same nucleotide
    there, and codons that agree under the three masks are equal. *)
Definition masks_agree (i j : Z) : bool :=
  Bool.eqb (Z.land i 48 =? Z.land j 48) (nuc_at 0 i =? nuc_at 0 j) &&
  Bool.eqb (Z.land i 12 =? Z.land j 12) (nuc_at 1 i =? nuc_at 1 j) &&
  Bool.eqb (Z.land i 3 =? Z.land j 3) (nuc_at 2 i =? nuc_at 2 j) &&
  ((i =? j) ||
   negb ((nuc_at 0 i =? nuc_at 0 j) && (nuc_at 1 i =? nuc_at 1 j) &&
         (nuc_at 2 i =? nuc_at 2 j))) &&
  (0 <=? nuc_at 0 i) && (nuc_at 0 i <? 4) && (0 <=? nuc_at 1 i) &&
  (nuc_at 1 i <? 4) && (0 <=? nuc_at 2 i) && (nuc_at 2 i <? 4).

(** The inner sums of [marginal_p]: the entries [P(cod, i)] over the codons
    [i] whose nucleotide at [pos] is [nuc], added up in index order. *)
Definition marg_sum (P : Matrix F) (cod pos nuc : Z) : F :=
  fold_left (fun marg i =>
               fadd marg (if nuc_at pos i =? nuc then P cod i else f_lit 0 1))
            (range 0 64) (f_lit 0 1).

(** [marginal_p]. *)
Definition marginal_p (P : Matrix F) (pi : list F) : Matrix F :=
  fold_left (fun p cod =>
    fold_left (fun p pos =>
      fold_left (fun p nuc =>
                   mset p (cod * 3 + pos) nuc
                        (logf (fdiv (marg_sum P cod pos nuc) (vec_at pi nuc))))
                (range 0 4) p)
      (range 0 3) p)
    (range 0 64) (Matrixf 192 5).

(** *** The properties the specification states of these tables *)

(** [v] is 1 within the tolerance 1e-6. *)
Definition near_one (v : F) : bool :=
  fleb (fsub v (f_of_Z 1)) (f_lit 1 1000000) &&
  fleb (fsub (f_of_Z 1) v) (f_lit 1 1000000).

(** The frequencies sum to 1 within the tolerance. *)
Definition sums_to_one (pi : list F) : bool :=
  near_one (fold_left fadd pi (f_of_Z 0)).

(** Every exchangeability lies in [0, 1]. *)
Definition sigma_in_range (sigma : list F) : bool :=
  forallb (fun f => fleb (f_of_Z 0) f && fleb f (f_of_Z 1)) sigma.

(** The test [gtr_q] applies to [sigma]. *)
Definition sigma_rejected (sigma : list F) : bool :=
  existsb (fun f => fltb f (f_lit 0 1) || fltb (f_lit 1 1) f) sigma.

Definition row_total (P : Matrix F) (cod : Z) : F :=
  fold_left (fun acc i => fadd acc (P cod i)) (range 0 64) (f_of_Z 0).

(** A 64x64 matrix with entries that are not negative and rows that sum
    to 1. *)
Definition row_stochastic (P : Matrix F) : Prop :=
  forall cod, 0 <= cod < 64 ->
    row_total P cod = f_of_Z 1 /\
    forall i, 0 <= i < 64 -> fleb (f_of_Z 0) (P cod i) = true.

(** Four frequencies, each in (0, 1]. *)
Definition frequencies (pi : list F) : Prop :=
  Datatypes.length pi = 4%nat /\
  forall nuc, 0 <= nuc < 4 ->
    fltb (f_of_Z 0) (vec_at pi nuc) = true /\
    fleb (vec_at pi nuc) (f_of_Z 1) = true.

(** The matrix that leaves every codon as it is: [exp(Q t)] for [Q = 0]. *)
Definition codon_identity : Matrix F :=
  fun r c => if r =? c then f_of_Z 1 else f_of_Z 0.

(** The entry [marginal_p] leaves in row [r] and column [c]. *)
Definition marginal_entry (P : Matrix F) (pi : list F) (r c : Z) : F :=
  logf (fdiv (marg_sum P (r / 3) (r mod 3) c) (vec_at pi c)).

(** The check of [TEST_CASE("marginal_p")]: the sum over [nuc] of
    [expf(p_marg(cod * 3 + pos, nuc)) * pi[nuc]]. *)
Definition marginal_row_sum (p_marg : Matrix F) (pi : list F) (cod pos : Z) : F :=
  fold_left (fun val nuc =>
               fadd val (fmul (expf (p_marg (cod * 3 + pos) nuc)) (vec_at pi nuc)))
            (range 0 4) (f_lit 0 1).

(** The place in [sigma] of the exchangeability of two nucleotides, as
    [gtr_q] lays them out: AC, AG, AT, CG, CT, GT. *)
Definition sigma_index (i j : Z) : Z :=
  match Z.min i j, Z.max i j with
  | 0, 1 => 0
  | 0, 2 => 1
  | 0, 3 => 2
  | 1, 2 => 3
  | 1, 3 => 4
  | _, _ => 5
  end.

(** The sum of the entries of row [i] of a 4x4 matrix off its diagonal, in
    the order in which [gtr_q] adds them. *)
Definition off_diagonal4 (m : Matrix F) (i : Z) : F :=
  match i with
  | 0 => fadd (fadd (m 0 1) (m 0 2)) (m 0 3)
  | 1 => fadd (fadd (m 1 0) (m 1 2)) (m 1 3)
  | 2 => fadd (fadd (m 2 0) (m 2 1)) (m 2 3)
  | _ => fadd (fadd (m 3 0) (m 3 1)) (m 3 2)
  end.

(** What the inner loop of [mg94_p] writes in row [i] and column [j], the
    sum of a row off its diagonal as the loop adds it up, and the frequency
    of a codon. *)
Definition rate_cell (omega : F) (nuc_q : Matrix F) (i j : Z) : F :=
  if i =? j then f_of_Z 0 else rate_entry omega nuc_q i j.

Definition off_diagonal (omega : F) (nuc_q : Matrix F) (i : Z) : F :=
  fold_left (fun a j => fadd a (rate_cell omega nuc_q i j)) (range 0 64) (f_lit 0 1).

Definition codon_freq (nuc_freqs : list F) (i : Z) : F :=
  fmul (fmul (vec_at nuc_freqs (nuc_at 0 i)) (vec_at nuc_freqs (nuc_at 1 i)))
       (vec_at nuc_freqs (nuc_at 2 i)).

(** The normalising constant of [mg94_p]. *)
Definition expected_rate (omega : F) (nuc_freqs : list F) (nuc_q : Matrix F) : F :=
  fold_left (fun a i => fadd a (fmul (codon_freq nuc_freqs i) (off_diagonal omega nuc_q i)))
            (range 0 64) (f_lit 0 1).

End Mutation.

End mutation.

(** * The marginal aligner's driver ([lib/align_marginal.cc]) *)

Module align.

Section Align.

Context {F : Type} {FO : FloatOps F} {LM : Libm F}.

(** The fields of [coati::alignment_t] and of its members (declared in
    headers that are not among the sources) that the functions below
    read or write. *)
Record gap_t : Type := mk_gap {
  open : F;
  extend : F;
  len : Z;
}.

Record data_t : Type := mk_data {
  names : list string;
  seqs : list string;
}.

Record alignment_t : Type := mk_aln {
  data : data_t;
  refs : string;
  rev : bool;
  score : bool;
  gap : gap_t;
  pi : list F;
  subst_matrix : Matrix F;
}.

Definition set_data (aln : alignment_t) (dt : data_t) : alignment_t :=
  mk_aln dt (refs aln) (rev aln) (score aln) (gap aln) (pi aln) (subst_matrix aln).

Definition set_pi (aln : alignment_t) (freqs : list F) : alignment_t :=
  mk_aln (data aln) (refs aln) (rev aln) (score aln) (gap aln) freqs (subst_matrix aln).

(** [v[i]] on a vector of strings; the callers index below [v.size()]. *)
Definition str_at (v : list string) (i : nat) : string := nth i v EmptyString.

(** [s[i]] on a string, for [i < s.length()]. *)
Definition char_at (s : string) (i : nat) : ascii :=
  match String.get i s with
  | Some c => c
  | None => "000"%char
  end.

(** [std::swap(v[0], v[1])]. *)
Definition swap01 (v : list string) : list string :=
  match v with
  | a :: b :: r => b :: a :: r
  | _ => v
  end.

Definition swap_data (dt : data_t) : data_t :=
  mk_data (swap01 (names dt)) (swap01 (seqs dt)).

(** [order_ref]. *)
Definition order_ref (aln : alignment_t) : result alignment_t :=
  if String.eqb (str_at (names (data aln)) 0) (refs aln) then
    (* already the first sequence: do nothing *)
    Ok aln
  else if String.eqb (str_at (names (data aln)) 1) (refs aln) then
    Ok (set_data aln (swap_data (data aln)))
  else if rev aln then
    Ok (set_data aln (swap_data (data aln)))
  else
    Throw (invalid_argument "Name of reference sequence not found.").

(** The step of [marg_alignment] that sets the reference sequence first:
    [if(!aln.refs.empty() || aln.rev) order_ref(aln)]. *)
Definition set_reference (aln : alignment_t) : result alignment_t :=
  if negb (String.eqb (refs aln) EmptyString) || rev aln
  then order_ref aln else Ok aln.

(** Modelled from the spec: the tropical semiring's [from_linearf] and
    [from_linear_1mf] ([semiring.hpp] is not among the sources) map a
    probability [g] to [log g] and to [log (1 - g)]. *)
Definition from_linearf (g : F) : F := logf g.
Definition from_linear_1mf (g : F) : F := logf (fsub (f_of_Z 1) g).

(** [coati::utils::marginal_seq_encoding] is a parameter: from the gap-free
    ancestor and the descendant it yields the two index sequences used to
    address the substitution matrix, or throws. *)
Variable marginal_seq_encoding : string -> string -> result (list Z * list Z).

(** [boost::erase_all(s, "-")]. *)
Definition erase_gaps (s : string) : string :=
  string_of_list_ascii
    (filter (fun c => negb (Ascii.eqb c "-")) (list_ascii_of_string s)).

(** [v[i]] on an index sequence.  Reading past the end is undefined in
    C++; the examples below never do. *)
Definition idx_at (v : list Z) (i : Z) : Z := nth (Z.to_nat i) v 0.

(** The variables of the scoring loop. *)
Record score_state : Type := mk_score {
  weight : F;
  state : Z;
  ngap : Z;
}.

Definition is_gap (c : ascii) : bool := Ascii.eqb c "-".

(** The body of the loop of [alignment_score], at column [i]. *)
Definition score_column (aln : alignment_t) (p_marg : Matrix F)
    (seq_pair : list Z * list Z) (st : score_state) (i : nat) : result score_state :=
  let s0 := str_at (seqs (data aln)) 0 in
  let s1 := str_at (seqs (data aln)) 1 in
  let no_gap := from_linear_1mf (open (gap aln)) in
  let gap_stop := from_linear_1mf (extend (gap aln)) in
  let gap_open := from_linearf (open (gap aln)) in
  let gap_extend := from_linearf (extend (gap aln)) in
  let emit := p_marg (idx_at (fst seq_pair) (Z.of_nat i - ngap st))
                     (idx_at (snd seq_pair) (Z.of_nat i)) in
  match state st with
  | 0 => (* substitution *)
      if is_gap (char_at s0 i) then
        Ok (mk_score (fadd (weight st) gap_open) 2 (ngap st + 1))
      else if is_gap (char_at s1 i) then
        Ok (mk_score (fadd (weight st) (fadd no_gap gap_open)) 1 (ngap st))
      else
        Ok (mk_score (fadd (weight st) (fadd (fmul (f_of_Z 2) no_gap) emit))
                     (state st) (ngap st))
  | 1 => (* deletion *)
      if is_gap (char_at s0 i) then
        Throw (runtime_error "Insertion after deletion is not modeled.")
      else if is_gap (char_at s1 i) then
        Ok (mk_score (fadd (weight st) gap_extend) (state st) (ngap st))
      else
        Ok (mk_score (fadd (weight st) (fadd gap_stop emit)) 0 (ngap st))
  | 2 => (* insertion *)
      if is_gap (char_at s0 i) then
        Ok (mk_score (fadd (weight st) gap_extend) (state st) (ngap st + 1))
      else if is_gap (char_at s1 i) then
        Ok (mk_score (fadd (weight st) (fadd gap_stop gap_open)) 1 (ngap st))
      else
        Ok (mk_score (fadd (weight st) (fadd (fadd gap_stop no_gap) emit))
                     0 (ngap st))
  | _ => Ok st
  end.

(** The loop of [alignment_score] over the columns [cols]. *)
Definition score_columns (aln : alignment_t) (p_marg : Matrix F)
    (seq_pair : list Z * list Z) (cols : list nat) (st : score_state)
    : result score_state :=
  fold_left (fun r i => st ← r; score_column aln p_marg seq_pair st i) cols (Ok st).

(** [alignment_score]. *)
Definition alignment_score (aln : alignment_t) (p_marg : Matrix F) : result F :=
  let s0 := str_at (seqs (data aln)) 0 in
  let s1 := str_at (seqs (data aln)) 1 in
  if negb (String.length s0 =? String.length s1)%nat then
    Throw (invalid_argument
             "For alignment scoring both sequences must have equal length.")
  else
    let anc := erase_gaps s0 in
    seq_pair ← marginal_seq_encoding anc s1;
    let no_gap := from_linear_1mf (open (gap aln)) in
    let gap_stop := from_linear_1mf (extend (gap aln)) in
    (* log(pi): computed by the source, and not used afterwards *)
    let pi_log := map logf (pi aln) in
    st ← score_columns aln p_marg seq_pair (seq 0 (String.length s0))
           (mk_score (f_lit 0 1) 0 0);
    (* terminal state weight *)
    if state st =? 0 then Ok (fadd (weight st) no_gap)
    else if state st =? 2 then Ok (fadd (weight st) gap_stop)
    else Ok (weight st).

(** What is left of [marg_alignment] after the score branch: the length
    checks, and then encoding, [viterbi_mem], [traceback] and the output,
    which are one parameter. *)
Variable align_and_write : alignment_t -> result bool.

Definition align_pair (aln : alignment_t) : result bool :=
  let len_a := Z.of_nat (String.length (str_at (seqs (data aln)) 0)) in
  if negb (len_a mod 3 =? 0) || negb (len_a mod len (gap aln) =? 0) then
    Throw (invalid_argument "Length of reference sequence must be multiple of 3.")
  else if negb (Z.of_nat (String.length (str_at (seqs (data aln)) 1))
                  mod len (gap aln) =? 0) then
    Throw (invalid_argument
             ("Length of descendant sequence must be multiple of " ++
              NilZero.string_of_int (Z.to_int (len (gap aln))) ++ "."))
  else align_and_write aln.

(** [coati::io::read_input] and [coati::utils::set_subst] are parameters. *)
Variable read_input : alignment_t -> result data_t.
Variable set_subst : alignment_t -> result alignment_t.

(** What [marg_alignment] does: it printed a score, or it went on to align
    and returned that part's value. *)
Inductive outcome : Type :=
| Scored (w : F)
| Aligned (b : bool).

(** [marg_alignment].  [aln.data.size()] is the number of names. *)
Definition marg_alignment (aln : alignment_t) : result outcome :=
  (* read input data *)
  dt ← read_input aln;
  let aln := set_data aln dt in
  if negb (Datatypes.length (names (data aln)) =? 2)%nat then
    Throw (invalid_argument "Exactly two sequences required.")
  else
    (* set substitution matrix according to model *)
    aln ← set_subst aln;
    (* set reference sequence as first sequence *)
    aln ← set_reference aln;
    (* if -s or --score, score alignment and exit *)
    if score aln then
      w ← alignment_score aln (subst_matrix aln);
      Ok (Scored w)
    else
      b ← align_pair aln;
      Ok (Aligned b).

(** *** Columns of a pre-aligned pair

    An insertion column has a gap in the ancestor; a deletion column has a
    gap in the descendant opposite a nucleotide of the ancestor. *)
Definition insertion_column (aln : alignment_t) (i : nat) : bool :=
  is_gap (char_at (str_at (seqs (data aln)) 0) i).

Definition deletion_column (aln : alignment_t) (i : nat) : bool :=
  negb (is_gap (char_at (str_at (seqs (data aln)) 0) i)) &&
  is_gap (char_at (str_at (seqs (data aln)) 1) i).

(** Some insertion column comes right after a deletion column, among the
    first [n] columns. *)
Definition insertion_after_deletion (aln : alignment_t) (n : nat) : bool :=
  existsb (fun i => deletion_column aln i && insertion_column aln (S i))
          (seq 0 (n - 1)).

(** A column with a gap in both strings, which no pairwise alignment has;
    the scoring loop takes it for an insertion. *)
Definition proper_columns (aln : alignment_t) (n : nat) : bool :=
  forallb (fun i => negb (is_gap (char_at (str_at (seqs (data aln)) 0) i) &&
                          is_gap (char_at (str_at (seqs (data aln)) 1) i)))
          (seq 0 n).

(** Some column with a gap in the ancestor comes right after a column with
    a gap in the descendant, among the first [n] columns. *)
Definition insertion_after_gap (aln : alignment_t) (n : nat) : bool :=
  existsb (fun i => is_gap (char_at (str_at (seqs (data aln)) 1) i) &&
                    insertion_column aln (S i))
          (seq 0 (n - 1)).

(** The state of the scoring loop after column [i]. *)
Definition column_state (aln : alignment_t) (i : nat) : Z :=
  if insertion_column aln i then 2 else if deletion_column aln i then 1 else 0.

Definition unmodeled : exn :=
  runtime_error "Insertion after deletion is not modeled.".

(** The claim that an insertion also emits its nucleotides, in the words of
    the specification: [emitI] consumes the descendant nucleotide and weighs
    it [log pi].  [nt4] indexes the frequencies in the order A, C, G, T. *)
Definition nt4 (c : ascii) : Z :=
  if Ascii.eqb c "A" then 0 else if Ascii.eqb c "C" then 1
  else if Ascii.eqb c "G" then 2 else 3.

Definition spec_emitI (aln : alignment_t) (i : nat) : F :=
  logf (vec_at (pi aln) (nt4 (char_at (str_at (seqs (data aln)) 1) i))).

Definition spec_score_column (aln : alignment_t) (p_marg : Matrix F)
    (seq_pair : list Z * list Z) (st : score_state) (i : nat) : result score_state :=
  if is_gap (char_at (str_at (seqs (data aln)) 0) i) then
    st' ← score_column aln p_marg seq_pair st i;
    Ok (mk_score (fadd (weight st') (spec_emitI aln i)) (state st') (ngap st'))
  else score_column aln p_marg seq_pair st i.

Definition spec_alignment_score (aln : alignment_t) (p_marg : Matrix F) : result F :=
  let s0 := str_at (seqs (data aln)) 0 in
  let s1 := str_at (seqs (data aln)) 1 in
  if negb (String.length s0 =? String.length s1)%nat then
    Throw (invalid_argument
             "For alignment scoring both sequences must have equal length.")
  else
    seq_pair ← marginal_seq_encoding (erase_gaps s0) s1;
    st ← fold_left (fun r i => st ← r; spec_score_column aln p_marg seq_pair st i)
           (seq 0 (String.length s0)) (Ok (mk_score (f_lit 0 1) 0 0));
    if state st =? 0 then Ok (fadd (weight st) (from_linear_1mf (open (gap aln))))
    else if state st =? 2 then Ok (fadd (weight st) (from_linear_1mf (extend (gap aln))))
    else Ok (weight st).

(** The number of gaps among the first [n] characters of [s]. *)
Definition gaps_before (s : string) (n : nat) : nat :=
  Datatypes.length (List.filter is_gap (firstn n (list_ascii_of_string s))).

End Align.

(** In the order A, C, G, T. *)
Definition codon_index (c1 c2 c3 : ascii) : Z :=
  nt4 c1 * 16 + nt4 c2 * 4 + nt4 c3.

Fixpoint encode_anc (s : list ascii) : list Z :=
  match s with
  | c1 :: c2 :: c3 :: r =>
      let c := codon_index c1 c2 c3 in
      c * 3 :: c * 3 + 1 :: c * 3 + 2 :: encode_anc r
  | _ => []
  end.

(** Modelled from the spec: a [marginal_seq_encoding] for the examples.
    The ancestor becomes, for each nucleotide, three times the index of its
    codon plus its phase; the descendant becomes its nucleotide indices.
    It accepts every string. *)
Definition simple_encoding (anc des : string) : result (list Z * list Z) :=
  Ok (encode_anc (list_ascii_of_string anc), map nt4 (list_ascii_of_string des)).

End align.

(** * Sequences by name ([lib/tree.cc]) *)

Module seqs.

(** [find_seq]: the flag it returns, and the string it leaves in [seq].
    The loop runs over the names and reads [f.seqs[i]] for each name that
    matches; reading past the end of [f.seqs] is undefined in C++, and
    yields the empty string here. *)
Definition find_seq (name : string) (f : align.data_t) : bool * string :=
  let seq :=
    fold_left (fun seq i =>
                 if String.eqb (align.str_at (align.names f) i) name
                 then align.str_at (align.seqs f) i
                 else seq)
              (seq 0 (Datatypes.length (align.names f))) EmptyString in
  (negb (String.eqb seq EmptyString), seq).

End seqs.

(** * Two arithmetics *)

(** ** IEEE binary32

    [float] is binary32: 24 bits of precision, [emax = 128].  A decimal
    literal is a [double] (binary64) that is then narrowed to [float]. *)

Definition b32_of_Z (z : Z) : spec_float := binary_normalize 24 128 z 0 false.

Definition b32_narrow (v : spec_float) : spec_float :=
  match v with
  | S754_finite s m e => binary_round 24 128 s m e
  | _ => v
  end.

Definition b32_lit (n : Z) (d : positive) : spec_float :=
  b32_narrow (SFdiv 53 1024 (binary_normalize 53 1024 n 0 false)
                            (binary_normalize 53 1024 (Zpos d) 0 false)).

#[global] Instance binary32 : FloatOps spec_float := {
  f_of_Z := b32_of_Z;
  f_lit := b32_lit;
  fadd := SFadd 24 128;
  fsub := SFsub 24 128;
  fmul := SFmul 24 128;
  fdiv := SFdiv 24 128;
  fneg := SFopp;
  fltb := SFltb;
  fleb := SFleb;
}.

Definition b32_is_finite (v : spec_float) : bool :=
  match v with
  | S754_zero _ | S754_finite _ _ _ => true
  | _ => false
  end.

(** libm's [logf] and [expf].  ISO C (Annex F) fixes them at the special
    values: [logf(+-0) = -inf], [logf(+inf) = +inf], [logf(x) = NaN] for
    [x < 0], [expf(+-0) = 1], [expf(-inf) = +0], [expf(+inf) = +inf].  On
    the other arguments they round the real function in a way the standard
    leaves open: there they are the parameters [approx_log] and
    [approx_exp]. *)
Definition b32_logf (approx_log : spec_float -> spec_float) (v : spec_float)
    : spec_float :=
  match v with
  | S754_zero _ => S754_infinity true
  | S754_infinity false => S754_infinity false
  | S754_infinity true => S754_nan
  | S754_nan => S754_nan
  | S754_finite true _ _ => S754_nan
  | S754_finite false _ _ => approx_log v
  end.

Definition b32_expf (approx_exp : spec_float -> spec_float) (v : spec_float)
    : spec_float :=
  match v with
  | S754_zero _ => b32_of_Z 1
  | S754_infinity false => S754_infinity false
  | S754_infinity true => S754_zero false
  | S754_nan => S754_nan
  | S754_finite _ _ _ => approx_exp v
  end.

Definition binary32_libm (approx_log approx_exp : spec_float -> spec_float)
    : Libm spec_float :=
  {| logf := b32_logf approx_log; expf := b32_expf approx_exp |}.

(** ** Exact arithmetic

    The reals, extended with the values IEEE arithmetic adds to them; no
    operation rounds.  Zero has no sign here, so a division of a non-zero
    number by zero is taken as a division by [+0]. *)

Inductive xreal : Type :=
| Fin (r : R)
| PInf
| NInf
| NaN.

Definition xneg (a : xreal) : xreal :=
  match a with
  | Fin r => Fin (- r)
  | PInf => NInf
  | NInf => PInf
  | NaN => NaN
  end.

Definition xadd (a b : xreal) : xreal :=
  match a, b with
  | Fin r, Fin s => Fin (r + s)
  | NaN, _ | _, NaN => NaN
  | PInf, NInf | NInf, PInf => NaN
  | PInf, _ | _, PInf => PInf
  | NInf, _ | _, NInf => NInf
  end.

Definition xsub (a b : xreal) : xreal := xadd a (xneg b).

(** The sign of a real as an infinity; [NaN] at zero. *)
Definition xsign (r : R) : xreal :=
  if Rlt_dec 0 r then PInf else if Rlt_dec r 0 then NInf else NaN.

Definition xmul (a b : xreal) : xreal :=
  match a, b with
  | Fin r, Fin s => Fin (r * s)
  | NaN, _ | _, NaN => NaN
  | Fin r, PInf | PInf, Fin r => xsign r
  | Fin r, NInf | NInf, Fin r => xneg (xsign r)
  | PInf, PInf | NInf, NInf => PInf
  | PInf, NInf | NInf, PInf => NInf
  end.

Definition xdiv (a b : xreal) : xreal :=
  match a, b with
  | Fin r, Fin s => if Req_dec_T s 0 then xsign r else Fin (r / s)
  | NaN, _ | _, NaN => NaN
  | Fin _, _ => Fin 0
  | PInf, Fin s => if Rlt_dec s 0 then NInf else PInf
  | NInf, Fin s => if Rlt_dec s 0 then PInf else NInf
  | _, _ => NaN
  end.

Definition xltb (a b : xreal) : bool :=
  match a, b with
  | Fin r, Fin s => if Rlt_dec r s then true else false
  | NaN, _ | _, NaN => false
  | _, NInf | PInf, _ => false
  | _, _ => true
  end.

Definition xleb (a b : xreal) : bool :=
  match a, b with
  | Fin r, Fin s => if Rle_dec r s then true else false
  | NaN, _ | _, NaN => false
  | NInf, _ | _, PInf => true
  | _, _ => false
  end.

Definition xlog (a : xreal) : xreal :=
  match a with
  | Fin r => if Req_dec_T r 0 then NInf else if Rlt_dec r 0 then NaN else Fin (ln r)
  | PInf => PInf
  | _ => NaN
  end.

Definition xexp (a : xreal) : xreal :=
  match a with
  | Fin r => Fin (exp r)
  | PInf => PInf
  | NInf => Fin 0
  | NaN => NaN
  end.

#[global] Instance exact : FloatOps xreal := {
  f_of_Z := fun z => Fin (IZR z);
  f_lit := fun n d => Fin (IZR n / IZR (Zpos d));
  fadd := xadd;
  fsub := xsub;
  fmul := xmul;
  fdiv := xdiv;
  fneg := xneg;
  fltb := xltb;
  fleb := xleb;
}.

#[global] Instance exact_libm : Libm xreal := {
  logf := xlog;
  expf := xexp;
}.

(** Sums of reals, in the order in which the loops add them. *)
Definition rsum (g : Z -> R) (l : list Z) (a0 : R) : R :=
  fold_left (fun a i => (a + g i)%R) l a0.

(** Case analysis on the comparisons of reals that exact arithmetic makes. *)
Ltac decide_reals :=
  repeat match goal with
         | |- context [Req_dec_T ?a ?b] => destruct (Req_dec_T a b); try lra
         | |- context [Rlt_dec ?a ?b] => destruct (Rlt_dec a b); try lra
         | |- context [Rle_dec ?a ?b] => destruct (Rle_dec a b); try lra
         | H : context [Req_dec_T ?a ?b] |- _ => destruct (Req_dec_T a b); try lra
         | H : context [Rlt_dec ?a ?b] |- _ => destruct (Rlt_dec a b); try lra
         | H : context [Rle_dec ?a ?b] |- _ => destruct (Rle_dec a b); try lra
         end.

(** The entry that the inner loop of [mg94_p] writes in row [i] and column
    [j], as a real, where it is finite. *)
Definition cell_real (amino_group_table : Z -> Z) (w : R) (nuc_q : Matrix xreal)
    (i j : Z) : R :=
  match mutation.rate_cell amino_group_table (Fin w) nuc_q i j with
  | Fin r => r
  | _ => 0%R
  end.

(** The frequency of a nucleotide, of four given as reals. *)
Definition freq_real (p0 p1 p2 p3 : R) (k : Z) : R :=
  match k with
  | 0 => p0
  | 1 => p1
  | 2 => p2
  | _ => p3
  end.

(** * Example data *)

(** A [float_] for the examples: an unsigned decimal, digits with an
    optional fraction. *)
Fixpoint span_digits (s : list ascii) : list ascii * list ascii :=
  match s with
  | c :: s' =>
      if tree.in_range "0" "9" c
      then let '(ds, r) := span_digits s' in (c :: ds, r)
      else ([], s)
  | [] => ([], [])
  end.

Definition digits_value (ds : list ascii) : Z :=
  fold_left (fun v c => v * 10 + (Z.of_nat (nat_of_ascii c) - 48)) ds 0.

Definition decimal_float {F : Type} {FO : FloatOps F} (s : list ascii)
    : option (F * list ascii) :=
  match span_digits s with
  | ([], _) => None
  | (ip, "."%char :: s1) =>
      match span_digits s1 with
      | ([], _) => Some (f_lit (digits_value ip) 1, "."%char :: s1)
      | (fp, s2) =>
          Some (f_lit (digits_value (ip ++ fp))
                      (Z.to_pos (10 ^ Z.of_nat (Datatypes.length fp))), s2)
      end
  | (ip, s1) => Some (f_lit (digits_value ip) 1, s1)
  end.

(** The tree of the test cases of [tree.cc]. *)
Definition newick_text : string :=
  "(B_b:6.0,(A-a:5.0,C/c:3.0,E.e:4.0)Ancestor:5.0,D%:11.0);".

Definition newick_example : list (tree.node_t (F:=spec_float)) :=
  [tree.node EmptyString (b32_lit 0 1) false 0;
   tree.node "B_b" (b32_lit 60 10) true 0;
   tree.node "Ancestor" (b32_lit 50 10) false 0;
   tree.node "A-a" (b32_lit 50 10) true 2;
   tree.node "C/c" (b32_lit 30 10) true 2;
   tree.node "E.e" (b32_lit 40 10) true 2;
   tree.node "D%" (b32_lit 110 10) true 0].

(** The standard genetic code as an [amino_group_table]: the amino acid of
    each codon, by its letter, codons in the order AAA, AAC, AAG, AAT, ACA,
    ..., TTT. *)
Definition standard_code (cod : Z) : Z :=
  match String.get (Z.to_nat cod)
          "KNKNTTTTRSRSIIMIQHQHPPPPRRRRLLLLEDEDAAAAGGGGVVVV*Y*YSSSS*CWCLFLF" with
  | Some c => Z.of_nat (nat_of_ascii c)
  | None => 0
  end.

(** Frequencies: the defaults of COATi, four halves, and a vector whose
    first frequency is the least positive binary32 number. *)
Definition pi_default : list spec_float :=
  [b32_lit 308 1000; b32_lit 185 1000; b32_lit 199 1000; b32_lit 308 1000].

Definition pi_halves : list spec_float :=
  [b32_lit 1 2; b32_lit 1 2; b32_lit 1 2; b32_lit 1 2].

Definition pi_tiny : list spec_float :=
  [S754_finite false 1 (-149); b32_lit 1 4; b32_lit 1 4; b32_lit 1 2].

Definition sigma_zero : list spec_float :=
  [b32_lit 0 1; b32_lit 0 1; b32_lit 0 1; b32_lit 0 1; b32_lit 0 1; b32_lit 0 1].

Definition pi_exact : list xreal :=
  [Fin (308 / 1000); Fin (185 / 1000); Fin (199 / 1000); Fin (308 / 1000)].

(** Every codon goes to every codon with probability 1/64. *)
Definition uniform_matrix : Matrix xreal := fun _ _ => Fin (1 / 64).

(** Pre-aligned pairs: one inserted nucleotide; the pair the test cases
    expect [alignment_score] to refuse; a pair whose second sequence has no
    name. *)
Definition aligned (names seqs : list string) (refs : string) (rev score : bool)
    : align.alignment_t (F:=xreal) :=
  align.mk_aln (align.mk_data names seqs) refs rev score
    (align.mk_gap (Fin (1 / 1000)) (Fin (5 / 6)) 1) pi_exact (Matrixf 192 5).

(** The variables of the scoring loop before the first column. *)
Definition score_start : align.score_state (F:=xreal) := align.mk_score (Fin 0) 0 0.

Definition pair_insertion : align.alignment_t (F:=xreal) :=
  aligned ["A"; "B"] ["-"; "G"] EmptyString false true.

Definition pair_unmodeled : align.alignment_t (F:=xreal) :=
  aligned ["A"; "B"] ["ATAC-GGGTC"; "ATA-GGGGTC"] EmptyString false true.

Definition pair_unnamed : align.alignment_t (F:=xreal) :=
  aligned ["1"; EmptyString] ["CTCTGG"; "CTATAG"] EmptyString false false.

Definition pair_named : align.alignment_t (F:=xreal) :=
  aligned ["1"; "2"] ["CTATAGTG"; "CTCTGGATAGTG"] "2" false false.

(** A pair whose reference has four nucleotides, to be scored and to be
    aligned. *)
Definition pair_ragged : align.alignment_t (F:=xreal) :=
  aligned ["A"; "B"] ["CTCT"; "CTC-"] EmptyString false true.

Definition pair_ragged_unscored : align.alignment_t (F:=xreal) :=
  aligned ["A"; "B"] ["CTCT"; "CTC-"] EmptyString false false.

(** A driver for the examples: the input is the pair it is given, the
    substitution matrix is the one it has, and the aligning tail succeeds. *)
Definition read_given (aln : align.alignment_t (F:=xreal)) : result align.data_t :=
  Ok (align.data aln).

Definition subst_kept (aln : align.alignment_t (F:=xreal))
    : result (align.alignment_t (F:=xreal)) := Ok aln.

Definition write_done (aln : align.alignment_t (F:=xreal)) : result bool := Ok true.

Definition run_driver (aln : align.alignment_t (F:=xreal))
    : result (align.outcome (F:=xreal)) :=
  align.marg_alignment align.simple_encoding write_done read_given subst_kept aln.

(** The tree of the test cases, rerooted at the leaf [A-a]. *)
Definition rerooted_example : list (tree.node_t (F:=spec_float)) :=
  [tree.node EmptyString (b32_lit 50 10) false 2;
   tree.node "B_b" (b32_lit 60 10) true 0;
   tree.node "Ancestor" (b32_of_Z 0) false 2;
   tree.node "A-a" (b32_lit 50 10) true 2;
   tree.node "C/c" (b32_lit 30 10) true 2;
   tree.node "E.e" (b32_lit 40 10) true 2;
   tree.node "D%" (b32_lit 110 10) true 0].

(** [FLT_MAX]. *)
Definition b32_max : spec_float := S754_finite false 16777215 104.

(** The pair [pair_named] with its reference first. *)
Definition pair_named_swapped : align.alignment_t (F:=xreal) :=
  aligned ["2"; "1"] ["CTCTGGATAGTG"; "CTATAGTG"] "2" false false.

(** A pair with an insertion in its fourth column. *)
Definition pair_gapped : align.alignment_t (F:=xreal) :=
  aligned ["A"; "B"] ["CTC-T"; "CTCGT"] EmptyString false true.

(** The weight of its first four columns: three matches and the opening of
    a gap. *)
Definition gapped_weight : xreal :=
  let no_gap := xlog (xsub (Fin 1) (Fin (1 / 1000))) in
  let matched := xadd (xmul (Fin 2) no_gap) (Fin 0) in
  xadd (xadd (xadd (xadd (Fin 0) matched) matched) matched) (xlog (Fin (1 / 1000))).

(** The exchangeabilities of the test case of [gtr_q], in binary32 and as
    reals, and the matrix [gtr_q] makes of the latter. *)
Definition sigma_test : list spec_float :=
  [b32_lit 948973 100000000; b32_lit 39164824 1000000000;
   b32_lit 4318182 1000000000; b32_lit 15438693 1000000000;
   b32_lit 38734091 1000000000; b32_lit 855 100000].

Definition sigma_reals : list R :=
  [948973 / 100000000; 39164824 / 1000000000; 4318182 / 1000000000;
   15438693 / 1000000000; 38734091 / 1000000000; 855 / 100000]%R.

Definition gtr_exact : Matrix xreal :=
  match mutation.gtr_q pi_exact (Fin <$> sigma_reals) with
  | Ok m => m
  | Throw _ => Matrixf 4 4
  end.

(** * Loops and matrices *)

Lemma fold_left_keeps {S A : Type} (G : S -> Prop) (body : S -> A -> S) (l : list A) :
  (forall s a, a ∈ l -> G s -> G (body s a)) ->
  forall s, G s -> G (fold_left body l s).
Proof.
  induction l as [| a l IH]; intros Hkeep s Hs; simpl; [done |].
  apply IH.
  - intros s' a' Ha'. apply Hkeep. by right.
  - apply Hkeep; [by left | done].
Qed.

(** A loop in which some iteration establishes [G] and every iteration
    keeps it, ends with [G]. *)
Lemma fold_left_reaches {S A : Type} (G : S -> Prop) (body : S -> A -> S)
    (l : list A) (a0 : A) :
  (forall s a, a ∈ l -> G s -> G (body s a)) ->
  a0 ∈ l -> (forall s, G (body s a0)) ->
  forall s, G (fold_left body l s).
Proof.
  intros Hkeep Hin Hset s.
  apply list_elem_of_split in Hin as (l1 & l2 & ->).
  rewrite fold_left_app. simpl.
  apply fold_left_keeps; [| apply Hset].
  intros s' a Ha. apply Hkeep. apply elem_of_app. right. by right.
Qed.

Lemma elem_of_range (lo n : nat) (k : Z) :
  k ∈ range lo n <-> Z.of_nat lo <= k < Z.of_nat lo + Z.of_nat n.
Proof.
  unfold range. rewrite list_elem_of_fmap. split.
  - intros (i & -> & Hi). apply elem_of_seq in Hi. lia.
  - intros Hk. exists (Z.to_nat k). split; [lia |]. apply elem_of_seq. lia.
Qed.

Lemma mset_eq {F : Type} (m : Matrix F) r c v : mset m r c v r c = v.
Proof. unfold mset. by rewrite !Z.eqb_refl. Qed.

Lemma mset_ne {F : Type} (m : Matrix F) r c v r' c' :
  (r', c') <> (r, c) -> mset m r c v r' c' = m r' c'.
Proof.
  intros Hne. unfold mset.
  destruct (Z.eqb_spec r' r) as [-> |]; [| done].
  destruct (Z.eqb_spec c' c) as [-> |]; [| done].
  done.
Qed.

Lemma row_decode (cod pos : Z) :
  0 <= pos < 3 -> (cod * 3 + pos) / 3 = cod /\ (cod * 3 + pos) mod 3 = pos.
Proof.
  intros Hpos. split.
  - symmetry. apply Z.div_unique with pos; lia.
  - symmetry. apply Z.mod_unique with cod; lia.
Qed.

(** * Guide trees: walks to the root *)

Section TreeFacts.

Context {F : Type} {FO : FloatOps F}.

#[local] Abbreviation node_t := (tree.node_t (F:=F)).
#[local] Abbreviation tree_t := (list node_t).

Lemma climbs_det (t : tree_t) n l1 l2 :
  tree.climbs t n l1 -> tree.climbs t n l2 -> l1 = l2.
Proof.
  intros H1. revert l2.
  induction H1 as [n nd Hn Hp | n nd l Hn Hp Hc IH]; intros l2 H2;
    inversion H2; subst; simplify_eq; try done.
  f_equal. by apply IH.
Qed.

Lemma climbs_head (t : tree_t) n l : tree.climbs t n l -> exists l', l = n :: l'.
Proof. destruct 1; eauto. Qed.

(** A node met on the way up has its own, shorter, way up. *)
Lemma climbs_onward (t : tree_t) n l m :
  tree.climbs t n l -> m ∈ l ->
  exists l', tree.climbs t m l' /\ (Datatypes.length l' <= Datatypes.length l)%nat.
Proof.
  induction 1 as [n nd Hn Hp | n nd l Hn Hp Hc IH]; intros Hm.
  - apply list_elem_of_singleton in Hm as ->.
    exists [n]. split; [by eapply tree.climbs_root | done].
  - apply elem_of_cons in Hm as [-> | Hm].
    + exists (n :: l). split; [by eapply tree.climbs_step | done].
    + destruct (IH Hm) as (l' & Hl' & Hlen). exists l'. split; [done | simpl; lia].
Qed.

Lemma climbs_NoDup (t : tree_t) n l : tree.climbs t n l -> NoDup l.
Proof.
  induction 1 as [n nd Hn Hp | n nd l Hn Hp Hc IH].
  - apply NoDup_singleton.
  - apply NoDup_cons. split; [| done].
    intros Hin. destruct (climbs_onward _ _ _ _ Hc Hin) as (l' & Hl' & Hlen).
    assert (l' = n :: l) as -> by (eapply climbs_det; [done | by eapply tree.climbs_step]).
    simpl in Hlen. lia.
Qed.

Lemma climbs_in_range (t : tree_t) n l :
  tree.climbs t n l -> Forall (fun i => (i < Datatypes.length t)%nat) l.
Proof.
  induction 1 as [n nd Hn Hp | n nd l Hn Hp Hc IH].
  - apply Forall_singleton. by eapply lookup_lt_Some.
  - apply Forall_cons. split; [by eapply lookup_lt_Some | done].
Qed.

(** No walk is longer than the vector. *)
Lemma climbs_length (t : tree_t) n l :
  tree.climbs t n l -> (Datatypes.length l <= Datatypes.length t)%nat.
Proof.
  intros Hc.
  assert (l ⊆+ seq 0 (Datatypes.length t)) as Hsub.
  { apply NoDup_submseteq; [by eapply climbs_NoDup |].
    intros i Hi. apply elem_of_seq.
    pose proof (climbs_in_range _ _ _ Hc) as Hr.
    rewrite Forall_forall in Hr. specialize (Hr i Hi). lia. }
  apply submseteq_length in Hsub. by rewrite length_seq in Hsub.
Qed.

Lemma ancestors_from_climbs (t : tree_t) n l fuel :
  tree.climbs t n l -> (Datatypes.length l <= fuel)%nat ->
  tree.ancestors_from fuel t n = Some l.
Proof.
  intros Hc. revert fuel.
  induction Hc as [n nd Hn Hp | n nd l Hn Hp Hc IH]; intros [| fuel] Hf;
    simpl in *; try lia.
  - rewrite Hn. simpl. by rewrite Hp, Nat.eqb_refl.
  - rewrite Hn. simpl. apply Nat.eqb_neq in Hp. rewrite Hp.
    rewrite IH by lia. done.
Qed.

Lemma ancestors_from_enough (t : tree_t) n l :
  tree.climbs t n l -> tree.ancestors_from (Datatypes.length t) t n = Some l.
Proof.
  intros Hc. apply ancestors_from_climbs; [done | by eapply climbs_length].
Qed.

Lemma ancestors_from_sound fuel (t : tree_t) n l :
  tree.ancestors_from fuel t n = Some l -> tree.climbs t n l.
Proof.
  revert n l. induction fuel as [| fuel IH]; intros n l; simpl; [done |].
  destruct (t !! n) as [nd |] eqn:Hn; simpl; [| done].
  destruct (Nat.eqb (tree.parent nd) n) eqn:Hp.
  - intros [= <-]. apply Nat.eqb_eq in Hp. by eapply tree.climbs_root.
  - destruct (tree.ancestors_from fuel t (tree.parent nd)) as [l' |] eqn:Hl;
      simpl; [| done].
    intros [= <-]. apply Nat.eqb_neq in Hp. eapply tree.climbs_step; eauto.
Qed.

Lemma distance_up_climbs (t : tree_t) n path fuel (dist : F) :
  tree.climbs t n path -> (Datatypes.length path <= fuel)%nat ->
  is_Some (tree.distance_up fuel t n dist).
Proof.
  intros Hc. revert fuel dist.
  induction Hc as [n nd Hn Hp | n nd l Hn Hp Hc IH]; intros [| fuel] dist Hf;
    simpl in *; try lia.
  - rewrite Hn. simpl. rewrite Hp, Nat.eqb_refl. eauto.
  - rewrite Hn. simpl. apply Nat.eqb_neq in Hp. rewrite Hp. apply IH. lia.
Qed.

(** ** The frame of [reroot] *)

Lemma alter_tags (g : node_t -> node_t) (t : tree_t) i :
  (forall nd, tree.label (g nd) = tree.label nd) ->
  (forall nd, tree.is_leaf (g nd) = tree.is_leaf nd) ->
  tree.same_tags t (alter g i t).
Proof.
  intros Hl Hf. split.
  - rewrite (list_fmap_alter tree.label g (fun s => s)); [by apply list_alter_id |].
    apply Forall_forall. intros nd _. apply Hl.
  - rewrite (list_fmap_alter tree.is_leaf g (fun s => s)); [by apply list_alter_id |].
    apply Forall_forall. intros nd _. apply Hf.
Qed.

Lemma same_tags_refl (t : tree_t) : tree.same_tags t t.
Proof. done. Qed.

Lemma same_tags_trans (t1 t2 t3 : tree_t) :
  tree.same_tags t1 t2 -> tree.same_tags t2 t3 -> tree.same_tags t1 t3.
Proof. intros [? ?] [? ?]. split; congruence. Qed.

Lemma reverse_edge_tags a (t : tree_t) i : tree.same_tags t (tree.reverse_edge a t i).
Proof.
  unfold tree.reverse_edge.
  destruct (a !! i) as [u |]; [| apply same_tags_refl].
  destruct (a !! (i - 1)%nat) as [b |]; [| apply same_tags_refl].
  simpl. destruct (alter (tree.set_parent b) u t !! b) as [nb |].
  - eapply same_tags_trans; by apply alter_tags.
  - by apply alter_tags.
Qed.

Lemma reverse_edge_off a (t : tree_t) i k :
  k ∉ a -> tree.reverse_edge a t i !! k = t !! k.
Proof.
  intros Hk. unfold tree.reverse_edge.
  destruct (a !! i) as [u |] eqn:Hu; [| done].
  destruct (a !! (i - 1)%nat) as [b |]; [| done].
  assert (u <> k) as Hne.
  { intros ->. apply Hk. by eapply list_elem_of_lookup_2. }
  simpl. destruct (alter (tree.set_parent b) u t !! b) as [nb |].
  all: by rewrite !list_lookup_alter_ne by done.
Qed.

Lemma reverse_path_tags a (t : tree_t) : tree.same_tags t (tree.reverse_path a t).
Proof.
  unfold tree.reverse_path.
  generalize (rev (seq 1 (Datatypes.length a - 1))) as idxs.
  intros idxs. revert t. induction idxs as [| i idxs IH]; intros t; simpl.
  - apply same_tags_refl.
  - eapply same_tags_trans; [apply reverse_edge_tags | apply IH].
Qed.

Lemma reverse_path_off a (t : tree_t) k :
  k ∉ a -> tree.reverse_path a t !! k = t !! k.
Proof.
  intros Hk. unfold tree.reverse_path.
  generalize (rev (seq 1 (Datatypes.length a - 1))) as idxs.
  intros idxs. revert t. induction idxs as [| i idxs IH]; intros t; simpl; [done |].
  by rewrite IH, reverse_edge_off.
Qed.

(** C8.  Take a tree, the label of one of its nodes, and the walk [path]
    from that node's parent (the new root) up to the old root.  Then
    [reroot] returns, and in the tree it leaves every node off [path] is
    the node it was (parent index and branch length included), every node
    has the label and the leaf flag it had, and the new root is its own
    parent with branch length 0. *)
Theorem reroot_frame (t : tree_t) (outgroup : string) (ref : nat)
    (leaf : node_t) (path : list nat) :
  tree.find_node t outgroup = Some ref ->
  t !! ref = Some leaf ->
  tree.climbs t (tree.parent leaf) path ->
  exists t' : tree_t,
    tree.reroot t outgroup = Some (Ok t') /\
    (forall k, k ∉ path -> t' !! k = t !! k) /\
    tree.label <$> t' = tree.label <$> t /\
    tree.is_leaf <$> t' = tree.is_leaf <$> t /\
    exists r, t' !! tree.parent leaf = Some r /\
              tree.parent r = tree.parent leaf /\ tree.length r = f_of_Z 0.
Proof.
  intros Hfind Href Hpath.
  unfold tree.reroot, tree.reroot_with. rewrite Hfind, Href. simpl.
  rewrite (ancestors_from_enough _ _ _ Hpath). simpl.
  set (newroot := tree.parent leaf).
  set (t1 := tree.reverse_path path t).
  eexists. split; [reflexivity |].
  assert (newroot ∈ path) as Hin.
  { destruct (climbs_head _ _ _ Hpath) as [l' ->]. apply elem_of_cons. by left. }
  assert (is_Some (t1 !! newroot)) as [x Hx].
  { apply lookup_lt_is_Some.
    destruct (reverse_path_tags path t) as [Hlab _].
    apply (f_equal Datatypes.length) in Hlab. rewrite !length_fmap in Hlab.
    unfold t1. rewrite Hlab.
    pose proof (climbs_in_range _ _ _ Hpath) as Hr.
    rewrite Forall_forall in Hr. by apply Hr. }
  split; [| split; [| split]].
  - intros k Hk.
    assert (newroot <> k) by (intros ->; done).
    rewrite !list_lookup_alter_ne by done. by apply reverse_path_off.
  - eapply same_tags_trans; [apply reverse_path_tags |].
    eapply same_tags_trans; by apply alter_tags.
  - eapply same_tags_trans; [apply reverse_path_tags |].
    eapply same_tags_trans; by apply alter_tags.
  - rewrite !list_lookup_alter_eq. fold t1. rewrite Hx. simpl. eauto.
Qed.

(** ** The order of the nodes of a parsed tree *)

Lemma push_subtree_app n (w val : tree_t) :
  tree.push_subtree n w val = val ++ (tree.shift_parent n <$> w).
Proof.
  unfold tree.push_subtree. revert val.
  induction w as [| nd w IH]; intros val; simpl.
  - by rewrite app_nil_r.
  - rewrite IH. by rewrite <- app_assoc.
Qed.

Lemma attach_app (val w : tree_t) :
  tree.attach val w =
  val ++ alter (tree.set_parent 0) 0%nat
               (tree.shift_parent (Datatypes.length val) <$> w).
Proof.
  unfold tree.attach. rewrite push_subtree_app.
  rewrite <- (Nat.add_0_r (Datatypes.length val)) at 1.
  by rewrite alter_app_r.
Qed.

Lemma make_leaf_order lbl (len : F) : tree.newick_order (tree.make_leaf lbl len).
Proof.
  split.
  - eexists. split; [reflexivity | done].
  - intros [| i] nd Hi; [lia |]. by simpl.
Qed.

Lemma attach_order (val w : tree_t) :
  tree.newick_order val -> tree.newick_order w -> tree.newick_order (tree.attach val w).
Proof.
  intros [(r & Hr & Hpr) Hval] [(r' & Hr' & Hpr') Hw].
  rewrite attach_app.
  assert (0 < Datatypes.length val)%nat as Hpos by (by eapply lookup_lt_Some).
  split.
  - exists r. split; [| done]. by rewrite lookup_app_l.
  - intros i nd Hi Hnd.
    apply lookup_app_Some in Hnd as [Hnd | [Hge Hnd]]; [by eapply Hval |].
    rewrite list_lookup_alter in Hnd. case_decide as Hk.
    + rewrite list_lookup_fmap, Hr' in Hnd. simpl in Hnd.
      injection Hnd as <-. simpl. lia.
    + rewrite list_lookup_fmap in Hnd.
      destruct (w !! (i - Datatypes.length val)%nat) as [u |] eqn:Hu; [| done].
      simpl in Hnd. injection Hnd as <-. simpl.
      assert (tree.parent u < i - Datatypes.length val)%nat
        by (eapply Hw; [lia | done]).
      lia.
Qed.

Lemma make_inode_order (v : list tree_t) lbl (len : F) :
  Forall tree.newick_order v -> tree.newick_order (tree.make_inode v lbl len).
Proof.
  unfold tree.make_inode.
  assert (tree.newick_order [tree.node lbl len false 0]) as Hroot.
  { split; [eexists; split; [reflexivity | done] |].
    intros [| i] nd Hi; [lia |]. by simpl. }
  revert Hroot. generalize [tree.node lbl len false 0] as acc.
  induction v as [| w v IH]; intros acc Hacc Hv; simpl; [done |].
  apply Forall_cons in Hv as [Hw Hv].
  apply IH; [by apply attach_order | done].
Qed.

Variable float_ : list ascii -> option (F * list ascii).

Lemma parse_leaf_order s (t : tree_t) r :
  tree.parse_leaf float_ s = Some (t, r) -> tree.newick_order t.
Proof.
  unfold tree.parse_leaf.
  destruct (tree.parse_label s) as [[lbl s1] |]; [| done].
  destruct (tree.parse_length float_ s1) as [len s2].
  intros [= <- _]. apply make_leaf_order.
Qed.

Lemma parse_more_order n p s (ws : list tree_t) r :
  (forall s' t' r', p s' = Some (t', r') -> tree.newick_order t') ->
  tree.parse_more n p s = (ws, r) -> Forall tree.newick_order ws.
Proof.
  intros Hp. revert s ws r.
  induction n as [| n IH]; intros s ws r; simpl.
  - intros [= <- _]. constructor.
  - destruct s as [| c s1]; [intros [= <- _]; constructor |].
    destruct (Ascii.eqb_spec c ","%char) as [-> | Hc].
    + destruct (p s1) as [[w s2] |] eqn:Hw; [| intros [= <- _]; constructor].
      destruct (tree.parse_more n p s2) as [ws' r'] eqn:Hm.
      intros [= <- _]. constructor; [by eapply Hp | by eapply IH].
    + assert (tree.parse_more (S n) p (c :: s1) = ([], c :: s1)) as Heq.
      { simpl. destruct c as [[] [] [] [] [] [] [] []]; try done. }
      simpl in Heq. rewrite Heq. intros [= <- _]. constructor.
Qed.

Lemma parse_node_order fuel s (t : tree_t) r :
  tree.parse_node float_ fuel s = Some (t, r) -> tree.newick_order t.
Proof.
  revert s t r. induction fuel as [| fuel IH]; intros s t r; simpl; [done |].
  destruct (tree.parse_leaf float_ s) as [[t0 r0] |] eqn:Hleaf.
  - intros [= <- _]. by eapply parse_leaf_order.
  - destruct s as [| c s1]; [done |].
    destruct (Ascii.eqb_spec c "("%char) as [-> | Hc].
    + destruct (tree.parse_node float_ fuel s1) as [[w s2] |] eqn:Hw; [| done].
      destruct (tree.parse_more _ _ s2) as [ws s3] eqn:Hm.
      destruct s3 as [| c3 s4]; [done |].
      destruct (Ascii.eqb_spec c3 ")"%char) as [-> | Hc3].
      * destruct (tree.parse_ilabel s4) as [lbl s5].
        destruct (tree.parse_length float_ s5) as [len s6].
        intros [= <- _]. apply make_inode_order. constructor; [by eapply IH |].
        eapply parse_more_order; [| exact Hm]. intros s' t' r'. apply IH.
      * destruct c3 as [[] [] [] [] [] [] [] []]; try done.
    + destruct c as [[] [] [] [] [] [] [] []]; try done.
Qed.

Lemma parse_newick_order content (t : tree_t) :
  tree.parse_newick float_ content = Some t -> tree.newick_order t.
Proof.
  unfold tree.parse_newick, tree.parse_tree.
  set (s := filter _ _).
  destruct (tree.parse_node float_ _ s) as [[t0 r0] |] eqn:Hn; [| done].
  apply parse_node_order in Hn.
  destruct r0 as [| c r0]; [by intros [= <-] |].
  destruct (Ascii.eqb_spec c ";"%char) as [-> | Hc].
  - destruct r0; [by intros [= <-] | done].
  - destruct c as [[] [] [] [] [] [] [] []]; try done.
Qed.

(** ** The fuel of the parser

    When [float_] consumes a prefix of its input, no rule leaves more input
    than it was given, and the result of [parse_node] and of [parse_more] is
    the same for every fuel above the length of the input: the fuel that
    [parse_tree] gives is never what makes a parse fail. *)

Lemma span_label_consumes s l r :
  tree.span_label s = (l, r) -> (Datatypes.length r <= Datatypes.length s)%nat.
Proof.
  revert l r. induction s as [| c s IH]; intros l r; simpl; [by intros [= _ <-] |].
  destruct (tree.label_char c); [| by intros [= _ <-]].
  destruct (tree.span_label s) as [l' r'].
  intros [= _ <-]. specialize (IH l' r' eq_refl). lia.
Qed.

Lemma parse_label_consumes : tree.consumes tree.parse_label.
Proof.
  intros s lbl r. unfold tree.parse_label.
  destruct (tree.span_label s) as [l r'] eqn:Hspan.
  apply span_label_consumes in Hspan.
  destruct l; [done | by intros [= _ <-]].
Qed.

Lemma parse_ilabel_consumes s lbl r :
  tree.parse_ilabel s = (lbl, r) -> (Datatypes.length r <= Datatypes.length s)%nat.
Proof.
  unfold tree.parse_ilabel.
  destruct (tree.parse_label s) as [[l r'] |] eqn:Hl.
  - intros [= _ <-]. by eapply parse_label_consumes.
  - by intros [= _ <-].
Qed.

Lemma parse_length_consumes s len r :
  tree.consumes float_ ->
  tree.parse_length float_ s = (len, r) -> (Datatypes.length r <= Datatypes.length s)%nat.
Proof.
  intros Hfloat. unfold tree.parse_length.
  destruct s as [| c s1]; [by intros [= _ <-] |].
  destruct (Ascii.eqb_spec c ":"%char) as [-> | Hc].
  - destruct (float_ s1) as [[v r'] |] eqn:Hv; [| by intros [= _ <-]].
    intros [= _ <-]. apply Hfloat in Hv. simpl. lia.
  - intros Heq.
    assert (r = c :: s1) as ->; [| done].
    destruct c as [[] [] [] [] [] [] [] []];
      first [by destruct Hc | by injection Heq as _ <-].
Qed.

Lemma parse_leaf_consumes :
  tree.consumes float_ -> tree.consumes (tree.parse_leaf float_).
Proof.
  intros Hfloat s t r. unfold tree.parse_leaf.
  destruct (tree.parse_label s) as [[lbl s1] |] eqn:Hl; [| done].
  destruct (tree.parse_length float_ s1) as [len s2] eqn:Hlen.
  intros [= _ <-].
  apply parse_label_consumes in Hl. apply parse_length_consumes in Hlen; [lia | done].
Qed.

Lemma parse_more_consumes n (p : list ascii -> option (tree_t * list ascii)) s ws r :
  tree.consumes p ->
  tree.parse_more n p s = (ws, r) -> (Datatypes.length r <= Datatypes.length s)%nat.
Proof.
  intros Hp. revert s ws r.
  induction n as [| n IH]; intros s ws r; simpl; [by intros [= _ <-] |].
  destruct s as [| c s1]; [by intros [= _ <-] |].
  destruct (Ascii.eqb_spec c ","%char) as [-> | Hc].
  - destruct (p s1) as [[w s2] |] eqn:Hw; [| by intros [= _ <-]].
    destruct (tree.parse_more n p s2) as [ws' r'] eqn:Hm.
    intros [= _ <-]. apply Hp in Hw. apply IH in Hm. simpl. lia.
  - intros Heq.
    assert (r = c :: s1) as ->; [| done].
    destruct c as [[] [] [] [] [] [] [] []];
      first [by destruct Hc | by injection Heq as _ <-].
Qed.

Lemma parse_node_consumes fuel :
  tree.consumes float_ -> tree.consumes (tree.parse_node float_ fuel).
Proof.
  intros Hfloat. induction fuel as [| fuel IH]; intros s t r; simpl; [done |].
  destruct (tree.parse_leaf float_ s) as [[t0 r0] |] eqn:Hleaf.
  - intros [= _ <-]. by eapply parse_leaf_consumes.
  - destruct s as [| c s1]; [done |].
    destruct (Ascii.eqb_spec c "("%char) as [-> | Hc].
    + destruct (tree.parse_node float_ fuel s1) as [[w s2] |] eqn:Hw; [| done].
      destruct (tree.parse_more _ _ s2) as [ws s3] eqn:Hm.
      destruct s3 as [| c3 s4]; [done |].
      destruct (Ascii.eqb_spec c3 ")"%char) as [-> | Hc3].
      * destruct (tree.parse_ilabel s4) as [lbl s5] eqn:Hl.
        destruct (tree.parse_length float_ s5) as [len s6] eqn:Hlen.
        intros [= _ <-].
        apply IH in Hw. apply parse_more_consumes in Hm; [| done].
        apply parse_ilabel_consumes in Hl.
        apply parse_length_consumes in Hlen; [| done].
        simpl in *. lia.
      * destruct c3 as [[] [] [] [] [] [] [] []]; try done.
    + destruct c as [[] [] [] [] [] [] [] []]; try done.
Qed.

(** [parse_more] asks its parser only about inputs shorter than its own,
    and stops by itself before its fuel does. *)
Lemma parse_more_fuel n1 n2 (p q : list ascii -> option (tree_t * list ascii)) s :
  tree.consumes p ->
  (forall s', (Datatypes.length s' < Datatypes.length s)%nat -> p s' = q s') ->
  (Datatypes.length s <= n1)%nat -> (Datatypes.length s <= n2)%nat ->
  tree.parse_more n1 p s = tree.parse_more n2 q s.
Proof.
  intros Hp. revert n2 s.
  induction n1 as [| n1 IH]; intros n2 s Hpq Hn1 Hn2.
  - destruct s; [| simpl in Hn1; lia]. by destruct n2.
  - destruct n2 as [| n2]; [destruct s; [done | simpl in Hn2; lia] |].
    destruct s as [| c s1]; [done |].
    destruct (Ascii.eqb_spec c ","%char) as [-> | Hc].
    + simpl. rewrite <- (Hpq s1) by (simpl; lia).
      destruct (p s1) as [[w s2] |] eqn:Hw; [| done].
      apply Hp in Hw. simpl in Hn1, Hn2.
      rewrite (IH n2 s2); [done | | lia | lia].
      intros s' Hs'. apply Hpq. simpl. lia.
    + simpl. destruct c as [[] [] [] [] [] [] [] []]; first [by destruct Hc | done].
Qed.

(** The result of [parse_node] is the same for every fuel above the length
    of the input. *)
Lemma parse_node_fuel f1 f2 s :
  tree.consumes float_ ->
  (Datatypes.length s < f1)%nat -> (Datatypes.length s < f2)%nat ->
  tree.parse_node float_ f1 s = tree.parse_node float_ f2 s.
Proof.
  intros Hfloat. revert f2 s.
  induction f1 as [| f1 IH]; intros f2 s Hf1 Hf2; [lia |].
  destruct f2 as [| f2]; [lia |]. simpl.
  destruct (tree.parse_leaf float_ s) as [[t0 r0] |]; [done |].
  destruct s as [| c s1]; [done |].
  destruct (Ascii.eqb_spec c "("%char) as [-> | Hc].
  - simpl in Hf1, Hf2. rewrite (IH f2 s1) by lia.
    destruct (tree.parse_node float_ f2 s1) as [[w s2] |] eqn:Hw; [| done].
    apply parse_node_consumes in Hw; [| done].
    rewrite (parse_more_fuel (Datatypes.length s2) (Datatypes.length s2)
               (tree.parse_node float_ f1) (tree.parse_node float_ f2) s2);
      [done | by apply parse_node_consumes | | lia | lia].
    intros s' Hs'. apply IH; lia.
  - destruct c as [[] [] [] [] [] [] [] []]; first [by destruct Hc | done].
Qed.

(** In a tree laid out in that order every node climbs to node 0. *)
Lemma newick_order_climbs (t : tree_t) n :
  tree.newick_order t -> (n < Datatypes.length t)%nat ->
  exists path, tree.climbs t n path /\ last path = Some 0%nat.
Proof.
  intros [(r & Hr & Hpr) Hlt]. induction n as [n IH] using lt_wf_ind. intros Hn.
  destruct n as [| n].
  - exists [0%nat]. split; [by eapply tree.climbs_root | done].
  - destruct (lookup_lt_is_Some_2 t (S n) Hn) as [nd Hnd].
    assert (tree.parent nd < S n)%nat as Hp by (eapply Hlt; [lia | done]).
    destruct (IH (tree.parent nd) Hp) as (path & Hc & Hlast); [lia |].
    exists (S n :: path). split.
    + eapply tree.climbs_step; [done | lia | done].
    + destruct (climbs_head _ _ _ Hc) as [l' ->]. by rewrite last_cons_cons.
Qed.

(** C10.  In every tree [parse_newick] produces, node 0 is its own parent
    and every other node has a parent of smaller index; and so, from every
    node, the walk of [reroot] ends at node 0 within the fuel [reroot] gives
    it, and [distance_ref] returns. *)
Theorem parse_newick_rooted (content : string) (t : tree_t) :
  tree.parse_newick float_ content = Some t ->
  (exists r, t !! 0%nat = Some r /\ tree.parent r = 0%nat) /\
  (forall i nd, (0 < i)%nat -> t !! i = Some nd -> (tree.parent nd < i)%nat) /\
  (forall n, (n < Datatypes.length t)%nat ->
     (exists path, tree.ancestors_from (Datatypes.length t) t n = Some path /\
                   last path = Some 0%nat) /\
     (forall ref, (ref < Datatypes.length t)%nat ->
                  is_Some (tree.distance_ref t ref n))).
Proof.
  intros Hparse. pose proof (parse_newick_order _ _ Hparse) as [Hroot Hlt].
  split; [done | split; [done |]].
  intros n Hn.
  destruct (newick_order_climbs t n (conj Hroot Hlt) Hn) as (path & Hc & Hlast).
  split.
  - exists path. split; [by apply ancestors_from_enough | done].
  - intros ref Href. unfold tree.distance_ref.
    destruct (distance_up_climbs t n path (Datatypes.length t) (f_of_Z 0) Hc)
      as [dist ->]; [by eapply climbs_length |].
    destruct (lookup_lt_is_Some_2 t ref Href) as [r ->]. simpl. eauto.
Qed.

End TreeFacts.

(** The numeric parser of the examples consumes a prefix of its input. *)
Lemma span_digits_consumes s ds r :
  span_digits s = (ds, r) -> (Datatypes.length r <= Datatypes.length s)%nat.
Proof.
  revert ds r. induction s as [| c s IH]; intros ds r; simpl; [by intros [= _ <-] |].
  destruct (tree.in_range "0" "9" c); [| by intros [= _ <-]].
  destruct (span_digits s) as [ds' r'].
  intros [= _ <-]. specialize (IH ds' r' eq_refl). lia.
Qed.

Lemma decimal_float_consumes {F : Type} {FO : FloatOps F} :
  tree.consumes (decimal_float (F:=F)).
Proof.
  intros s v r. unfold decimal_float.
  destruct (span_digits s) as [ip s1] eqn:Hip. apply span_digits_consumes in Hip.
  destruct ip as [| d ip]; [done |].
  destruct s1 as [| c s1]; [by intros [= _ <-] |].
  destruct (Ascii.eqb_spec c "."%char) as [-> | Hc].
  - destruct (span_digits s1) as [fp s2] eqn:Hfp. apply span_digits_consumes in Hfp.
    destruct fp; intros [= _ <-]; simpl in *; lia.
  - intros Heq.
    assert (r = c :: s1) as ->; [| done].
    destruct c as [[] [] [] [] [] [] [] []];
      first [by destruct Hc | by injection Heq as _ <-].
Qed.

(** [reroot_frame] at the tree of the test cases, rerooted at the leaf
    [A-a], whose parent is node 2. *)
Lemma reroot_frame_witness :
  tree.find_node newick_example "A-a" = Some 3%nat /\
  newick_example !! 3%nat = Some (tree.node "A-a" (b32_lit 50 10) true 2) /\
  tree.climbs newick_example 2 [2%nat; 0%nat] /\
  exists t' : list (tree.node_t (F:=spec_float)),
    tree.reroot newick_example "A-a" = Some (Ok t') /\
    (forall k, k ∉ [2%nat; 0%nat] -> t' !! k = newick_example !! k) /\
    tree.label <$> t' = tree.label <$> newick_example /\
    tree.is_leaf <$> t' = tree.is_leaf <$> newick_example /\
    exists r, t' !! 2%nat = Some r /\
              tree.parent r = 2%nat /\ tree.length r = f_of_Z 0.
Proof.
  assert (tree.climbs newick_example 2 [2%nat; 0%nat]) as Hclimbs.
  { eapply tree.climbs_step; [reflexivity | simpl; lia |].
    eapply tree.climbs_root; reflexivity. }
  split; [reflexivity | split; [reflexivity | split; [exact Hclimbs |]]].
  apply (reroot_frame newick_example "A-a" 3
           (tree.node "A-a" (b32_lit 50 10) true 2) [2%nat; 0%nat]);
    [reflexivity | reflexivity | exact Hclimbs].
Defined.

(** [parse_newick_rooted] at the tree of the test cases. *)
Lemma parse_newick_rooted_witness :
  tree.parse_newick decimal_float newick_text = Some newick_example /\
  (exists r, newick_example !! 0%nat = Some r /\ tree.parent r = 0%nat) /\
  (forall i nd, (0 < i)%nat -> newick_example !! i = Some nd ->
                (tree.parent nd < i)%nat) /\
  (forall n, (n < Datatypes.length newick_example)%nat ->
     (exists path,
        tree.ancestors_from (Datatypes.length newick_example) newick_example n =
        Some path /\ last path = Some 0%nat) /\
     (forall ref, (ref < Datatypes.length newick_example)%nat ->
                  is_Some (tree.distance_ref newick_example ref n))).
Proof.
  split; [vm_compute; reflexivity |].
  apply (parse_newick_rooted decimal_float newick_text newick_example).
  vm_compute. reflexivity.
Defined.

(** * The driver: reference order and scoring *)

Section AlignFacts.

Context {F : Type} {FO : FloatOps F} {LM : Libm F}.

Variable marginal_seq_encoding : string -> string -> result (list Z * list Z).

#[local] Abbreviation alignment_t := (align.alignment_t (F:=F)).
#[local] Abbreviation score_column := (align.score_column (F:=F)).
#[local] Abbreviation score_columns := (align.score_columns (F:=F)).
#[local] Abbreviation alignment_score := (align.alignment_score marginal_seq_encoding).

(** ** [order_ref] *)

Lemma order_ref_first (aln : alignment_t) :
  align.str_at (align.names (align.data aln)) 0 = align.refs aln ->
  align.order_ref aln = Ok aln.
Proof using Type. intros Heq. unfold align.order_ref. by rewrite Heq, String.eqb_refl. Qed.

Lemma order_ref_second (aln : alignment_t) :
  align.str_at (align.names (align.data aln)) 0 <> align.refs aln ->
  align.str_at (align.names (align.data aln)) 1 = align.refs aln ->
  align.order_ref aln = Ok (align.set_data aln (align.swap_data (align.data aln))).
Proof using Type.
  intros Hne Heq. unfold align.order_ref.
  apply String.eqb_neq in Hne. by rewrite Hne, Heq, String.eqb_refl.
Qed.

Lemma order_ref_rev (aln : alignment_t) :
  align.str_at (align.names (align.data aln)) 0 <> align.refs aln ->
  align.str_at (align.names (align.data aln)) 1 <> align.refs aln ->
  align.rev aln = true ->
  align.order_ref aln = Ok (align.set_data aln (align.swap_data (align.data aln))).
Proof using Type.
  intros Hn0 Hn1 Hrev. unfold align.order_ref.
  apply String.eqb_neq in Hn0, Hn1. by rewrite Hn0, Hn1, Hrev.
Qed.

Lemma order_ref_not_found (aln : alignment_t) :
  align.str_at (align.names (align.data aln)) 0 <> align.refs aln ->
  align.str_at (align.names (align.data aln)) 1 <> align.refs aln ->
  align.rev aln = false ->
  align.order_ref aln =
  Throw (invalid_argument "Name of reference sequence not found.").
Proof using Type.
  intros Hn0 Hn1 Hrev. unfold align.order_ref.
  apply String.eqb_neq in Hn0, Hn1. by rewrite Hn0, Hn1, Hrev.
Qed.

(** C7, as amended.  For an input of two sequences, the step of the driver
    that orders the pair leaves it unchanged when [refs] is the first name;
    swaps names and sequences when [refs] is the second name and not the
    first, provided [refs] is not empty or [rev] is set; swaps them when
    [refs] is neither name and [rev] is set; and throws
    [invalid_argument], the reference not being found, when [refs] is not
    empty, is neither name, and [rev] is not set. *)
Theorem set_reference_cases (aln : alignment_t) (n0 n1 s0 s1 : string) :
  align.names (align.data aln) = [n0; n1] ->
  align.seqs (align.data aln) = [s0; s1] ->
  let swapped := align.set_data aln (align.mk_data [n1; n0] [s1; s0]) in
  (align.refs aln = n0 -> align.set_reference aln = Ok aln) /\
  (align.refs aln <> n0 -> align.refs aln = n1 ->
   align.refs aln <> EmptyString \/ align.rev aln = true ->
   align.set_reference aln = Ok swapped) /\
  (align.refs aln <> n0 -> align.refs aln <> n1 -> align.rev aln = true ->
   align.set_reference aln = Ok swapped) /\
  (align.refs aln <> EmptyString -> align.refs aln <> n0 -> align.refs aln <> n1 ->
   align.rev aln = false ->
   align.set_reference aln =
   Throw (invalid_argument "Name of reference sequence not found.")).
Proof using Type.
  intros Hn Hs swapped.
  assert (align.set_data aln (align.swap_data (align.data aln)) = swapped) as Hsw.
  { unfold swapped, align.swap_data. by rewrite Hn, Hs. }
  unfold align.set_reference.
  repeat split.
  - intros Hr.
    rewrite order_ref_first
      by (unfold align.str_at; rewrite Hn; simpl; congruence).
    by destruct (negb _ || _).
  - intros Hn0 Hn1 Hreq.
    assert (negb (String.eqb (align.refs aln) EmptyString) || align.rev aln = true)
      as ->.
    { destruct Hreq as [Hne | ->]; [| by rewrite orb_true_r].
      apply String.eqb_neq in Hne. by rewrite Hne. }
    rewrite order_ref_second; [by rewrite Hsw | |];
      unfold align.str_at; rewrite Hn; simpl; congruence.
  - intros Hn0 Hn1 Hrev. rewrite Hrev, orb_true_r.
    rewrite order_ref_rev; [by rewrite Hsw | | | done];
      unfold align.str_at; rewrite Hn; simpl; congruence.
  - intros Hne Hn0 Hn1 Hrev. apply String.eqb_neq in Hne. rewrite Hne. simpl.
    rewrite order_ref_not_found; [done | | | done];
      unfold align.str_at; rewrite Hn; simpl; congruence.
Qed.

(** ** The scoring loop *)

Lemma column_state_cases (aln : alignment_t) i :
  (align.column_state aln i = 2 /\ align.insertion_column aln i = true /\
   align.deletion_column aln i = false) \/
  (align.column_state aln i = 1 /\ align.insertion_column aln i = false /\
   align.deletion_column aln i = true) \/
  (align.column_state aln i = 0 /\ align.insertion_column aln i = false /\
   align.deletion_column aln i = false).
Proof using Type.
  unfold align.column_state, align.deletion_column, align.insertion_column.
  destruct (align.is_gap (align.char_at (align.str_at (align.seqs (align.data aln)) 0) i));
    destruct (align.is_gap (align.char_at (align.str_at (align.seqs (align.data aln)) 1) i));
    simpl; tauto.
Qed.

(** One column: the loop throws in the deletion state at an insertion
    column, and otherwise goes to the state the column stands for. *)
Lemma score_column_step (aln : alignment_t) p_marg sp st i :
  align.state st = 0 \/ align.state st = 1 \/ align.state st = 2 ->
  if (align.state st =? 1) && align.insertion_column aln i
  then score_column aln p_marg sp st i = Throw align.unmodeled
  else exists st', score_column aln p_marg sp st i = Ok st' /\
                   align.state st' = align.column_state aln i.
Proof using Type.
  intros Hst. unfold align.score_column, align.column_state,
    align.insertion_column, align.deletion_column.
  destruct (align.is_gap (align.char_at (align.str_at (align.seqs (align.data aln)) 0) i));
    destruct (align.is_gap (align.char_at (align.str_at (align.seqs (align.data aln)) 1) i));
    destruct Hst as [-> | [-> | ->]]; simpl; eauto.
Qed.

Lemma score_columns_snoc (aln : alignment_t) p_marg sp cols i st :
  score_columns aln p_marg sp (cols ++ [i]) st =
  (st' ← score_columns aln p_marg sp cols st; score_column aln p_marg sp st' i).
Proof using Type. unfold align.score_columns. by rewrite fold_left_app. Qed.

Lemma insertion_after_deletion_S (aln : alignment_t) n :
  align.insertion_after_deletion aln (S (S n)) =
  align.insertion_after_deletion aln (S n) ||
  (align.deletion_column aln n && align.insertion_column aln (S n)).
Proof using Type.
  unfold align.insertion_after_deletion.
  replace (S (S n) - 1)%nat with (S n) by lia.
  replace (S n - 1)%nat with n by lia.
  rewrite seq_S, existsb_app. simpl. by rewrite orb_false_r.
Qed.

(** The loop over the first [n] columns, by induction on [n]. *)
Lemma score_columns_prefix (aln : alignment_t) p_marg sp n w0 :
  if align.insertion_after_deletion aln n
  then score_columns aln p_marg sp (seq 0 n) (align.mk_score w0 0 0) =
       Throw align.unmodeled
  else exists st,
       score_columns aln p_marg sp (seq 0 n) (align.mk_score w0 0 0) = Ok st /\
       align.state st = match n with
                        | O => 0
                        | S k => align.column_state aln k
                        end.
Proof using Type.
  induction n as [| n IH].
  - simpl. eauto.
  - rewrite seq_S, score_columns_snoc. simpl.
    destruct n as [| n].
    + change (align.insertion_after_deletion aln 1) with false.
      change (align.insertion_after_deletion aln 0) with false in IH.
      destruct IH as (st & -> & Hst). simpl.
      pose proof (score_column_step aln p_marg sp st 0%nat) as Hstep.
      rewrite Hst in Hstep. simpl in Hstep. apply Hstep. by left.
    + rewrite insertion_after_deletion_S.
      destruct (align.insertion_after_deletion aln (S n)).
      * by rewrite IH.
      * destruct IH as (st & -> & Hst). simpl.
        pose proof (score_column_step aln p_marg sp st (S n)) as Hstep.
        rewrite Hst in Hstep.
        destruct (column_state_cases aln n)
          as [(Hc & Hi & Hd) | [(Hc & Hi & Hd) | (Hc & Hi & Hd)]];
          rewrite Hc in Hstep; rewrite Hd; simpl in *; apply Hstep; tauto.
Qed.

Lemma score_columns_outcome (aln : alignment_t) p_marg sp n w0 :
  score_columns aln p_marg sp (seq 0 n) (align.mk_score w0 0 0) =
    Throw align.unmodeled \/
  exists st, score_columns aln p_marg sp (seq 0 n) (align.mk_score w0 0 0) = Ok st.
Proof using Type.
  pose proof (score_columns_prefix aln p_marg sp n w0) as Hloop.
  destruct (align.insertion_after_deletion aln n); [by left |].
  destruct Hloop as (st & Hst & _). eauto.
Qed.

(** Where no column has two gaps, a gap in the descendant is a deletion. *)
Lemma insertion_after_gap_proper (aln : alignment_t) n :
  align.proper_columns aln n = true ->
  align.insertion_after_gap aln n = align.insertion_after_deletion aln n.
Proof using Type.
  intros Hproper. unfold align.proper_columns in Hproper.
  rewrite forallb_forall in Hproper.
  unfold align.insertion_after_gap, align.insertion_after_deletion.
  assert (forall i, In i (seq 0 (n - 1)) ->
            align.is_gap (align.char_at (align.str_at (align.seqs (align.data aln)) 1) i) =
            align.deletion_column aln i) as Hsame.
  { intros i Hi. apply in_seq in Hi.
    assert (In i (seq 0 n)) as Hin by (apply in_seq; lia).
    specialize (Hproper i Hin). unfold align.deletion_column.
    destruct (align.is_gap (align.char_at (align.str_at (align.seqs (align.data aln)) 0) i));
      destruct (align.is_gap (align.char_at (align.str_at (align.seqs (align.data aln)) 1) i));
      done. }
  revert Hsame. generalize (seq 0 (n - 1)) as l.
  induction l as [| i l IH]; intros Hsame; simpl; [done |].
  rewrite Hsame by (by left). f_equal. apply IH. intros k Hk. apply Hsame. by right.
Qed.


Variable align_and_write : alignment_t -> result bool.
Variable read_input : alignment_t -> result align.data_t.
Variable set_subst : alignment_t -> result alignment_t.

#[local] Abbreviation marg_alignment :=
  (align.marg_alignment marginal_seq_encoding align_and_write read_input set_subst).

(** C9.  When the input is read, has two sequences, the substitution
    matrix is set, the pair is ordered and the score flag is on,
    [marg_alignment] is [alignment_score] followed by a return: the checks
    of the lengths against 3 and the gap unit, and all that follows them,
    are not run.  If the two strings differ in length it throws the
    equal-length error; if they have equal length and can be encoded, it
    throws the insertion-after-deletion error or returns a score, whatever
    the lengths are. *)
Theorem score_skips_length_checks (aln : alignment_t) (dt : align.data_t)
    (aln1 aln2 : alignment_t) :
  read_input aln = Ok dt ->
  Datatypes.length (align.names dt) = 2%nat ->
  set_subst (align.set_data aln dt) = Ok aln1 ->
  align.set_reference aln1 = Ok aln2 ->
  align.score aln2 = true ->
  let s0 := align.str_at (align.seqs (align.data aln2)) 0 in
  let s1 := align.str_at (align.seqs (align.data aln2)) 1 in
  marg_alignment aln =
    (w ← alignment_score aln2 (align.subst_matrix aln2); Ok (align.Scored w)) /\
  (String.length s0 <> String.length s1 ->
   marg_alignment aln =
   Throw (invalid_argument
            "For alignment scoring both sequences must have equal length.")) /\
  (String.length s0 = String.length s1 ->
   forall seq_pair,
     marginal_seq_encoding (align.erase_gaps s0) s1 = Ok seq_pair ->
     marg_alignment aln = Throw align.unmodeled \/
     exists w, marg_alignment aln = Ok (align.Scored w)).
Proof using Type.
  intros Hread Htwo Hsubst Href Hscore s0 s1.
  assert (marg_alignment aln =
          (w ← alignment_score aln2 (align.subst_matrix aln2); Ok (align.Scored w)))
    as Hrun.
  { unfold align.marg_alignment. rewrite Hread. simpl.
    rewrite Htwo. simpl. rewrite Hsubst. simpl. rewrite Href. simpl.
    by rewrite Hscore. }
  split; [done | split].
  - intros Hne. rewrite Hrun. unfold align.alignment_score. fold s0 s1.
    apply Nat.eqb_neq in Hne. by rewrite Hne.
  - intros Heq seq_pair Henc. rewrite Hrun. unfold align.alignment_score.
    fold s0 s1. rewrite Heq, Nat.eqb_refl. simpl. rewrite Henc. simpl.
    destruct (score_columns_outcome aln2 (align.subst_matrix aln2) seq_pair
                (String.length s1) (f_lit 0 1)) as [-> | [st ->]]; [by left |].
    right. simpl.
    destruct (align.state st =? 0); [eauto |].
    destruct (align.state st =? 2); eauto.
Qed.

(** C1, as amended.  At an insertion column the scoring loop adds to the
    weight the gap-open weight [log g] when it comes from the match state,
    and the gap-extend weight [log e] when it comes from the insertion
    state, and nothing else; and the weight [alignment_score] returns does
    not depend on the frequencies [pi]. *)
Theorem insertion_weight (aln : alignment_t) (p_marg : Matrix F)
    (seq_pair : list Z * list Z) (st : align.score_state) (i : nat) :
  align.insertion_column aln i = true ->
  (align.state st = 0 ->
   score_column aln p_marg seq_pair st i =
   Ok (align.mk_score
         (fadd (align.weight st) (align.from_linearf (align.open (align.gap aln))))
         2 (align.ngap st + 1))) /\
  (align.state st = 2 ->
   score_column aln p_marg seq_pair st i =
   Ok (align.mk_score
         (fadd (align.weight st) (align.from_linearf (align.extend (align.gap aln))))
         2 (align.ngap st + 1))) /\
  (forall freqs,
     alignment_score (align.set_pi aln freqs) p_marg = alignment_score aln p_marg).
Proof using Type.
  intros Hins. unfold align.insertion_column in Hins.
  split; [| split].
  - intros Hst. unfold align.score_column. by rewrite Hst, Hins.
  - intros Hst. unfold align.score_column. by rewrite Hst, Hins.
  - intros freqs. reflexivity.
Qed.

End AlignFacts.

(** ** The driver at the example pairs *)

(** C7 as the specification states it fails where the second sequence has
    no name and no reference is asked for: [refs], being empty, equals the
    second name and not the first, and the pair is not swapped, because the
    driver calls [order_ref] only when [refs] is not empty or [rev] is
    set. *)
Lemma set_reference_unnamed :
  ~ (forall (aln : align.alignment_t (F:=xreal)) (n0 n1 s0 s1 : string),
       align.names (align.data aln) = [n0; n1] ->
       align.seqs (align.data aln) = [s0; s1] ->
       let swapped := align.set_data aln (align.mk_data [n1; n0] [s1; s0]) in
       (align.refs aln = n0 -> align.set_reference aln = Ok aln) /\
       (align.refs aln <> n0 -> align.refs aln = n1 ->
        align.set_reference aln = Ok swapped) /\
       (align.refs aln <> n0 -> align.refs aln <> n1 -> align.rev aln = true ->
        align.set_reference aln = Ok swapped) /\
       (align.refs aln <> EmptyString -> align.refs aln <> n0 ->
        align.refs aln <> n1 -> align.rev aln = false ->
        align.set_reference aln =
        Throw (invalid_argument "Name of reference sequence not found."))).
Proof.
  intros Hclaim.
  destruct (Hclaim pair_unnamed "1" EmptyString "CTCTGG" "CTATAG" eq_refl eq_refl)
    as (_ & Hsecond & _).
  assert (align.set_reference pair_unnamed = Ok pair_unnamed) as Hkept
    by reflexivity.
  rewrite Hkept in Hsecond.
  assert (Ok pair_unnamed =
          Ok (align.set_data pair_unnamed
                (align.mk_data [EmptyString; "1"] ["CTATAG"; "CTCTGG"]))) as Heq
    by (apply Hsecond; [discriminate | reflexivity]).
  discriminate Heq.
Qed.

(** [set_reference_cases] where the reference is the second of two named
    sequences. *)
Lemma set_reference_cases_witness :
  align.names (align.data pair_named) = ["1"; "2"] /\
  align.seqs (align.data pair_named) = ["CTATAGTG"; "CTCTGGATAGTG"] /\
  let swapped :=
    align.set_data pair_named
      (align.mk_data ["2"; "1"] ["CTCTGGATAGTG"; "CTATAGTG"]) in
  (align.refs pair_named = "1" -> align.set_reference pair_named = Ok pair_named) /\
  (align.refs pair_named <> "1" -> align.refs pair_named = "2" ->
   align.refs pair_named <> EmptyString \/ align.rev pair_named = true ->
   align.set_reference pair_named = Ok swapped) /\
  (align.refs pair_named <> "1" -> align.refs pair_named <> "2" ->
   align.rev pair_named = true ->
   align.set_reference pair_named = Ok swapped) /\
  (align.refs pair_named <> EmptyString -> align.refs pair_named <> "1" ->
   align.refs pair_named <> "2" -> align.rev pair_named = false ->
   align.set_reference pair_named =
   Throw (invalid_argument "Name of reference sequence not found.")).
Proof.
  split; [reflexivity | split; [reflexivity |]].
  apply (set_reference_cases pair_named "1" "2" "CTATAGTG" "CTCTGGATAGTG");
    reflexivity.
Defined.


(** [score_skips_length_checks] at a pair whose reference has four
    nucleotides. *)
Lemma score_skips_length_checks_witness :
  read_given pair_ragged = Ok (align.data pair_ragged) /\
  Datatypes.length (align.names (align.data pair_ragged)) = 2%nat /\
  subst_kept (align.set_data pair_ragged (align.data pair_ragged)) = Ok pair_ragged /\
  align.set_reference pair_ragged = Ok pair_ragged /\
  align.score pair_ragged = true /\
  run_driver pair_ragged =
    (w ← align.alignment_score align.simple_encoding pair_ragged
           (align.subst_matrix pair_ragged);
     Ok (align.Scored w)) /\
  (String.length "CTCT" <> String.length "CTC-" ->
   run_driver pair_ragged =
   Throw (invalid_argument
            "For alignment scoring both sequences must have equal length.")) /\
  (String.length "CTCT" = String.length "CTC-" ->
   forall seq_pair,
     align.simple_encoding (align.erase_gaps "CTCT") "CTC-" = Ok seq_pair ->
     run_driver pair_ragged = Throw align.unmodeled \/
     exists w, run_driver pair_ragged = Ok (align.Scored w)).
Proof.
  repeat (split; [reflexivity |]).
  apply (score_skips_length_checks align.simple_encoding write_done
           read_given subst_kept pair_ragged (align.data pair_ragged)
           pair_ragged pair_ragged); reflexivity.
Defined.

(** That pair is scored when the score flag is on, and refused for the
    length of its reference when the flag is off. *)
Lemma pair_ragged_scored : exists w, run_driver pair_ragged = Ok (align.Scored w).
Proof. eexists. reflexivity. Qed.

Lemma pair_ragged_refused :
  run_driver pair_ragged_unscored =
  Throw (invalid_argument "Length of reference sequence must be multiple of 3.").
Proof. reflexivity. Qed.

(** C1 as the specification states it fails at the pair whose one column
    is an insertion of G: in exact arithmetic the code returns
    [log g + log (1 - e)], and with the emission of the specification the
    weight would be less by [- log pi_G]. *)
Lemma insertion_emits_nothing :
  ~ (forall (marginal_seq_encoding : string -> string -> result (list Z * list Z))
            (aln : align.alignment_t (F:=xreal)) (p_marg : Matrix xreal),
       align.alignment_score marginal_seq_encoding aln p_marg =
       align.spec_alignment_score marginal_seq_encoding aln p_marg).
Proof.
  intros Hclaim.
  specialize (Hclaim align.simple_encoding pair_insertion (Matrixf 192 5)).
  unfold align.alignment_score, align.spec_alignment_score in Hclaim.
  simpl in Hclaim.
  unfold align.from_linearf, align.from_linear_1mf, align.spec_emitI in Hclaim.
  simpl in Hclaim.
  decide_reals.
  simpl in Hclaim. injection Hclaim as Heq.
  assert (ln (199 / 1000) <> 0)%R as Hln by (apply ln_neq_0; lra).
  lra.
Qed.

(** [insertion_weight] at that pair. *)
Lemma insertion_weight_witness :
  align.insertion_column pair_insertion 0 = true /\
  (align.state score_start = 0 ->
   align.score_column pair_insertion (Matrixf 192 5) ([], [2])
     score_start 0 =
   Ok (align.mk_score
         (fadd (align.weight score_start)
               (align.from_linearf (align.open (align.gap pair_insertion))))
         2 (align.ngap score_start + 1))) /\
  (align.state score_start = 2 ->
   align.score_column pair_insertion (Matrixf 192 5) ([], [2])
     score_start 0 =
   Ok (align.mk_score
         (fadd (align.weight score_start)
               (align.from_linearf (align.extend (align.gap pair_insertion))))
         2 (align.ngap score_start + 1))) /\
  (forall freqs,
     align.alignment_score align.simple_encoding
       (align.set_pi pair_insertion freqs) (Matrixf 192 5) =
     align.alignment_score align.simple_encoding pair_insertion (Matrixf 192 5)).
Proof.
  split; [reflexivity |].
  apply (insertion_weight align.simple_encoding pair_insertion (Matrixf 192 5)
           ([], [2]) score_start 0%nat).
  reflexivity.
Defined.

(** * Substitution matrices *)

Lemma masks_agree_all :
  forallb (fun i => forallb (mutation.masks_agree i) (range 0 64)) (range 0 64) = true.
Proof. vm_compute. reflexivity. Qed.

Lemma masks_agree_codons (i j : Z) :
  0 <= i < 64 -> 0 <= j < 64 -> mutation.masks_agree i j = true.
Proof.
  intros Hi Hj. pose proof masks_agree_all as Hall.
  rewrite forallb_forall in Hall.
  specialize (Hall i). rewrite forallb_forall in Hall.
  apply Hall; apply list_elem_of_In, (elem_of_range 0 64); lia.
Qed.

Lemma nuc_at_bounds (pos i : Z) :
  0 <= pos < 3 -> 0 <= i < 64 -> 0 <= mutation.nuc_at pos i < 4.
Proof.
  intros Hpos Hi. pose proof (masks_agree_codons i i Hi Hi) as Hm.
  unfold mutation.masks_agree in Hm.
  repeat (apply andb_prop in Hm as [Hm ?]).
  assert (pos = 0 \/ pos = 1 \/ pos = 2) as [-> | [-> | ->]] by lia; lia.
Qed.

(** At distance 1 the codons differ at [diff_pos] and nowhere else. *)
Lemma diff_pos_single (i j : Z) :
  mutation.cod_distance i j = 1 ->
  0 <= mutation.diff_pos i j < 3 /\
  mutation.nuc_at (mutation.diff_pos i j) i <> mutation.nuc_at (mutation.diff_pos i j) j /\
  forall pos, 0 <= pos < 3 -> pos <> mutation.diff_pos i j ->
              mutation.nuc_at pos i = mutation.nuc_at pos j.
Proof.
  unfold mutation.cod_distance, mutation.diff_pos.
  destruct (Z.eqb_spec (mutation.nuc_at 0 i) (mutation.nuc_at 0 j)) as [H0 | H0];
    destruct (Z.eqb_spec (mutation.nuc_at 1 i) (mutation.nuc_at 1 j)) as [H1 | H1];
    destruct (Z.eqb_spec (mutation.nuc_at 2 i) (mutation.nuc_at 2 j)) as [H2 | H2];
    simpl; intros Hd; try lia;
    (split; [lia | split; [done |]]);
    intros pos Hpos Hne;
    assert (pos = 0 \/ pos = 1 \/ pos = 2) as [-> | [-> | ->]] by lia;
    done.
Qed.

Section MutationFacts.

Context {F : Type} {FO : FloatOps F} {LM : Libm F}.

(** ** The entries of [marginal_p] *)

Lemma marginal_entry_at (P : Matrix F) (pi : list F) (cod pos nuc : Z) :
  0 <= pos < 3 ->
  mutation.marginal_entry P pi (cod * 3 + pos) nuc =
  logf (fdiv (mutation.marg_sum P cod pos nuc) (vec_at pi nuc)).
Proof using Type.
  intros Hpos. unfold mutation.marginal_entry.
  by destruct (row_decode cod pos Hpos) as [-> ->].
Qed.

(** Every assignment of the three loops writes the entry that is final for
    its cell, so a cell once written keeps its value. *)
Lemma marginal_p_entry (P : Matrix F) (pi : list F) (cod pos nuc : Z) :
  0 <= cod < 64 -> 0 <= pos < 3 -> 0 <= nuc < 4 ->
  mutation.marginal_p P pi (cod * 3 + pos) nuc =
  logf (fdiv (mutation.marg_sum P cod pos nuc) (vec_at pi nuc)).
Proof using Type.
  intros Hcod Hpos Hnuc.
  rewrite <- marginal_entry_at by done.
  set (r := cod * 3 + pos).
  pose (G := fun p : Matrix F => p r nuc = mutation.marginal_entry P pi r nuc).
  assert (forall (p : Matrix F) cod' pos' nuc',
            0 <= pos' < 3 -> G p ->
            G (mset p (cod' * 3 + pos') nuc'
                 (logf (fdiv (mutation.marg_sum P cod' pos' nuc') (vec_at pi nuc')))))
    as Hwrite.
  { intros p cod' pos' nuc' Hpos' Hp. unfold G.
    destruct (decide ((r, nuc) = (cod' * 3 + pos', nuc'))) as [[= Hr Hn] | Hne].
    - rewrite Hr, Hn, mset_eq. by rewrite marginal_entry_at.
    - by rewrite mset_ne. }
  unfold mutation.marginal_p.
  apply (fold_left_reaches G _ _ cod).
  - intros p cod' _ Hp. apply fold_left_keeps; [| done].
    intros p1 pos' Hpos' Hp1. apply fold_left_keeps; [| done].
    intros p2 nuc' _ Hp2. apply Hwrite; [| done]. by apply (elem_of_range 0 3).
  - by apply (elem_of_range 0 64).
  - intros p. apply (fold_left_reaches G _ _ pos).
    + intros p1 pos' Hpos' Hp1. apply fold_left_keeps; [| done].
      intros p2 nuc' _ Hp2. apply Hwrite; [| done]. by apply (elem_of_range 0 3).
    + by apply (elem_of_range 0 3).
    + intros p1. apply (fold_left_reaches G _ _ nuc).
      * intros p2 nuc' _ Hp2. by apply Hwrite.
      * by apply (elem_of_range 0 4).
      * intros p2. unfold G, r. rewrite mset_eq. by rewrite marginal_entry_at.
Qed.

Lemma marginal_row_sum_terms (p : Matrix F) (pi : list F) (cod pos : Z) :
  mutation.marginal_row_sum p pi cod pos =
  fadd (fadd (fadd (fadd (f_lit 0 1)
                         (fmul (expf (p (cod * 3 + pos) 0)) (vec_at pi 0)))
                   (fmul (expf (p (cod * 3 + pos) 1)) (vec_at pi 1)))
             (fmul (expf (p (cod * 3 + pos) 2)) (vec_at pi 2)))
       (fmul (expf (p (cod * 3 + pos) 3)) (vec_at pi 3)).
Proof using Type. reflexivity. Qed.

(** ** The rate matrix of [mg94_p] *)

Variable amino_group_table : Z -> Z.

#[local] Abbreviation mg94_cell := (mutation.mg94_cell amino_group_table).
#[local] Abbreviation mg94_row := (mutation.mg94_row amino_group_table).
#[local] Abbreviation mg94_q := (mutation.mg94_q amino_group_table).
#[local] Abbreviation rate_entry := (mutation.rate_entry amino_group_table).

Lemma mg94_cell_frame omega nuc_q i st j r c :
  (r, c) <> (i, j) ->
  mutation.Q (mg94_cell omega nuc_q i st j) r c = mutation.Q st r c.
Proof using Type.
  intros Hne. unfold mutation.mg94_cell.
  destruct (i =? j); simpl; [by rewrite mset_ne |].
  destruct (1 <? mutation.cod_distance i j); simpl; [by rewrite mset_ne |].
  destruct (negb (Z.land i 48 =? Z.land j 48)); simpl; [by rewrite mset_ne |].
  destruct (negb (Z.land i 12 =? Z.land j 12)); simpl; [by rewrite mset_ne |].
  destruct (negb (Z.land i 3 =? Z.land j 3)); simpl; by rewrite mset_ne.
Qed.

(** Off the diagonal one of the three masks tells the codons apart, so the
    bases [x] and [y] are set afresh and the cell gets [rate_entry]. *)
Lemma mg94_cell_entry omega nuc_q i st j :
  0 <= i < 64 -> 0 <= j < 64 -> i <> j ->
  mutation.Q (mg94_cell omega nuc_q i st j) i j = rate_entry omega nuc_q i j.
Proof using Type.
  intros Hi Hj Hne. pose proof (masks_agree_codons i j Hi Hj) as Hm.
  unfold mutation.masks_agree in Hm.
  unfold mutation.mg94_cell, mutation.rate_entry, mutation.diff_pos.
  apply Z.eqb_neq in Hne. rewrite Hne in *.
  destruct (1 <? mutation.cod_distance i j); [simpl; by rewrite mset_eq |].
  set (m0 := Z.land i 48 =? Z.land j 48) in *.
  set (m1 := Z.land i 12 =? Z.land j 12) in *.
  set (m2 := Z.land i 3 =? Z.land j 3) in *.
  set (a0 := mutation.nuc_at 0 i =? mutation.nuc_at 0 j) in *.
  set (a1 := mutation.nuc_at 1 i =? mutation.nuc_at 1 j) in *.
  set (a2 := mutation.nuc_at 2 i =? mutation.nuc_at 2 j) in *.
  destruct m0, m1, m2, a0, a1, a2; try discriminate; simpl; by rewrite mset_eq.
Qed.

Lemma mg94_cell_keeps omega nuc_q i0 j0 i j st :
  0 <= i0 < 64 -> 0 <= j0 < 64 -> i0 <> j0 ->
  mutation.Q st i0 j0 = rate_entry omega nuc_q i0 j0 ->
  mutation.Q (mg94_cell omega nuc_q i st j) i0 j0 = rate_entry omega nuc_q i0 j0.
Proof using Type.
  intros Hi0 Hj0 Hne Hst.
  destruct (decide ((i0, j0) = (i, j))) as [[= <- <-] | Hother].
  - by apply mg94_cell_entry.
  - by rewrite mg94_cell_frame.
Qed.

Lemma mg94_row_keeps omega nuc_freqs nuc_q i0 j0 i st :
  0 <= i0 < 64 -> 0 <= j0 < 64 -> i0 <> j0 ->
  mutation.Q st i0 j0 = rate_entry omega nuc_q i0 j0 ->
  mutation.Q (mg94_row omega nuc_freqs nuc_q st i) i0 j0 = rate_entry omega nuc_q i0 j0.
Proof using Type.
  intros Hi0 Hj0 Hne Hst. unfold mutation.mg94_row. cbn [mutation.Q].
  rewrite mset_ne by congruence.
  apply (fold_left_keeps
           (fun s => mutation.Q s i0 j0 = rate_entry omega nuc_q i0 j0));
    [| done].
  intros s j _ Hs. by apply mg94_cell_keeps.
Qed.

Lemma mg94_row_entry omega nuc_freqs nuc_q i j st :
  0 <= i < 64 -> 0 <= j < 64 -> i <> j ->
  mutation.Q (mg94_row omega nuc_freqs nuc_q st i) i j = rate_entry omega nuc_q i j.
Proof using Type.
  intros Hi Hj Hne. unfold mutation.mg94_row. cbn [mutation.Q].
  rewrite mset_ne by congruence.
  apply (fold_left_reaches
           (fun s => mutation.Q s i j = rate_entry omega nuc_q i j) _ _ j).
  - intros s j' _ Hs. by apply mg94_cell_keeps.
  - apply (elem_of_range 0 64). lia.
  - intros s. by apply mg94_cell_entry.
Qed.

Lemma mg94_q_rate_entry omega nuc_freqs nuc_q i j :
  0 <= i < 64 -> 0 <= j < 64 -> i <> j ->
  mutation.Q (mg94_q omega nuc_freqs nuc_q) i j = rate_entry omega nuc_q i j.
Proof using Type.
  intros Hi Hj Hne. unfold mutation.mg94_q.
  apply (fold_left_reaches
           (fun s => mutation.Q s i j = rate_entry omega nuc_q i j) _ _ i).
  - intros s i' _ Hs. by apply mg94_row_keeps.
  - apply (elem_of_range 0 64). lia.
  - intros s. by apply mg94_row_entry.
Qed.

(** C3.  In the rate matrix [Q] that the loops of [mg94_p] build, for two
    distinct codons [i] and [j]: [Q(i,j)] is 0 when they differ in more
    than one position; when they differ in exactly one position [pos],
    [Q(i,j)] is [w * nuc_q(b_i, b_j)] with [b_i], [b_j] their nucleotides at
    [pos], and [w] is 1 when the two codons have the same entry in the amino
    acid table and [omega] otherwise.  [nuc_q] is either nucleotide rate
    matrix. *)
Theorem mg94_rates (omega : F) (nuc_freqs : list F) (nuc_q : Matrix F) (i j : Z) :
  0 <= i < 64 -> 0 <= j < 64 -> i <> j ->
  let Qm := mutation.Q (mg94_q omega nuc_freqs nuc_q) in
  let w := if amino_group_table i =? amino_group_table j then f_of_Z 1 else omega in
  (1 < mutation.cod_distance i j -> Qm i j = f_of_Z 0) /\
  (mutation.cod_distance i j = 1 ->
   exists pos,
     0 <= pos < 3 /\
     mutation.nuc_at pos i <> mutation.nuc_at pos j /\
     (forall pos', 0 <= pos' < 3 -> pos' <> pos ->
                   mutation.nuc_at pos' i = mutation.nuc_at pos' j) /\
     Qm i j = fmul w (nuc_q (mutation.nuc_at pos i) (mutation.nuc_at pos j))).
Proof using Type.
  intros Hi Hj Hne Qm w. unfold Qm.
  rewrite mg94_q_rate_entry by done. unfold mutation.rate_entry.
  split.
  - intros Hd. apply Z.ltb_lt in Hd. by rewrite Hd.
  - intros Hd. exists (mutation.diff_pos i j).
    destruct (diff_pos_single i j Hd) as (Hpos & Hdiff & Hsame).
    repeat split; try done; try lia.
    rewrite Hd. done.
Qed.

(** ** What [mg94_p] checks *)

Variable mat_exp : Matrix F -> Matrix F.

Lemma mg94_p_ok (br_len omega : F) (nuc_freqs sigma : list F) :
  fleb br_len (f_of_Z 0) = false ->
  mutation.sigma_rejected sigma = false ->
  exists P, mutation.mg94_p amino_group_table mat_exp br_len omega nuc_freqs sigma = Ok P.
Proof using Type.
  intros Hlen Hsigma. unfold mutation.mg94_p. rewrite Hlen.
  destruct (existsb _ sigma).
  - unfold mutation.gtr_q. unfold mutation.sigma_rejected in Hsigma.
    rewrite Hsigma. eexists. reflexivity.
  - eexists. reflexivity.
Qed.


End MutationFacts.

(** [mg94_rates] at the codons AAA and AAG, which differ in the third
    position and both stand for lysine, with the fixed nucleotide rates. *)
Lemma mg94_rates_witness :
  0 <= 0 < 64 /\ 0 <= 2 < 64 /\ 0 <> 2 /\
  let Qm := mutation.Q (mutation.mg94_q standard_code (b32_lit 1 5) pi_default
                          mutation.yang_q) in
  let w := if standard_code 0 =? standard_code 2 then f_of_Z 1 else b32_lit 1 5 in
  (1 < mutation.cod_distance 0 2 -> Qm 0 2 = f_of_Z 0) /\
  (mutation.cod_distance 0 2 = 1 ->
   exists pos,
     0 <= pos < 3 /\
     mutation.nuc_at pos 0 <> mutation.nuc_at pos 2 /\
     (forall pos', 0 <= pos' < 3 -> pos' <> pos ->
                   mutation.nuc_at pos' 0 = mutation.nuc_at pos' 2) /\
     Qm 0 2 = fmul w (mutation.yang_q (mutation.nuc_at pos 0) (mutation.nuc_at pos 2))).
Proof.
  split; [lia | split; [lia | split; [lia |]]].
  apply (mg94_rates standard_code (b32_lit 1 5) pi_default mutation.yang_q 0 2); lia.
Defined.



(** ** binary32: entries that are not finite *)

Section Binary32.

Variables approx_log approx_exp : spec_float -> spec_float.

#[local] Abbreviation marginal_p32 :=
  (mutation.marginal_p (LM:=binary32_libm approx_log approx_exp)).
#[local] Abbreviation marginal_row_sum32 :=
  (mutation.marginal_row_sum (LM:=binary32_libm approx_log approx_exp)).

(** With the identity matrix no codon that starts with C is reached from
    AAA: the sum is 0, the quotient is 0, and its logarithm is minus
    infinity. *)
Lemma marginal_p_identity_entry :
  marginal_p32 mutation.codon_identity pi_default 0 1 = S754_infinity true.
Proof using Type.
  etrans; [apply (marginal_p_entry mutation.codon_identity pi_default 0 0 1); lia |].
  vm_compute. reflexivity.
Qed.

(** With the least positive frequency the quotient 1 / pi_A overflows. *)
Lemma row_sum_overflows :
  marginal_row_sum32 (marginal_p32 mutation.codon_identity pi_tiny) pi_tiny 0 0 =
  S754_infinity false.
Proof using Type.
  rewrite marginal_row_sum_terms.
  rewrite !(marginal_p_entry mutation.codon_identity pi_tiny 0 0) by lia.
  vm_compute. reflexivity.
Qed.

(** C6, as amended.  In binary32 every entry of the table is
    [logf (marg / pi_n)], [marg] being the sum of the entries of [P] over
    the codons that carry [n] at the position; nothing replaces a
    logarithm of zero: where that sum is a zero and the frequency a finite
    number other than zero, the entry is minus infinity. *)
Theorem marginal_p_unclamped (P : Matrix spec_float) (pi : list spec_float)
    (cod pos nuc : Z) :
  0 <= cod < 64 -> 0 <= pos < 3 -> 0 <= nuc < 4 ->
  marginal_p32 P pi (cod * 3 + pos) nuc =
    b32_logf approx_log (fdiv (mutation.marg_sum P cod pos nuc) (vec_at pi nuc)) /\
  (forall s s' m e,
     mutation.marg_sum P cod pos nuc = S754_zero s ->
     vec_at pi nuc = S754_finite s' m e ->
     marginal_p32 P pi (cod * 3 + pos) nuc = S754_infinity true).
Proof using Type.
  intros Hcod Hpos Hnuc.
  rewrite marginal_p_entry by done. split; [done |].
  intros s s' m e -> ->. reflexivity.
Qed.

End Binary32.

Lemma codon_identity_stochastic :
  mutation.row_stochastic (F:=spec_float) mutation.codon_identity.
Proof.
  intros cod Hcod.
  assert (Forall (fun c =>
                    mutation.row_total (F:=spec_float) mutation.codon_identity c =
                    f_of_Z 1 /\
                    forallb (fun i => fleb (f_of_Z 0)
                                        (mutation.codon_identity (F:=spec_float) c i))
                            (range 0 64) = true)
                 (range 0 64)) as Hall.
  { unfold range at 2. cbn [map seq].
    repeat (constructor; [split; vm_compute; reflexivity |]). constructor. }
  rewrite Forall_forall in Hall.
  destruct (Hall cod) as [Hsum Hpos]; [by apply (elem_of_range 0 64) |].
  split; [done |]. intros i Hi.
  rewrite forallb_forall in Hpos. apply Hpos.
  by apply list_elem_of_In, (elem_of_range 0 64).
Qed.

(** The frequencies [pi_tiny] are positive and sum to 1 in binary32. *)
Lemma pi_tiny_sums_to_one : mutation.sums_to_one pi_tiny = true.
Proof. vm_compute. reflexivity. Qed.

Lemma pi_tiny_frequencies : mutation.frequencies pi_tiny.
Proof.
  split; [done |]. intros nuc Hnuc.
  assert (nuc = 0 \/ nuc = 1 \/ nuc = 2 \/ nuc = 3) as [-> | [-> | [-> | ->]]] by lia;
    split; vm_compute; reflexivity.
Qed.

(** C6 as the specification states it fails in binary32, whatever [logf]
    does at the ordinary arguments: with the identity matrix and the default
    frequencies the entry for codon AAA, position 0, nucleotide C is minus
    infinity. *)
Lemma marginal_p_infinite_entry :
  ~ (forall (approx_log approx_exp : spec_float -> spec_float)
            (P : Matrix spec_float) (pi : list spec_float) (r c : Z),
       0 <= r < 192 -> 0 <= c < 4 ->
       b32_is_finite
         (mutation.marginal_p (LM:=binary32_libm approx_log approx_exp) P pi r c) =
       true).
Proof.
  intros Hclaim.
  specialize (Hclaim (fun v => v) (fun v => v) mutation.codon_identity pi_default 0 1).
  rewrite marginal_p_identity_entry in Hclaim.
  assert (b32_is_finite (S754_infinity true) = true) as Hfinite
    by (apply Hclaim; lia).
  discriminate Hfinite.
Qed.

(** [marginal_p_unclamped] at that entry. *)
Lemma marginal_p_unclamped_witness :
  0 <= 0 < 64 /\ 0 <= 0 < 3 /\ 0 <= 1 < 4 /\
  mutation.marginal_p (LM:=binary32_libm (fun v => v) (fun v => v))
    mutation.codon_identity pi_default (0 * 3 + 0) 1 =
    b32_logf (fun v => v)
      (fdiv (mutation.marg_sum mutation.codon_identity 0 0 1) (vec_at pi_default 1)) /\
  (forall s s' m e,
     mutation.marg_sum mutation.codon_identity 0 0 1 = S754_zero s ->
     vec_at pi_default 1 = S754_finite s' m e ->
     mutation.marginal_p (LM:=binary32_libm (fun v => v) (fun v => v))
       mutation.codon_identity pi_default (0 * 3 + 0) 1 = S754_infinity true).
Proof.
  split; [lia | split; [lia | split; [lia |]]].
  apply (marginal_p_unclamped (fun v => v) (fun v => v) mutation.codon_identity
           pi_default 0 0 1); lia.
Defined.


(** ** Exact arithmetic: the rows of the marginal table *)

Lemma xleb_nonneg (v : xreal) :
  xleb (Fin 0) v = true -> (exists r, v = Fin r /\ (0 <= r)%R) \/ v = PInf.
Proof.
  destruct v as [r | | |]; simpl; intros Hv; try done; [| by right].
  left. exists r. split; [done |]. by decide_reals.
Qed.

Lemma xltb_positive (v : xreal) :
  xltb (Fin 0) v = true -> xleb v (Fin 1) = true ->
  exists q, v = Fin q /\ (0 < q <= 1)%R.
Proof.
  destruct v as [q | | |]; simpl; intros Hlt Hle; try done.
  exists q. split; [done |]. by decide_reals.
Qed.

Lemma rsum_shift g l a0 : rsum g l a0 = (a0 + rsum g l 0)%R.
Proof.
  unfold rsum. revert a0. induction l as [| i l IH]; intros a0; simpl; [lra |].
  rewrite (IH (a0 + g i)%R), (IH (0 + g i)%R). lra.
Qed.

Lemma rsum_cons g i l : rsum g (i :: l) 0 = (g i + rsum g l 0)%R.
Proof.
  unfold rsum. simpl. fold (rsum g l (0 + g i)). rewrite rsum_shift.
  fold (rsum g l 0). lra.
Qed.

Lemma rsum_nonneg g l : (forall i, i ∈ l -> (0 <= g i)%R) -> (0 <= rsum g l 0)%R.
Proof.
  induction l as [| i l IH]; intros Hg; [unfold rsum; simpl; lra |].
  rewrite rsum_cons.
  assert (0 <= g i)%R by (apply Hg; by left).
  assert (0 <= rsum g l 0)%R by (apply IH; intros k Hk; apply Hg; by right).
  lra.
Qed.

Lemma rsum_split (b : Z -> Z) (p : Z -> R) l :
  (forall i, i ∈ l -> 0 <= b i < 4) ->
  (rsum (fun i => if b i =? 0 then p i else 0 / 1) l 0 +
   rsum (fun i => if b i =? 1 then p i else 0 / 1) l 0 +
   rsum (fun i => if b i =? 2 then p i else 0 / 1) l 0 +
   rsum (fun i => if b i =? 3 then p i else 0 / 1) l 0 = rsum p l 0)%R.
Proof.
  induction l as [| i l IH]; intros Hb; [unfold rsum; simpl; lra |].
  rewrite !rsum_cons.
  rewrite <- IH by (intros k Hk; apply Hb; by right).
  assert (0 <= b i < 4) as Hi by (apply Hb; by left).
  assert (b i = 0 \/ b i = 1 \/ b i = 2 \/ b i = 3) as [-> | [-> | [-> | ->]]] by lia;
    simpl; lra.
Qed.

Lemma xsum_fin (f : Z -> xreal) (g : Z -> R) l a0 :
  (forall i, i ∈ l -> f i = Fin (g i)) ->
  fold_left (fun a i => xadd a (f i)) l (Fin a0) = Fin (rsum g l a0).
Proof.
  unfold rsum. revert a0. induction l as [| i l IH]; intros a0 Hf; simpl; [done |].
  rewrite (Hf i) by (by left). simpl. apply IH. intros k Hk. apply Hf. by right.
Qed.

Lemma xsum_pinf (f : Z -> xreal) l :
  (forall i, i ∈ l -> xleb (Fin 0) (f i) = true) ->
  fold_left (fun a i => xadd a (f i)) l PInf = PInf.
Proof.
  induction l as [| i l IH]; intros Hf; simpl; [done |].
  destruct (xleb_nonneg (f i)) as [(r & -> & _) | ->]; [apply Hf; by left | |];
    simpl; apply IH; intros k Hk; apply Hf; by right.
Qed.

Lemma xsum_all_fin (f : Z -> xreal) l a0 t :
  (forall i, i ∈ l -> xleb (Fin 0) (f i) = true) ->
  fold_left (fun a i => xadd a (f i)) l (Fin a0) = Fin t ->
  forall i, i ∈ l -> exists r, f i = Fin r /\ (0 <= r)%R.
Proof.
  revert a0. induction l as [| k l IH]; intros a0 Hf Hsum i Hi; [by inversion Hi |].
  simpl in Hsum.
  destruct (xleb_nonneg (f k)) as [(r & Hr & Hr0) | Hinf]; [apply Hf; by left | |].
  - rewrite Hr in Hsum. simpl in Hsum.
    apply elem_of_cons in Hi as [-> | Hi]; [eauto |].
    eapply IH; [| exact Hsum | done]. intros j Hj. apply Hf. by right.
  - rewrite Hinf in Hsum. simpl in Hsum.
    rewrite xsum_pinf in Hsum; [done |]. intros j Hj. apply Hf. by right.
Qed.

(** [pi * exp (log (m / pi))] is [m], also when [m] is 0. *)
Lemma exact_term (m q : R) :
  (0 <= m)%R -> (0 < q)%R ->
  xmul (xexp (xlog (xdiv (Fin m) (Fin q)))) (Fin q) = Fin m.
Proof.
  intros Hm Hq. unfold xdiv.
  destruct (Req_dec_T q 0) as [-> | _]; [lra |].
  unfold xlog. destruct (Req_dec_T (m / q) 0) as [Hz | Hnz].
  - simpl. f_equal.
    assert (m = m / q * q)%R as -> by (field; lra). rewrite Hz. lra.
  - assert (0 < m / q)%R as Hpos.
    { assert (0 <= m / q)%R.
      { unfold Rdiv. apply Rmult_le_pos; [lra |]. left. by apply Rinv_0_lt_compat. }
      lra. }
    destruct (Rlt_dec (m / q) 0); [lra |].
    simpl. rewrite exp_ln by done. f_equal. field. lra.
Qed.

Lemma exact_marg_sum (P : Matrix xreal) (p : Z -> R) (cod pos nuc : Z) :
  (forall i, i ∈ range 0 64 -> P cod i = Fin (p i)) ->
  mutation.marg_sum P cod pos nuc =
  Fin (0 / 1 + rsum (fun i => if mutation.nuc_at pos i =? nuc then p i else (0 / 1)%R)
                    (range 0 64) 0).
Proof.
  intros Hp. rewrite <- rsum_shift.
  apply (xsum_fin
           (fun i => if mutation.nuc_at pos i =? nuc then P cod i else Fin (0 / 1))
           (fun i => if mutation.nuc_at pos i =? nuc then p i else (0 / 1)%R)).
  intros i Hi. destruct (mutation.nuc_at pos i =? nuc); [by apply Hp | done].
Qed.


Lemma uniform_matrix_stochastic : mutation.row_stochastic uniform_matrix.
Proof.
  intros cod Hcod. split.
  - transitivity (Fin (rsum (fun _ => 1 / 64)%R (range 0 64) 0)).
    + by apply (xsum_fin (fun i => uniform_matrix cod i) (fun _ => (1 / 64)%R)).
    + change (f_of_Z 1) with (Fin 1). f_equal.
      unfold rsum, range. cbn [fold_left map seq]. lra.
  - intros i Hi. unfold uniform_matrix. simpl. by decide_reals.
Qed.

Lemma pi_exact_frequencies : mutation.frequencies pi_exact.
Proof.
  split; [done |]. intros nuc Hnuc.
  assert (nuc = 0 \/ nuc = 1 \/ nuc = 2 \/ nuc = 3) as [-> | [-> | [-> | ->]]] by lia;
    split; simpl; by decide_reals.
Qed.


(** * Guide trees: lookups, rerooting and distances *)

Section TreeMore.

Context {F : Type} {FO : FloatOps F}.

#[local] Abbreviation node_t := (tree.node_t (F:=F)).
#[local] Abbreviation tree_t := (list node_t).

(** ** [find_node] *)

Lemma find_node_Some (t : tree_t) name i :
  tree.find_node t name = Some i ->
  exists nd, t !! i = Some nd /\ tree.label nd = name /\
             forall j nj, (j < i)%nat -> t !! j = Some nj -> tree.label nj <> name.
Proof.
  revert i. induction t as [| nd t IH]; intros i; simpl; [done |].
  destruct (String.eqb_spec (tree.label nd) name) as [Heq | Hne].
  - intros [= <-]. exists nd. repeat split; [done |]. intros j nj Hj. lia.
  - destruct (tree.find_node t name) as [k |] eqn:Hk; simpl; [| done].
    intros [= <-]. destruct (IH k eq_refl) as (nk & Hnk & Hlab & Hbefore).
    exists nk. repeat split; [done | done |].
    intros [| j] nj Hj; simpl; [by intros [= <-] |].
    apply Hbefore. lia.
Qed.

Lemma find_node_None (t : tree_t) name :
  tree.find_node t name = None <->
  forall j nj, t !! j = Some nj -> tree.label nj <> name.
Proof.
  induction t as [| nd t IH]; simpl; [done |].
  destruct (String.eqb_spec (tree.label nd) name) as [Heq | Hne].
  - split; [done |]. intros Hall. by destruct (Hall 0%nat nd eq_refl).
  - rewrite fmap_None, IH. split.
    + intros Hall [| j] nj; simpl; [by intros [= <-] | apply Hall].
    + intros Hall j nj Hj. by apply (Hall (S j) nj).
Qed.

(** X1.  [find_node] yields the index of the first node that carries the
    label, and fails exactly when no node carries it. *)
Theorem find_node_first (t : tree_t) (name : string) :
  match tree.find_node t name with
  | Some i =>
      exists nd, t !! i = Some nd /\ tree.label nd = name /\
        forall j nj, (j < i)%nat -> t !! j = Some nj -> tree.label nj <> name
  | None => forall j nj, t !! j = Some nj -> tree.label nj <> name
  end.
Proof.
  destruct (tree.find_node t name) as [i |] eqn:Hfind.
  - by apply find_node_Some.
  - by apply find_node_None.
Qed.

(** ** [reroot]: the error *)

(** X2.  [reroot] throws [invalid_argument] exactly when no node of the tree
    carries the outgroup label. *)
Theorem reroot_missing_outgroup (t : tree_t) (outgroup : string) :
  tree.reroot t outgroup =
    Some (Throw (invalid_argument "Outgroup label could not be found, re-root failed."))
  <-> forall j nj, t !! j = Some nj -> tree.label nj <> outgroup.
Proof.
  rewrite <- find_node_None. unfold tree.reroot, tree.reroot_with.
  destruct (tree.find_node t outgroup) as [ref |]; [| done].
  split; [| done].
  destruct (t !! ref) as [nd |]; simpl; [| done].
  destruct (tree.ancestors_from _ t (tree.parent nd)); simpl; done.
Qed.

(** ** [reroot]: the path is reversed *)

Lemma reverse_path_fold (a : list nat) (t : tree_t) :
  tree.reverse_path a t =
  fold_right (fun i t' => tree.reverse_edge a t' i) t (seq 1 (Datatypes.length a - 1)).
Proof.
  unfold tree.reverse_path.
  rewrite <- (rev_involutive (seq 1 (Datatypes.length a - 1))) at 2.
  by rewrite fold_left_rev_right.
Qed.

(** The edges [s], ..., [s + m - 1] of the path, reversed from the last to
    the first: each node of those takes the node before it for its parent,
    with the branch that node had. *)
Lemma reverse_span (a : list nat) (t : tree_t) (m s : nat) :
  NoDup a -> (1 <= s)%nat -> (s + m <= Datatypes.length a)%nat ->
  let t' := fold_right (fun i t' => tree.reverse_edge a t' i) t (seq s m) in
  (forall k, (forall i, (s <= i < s + m)%nat -> a !! i <> Some k) -> t' !! k = t !! k) /\
  (forall i x y nx ny,
     (s <= i < s + m)%nat -> a !! (i - 1)%nat = Some x -> a !! i = Some y ->
     t !! x = Some nx -> t !! y = Some ny ->
     t' !! y = Some (tree.reversed x nx ny)).
Proof.
  intros Hnd. revert s. induction m as [| m IH]; intros s Hs Hlen; simpl.
  - split; [done |]. intros; lia.
  - destruct (IH (S s)) as [IHoff IHon]; [lia | lia |].
    set (t_in := fold_right (fun i t' => tree.reverse_edge a t' i) t (seq (S s) m))
      in *.
    destruct (lookup_lt_is_Some_2 a s) as [y0 Hy0]; [lia |].
    destruct (lookup_lt_is_Some_2 a (s - 1)) as [x0 Hx0]; [lia |].
    assert (x0 <> y0) as Hxy.
    { intros ->. pose proof (NoDup_lookup _ _ _ _ Hnd Hx0 Hy0). lia. }
    assert (t_in !! x0 = t !! x0) as Hx_in.
    { apply IHoff. intros i Hi Hai.
      pose proof (NoDup_lookup _ _ _ _ Hnd Hx0 Hai). lia. }
    assert (t_in !! y0 = t !! y0) as Hy_in.
    { apply IHoff. intros i Hi Hai.
      pose proof (NoDup_lookup _ _ _ _ Hnd Hy0 Hai). lia. }
    assert (forall k, tree.reverse_edge a t_in s !! k =
              if decide (k = y0)
              then (fun ny => match t !! x0 with
                              | Some nx => tree.reversed x0 nx ny
                              | None => tree.set_parent x0 ny
                              end) <$> t_in !! k
              else t_in !! k) as Hedge.
    { intros k. unfold tree.reverse_edge. rewrite Hy0, Hx0.
      rewrite list_lookup_alter_ne by congruence. rewrite Hx_in.
      destruct (decide (k = y0)) as [-> | Hk].
      - destruct (t !! x0) as [nx |]; rewrite !list_lookup_alter_eq;
          by destruct (t_in !! y0).
      - destruct (t !! x0) as [nx |]; by rewrite !list_lookup_alter_ne by congruence. }
    split.
    + intros k Hk. rewrite Hedge.
      assert (k <> y0) by (intros ->; by apply (Hk s); [lia |]).
      rewrite decide_False by done. apply IHoff. intros i Hi. apply Hk. lia.
    + intros i x y nx ny Hi Hx Hy Hnx Hny. rewrite Hedge.
      destruct (decide (i = s)) as [-> | Hne].
      * simplify_eq. rewrite decide_True by done.
        rewrite Hy_in, Hny. simpl. by rewrite Hnx.
      * assert (y <> y0).
        { intros ->. pose proof (NoDup_lookup _ _ _ _ Hnd Hy Hy0). lia. }
        rewrite decide_False by done. eapply IHon; eauto. lia.
Qed.

(** The tree [reroot] leaves, when the walk from the new root is [path]. *)
Lemma reroot_returns (t : tree_t) outgroup ref leaf path :
  tree.find_node t outgroup = Some ref -> t !! ref = Some leaf ->
  tree.climbs t (tree.parent leaf) path ->
  tree.reroot t outgroup =
  Some (Ok (alter (tree.set_length (f_of_Z 0)) (tree.parent leaf)
              (alter (tree.set_parent (tree.parent leaf)) (tree.parent leaf)
                 (tree.reverse_path path t)))).
Proof.
  intros Hfind Href Hpath. unfold tree.reroot, tree.reroot_with.
  rewrite Hfind, Href. simpl.
  by rewrite (ancestors_from_enough _ _ _ Hpath).
Qed.

Lemma rerooted_lookup (t : tree_t) newroot path :
  tree.climbs t newroot path ->
  let t' := alter (tree.set_length (f_of_Z 0)) newroot
              (alter (tree.set_parent newroot) newroot (tree.reverse_path path t)) in
  Datatypes.length t' = Datatypes.length t /\
  (forall k, k ∉ path -> t' !! k = t !! k) /\
  (forall nr, t !! newroot = Some nr ->
     t' !! newroot =
     Some (tree.set_length (f_of_Z 0) (tree.set_parent newroot nr))) /\
  (forall i x y nx ny,
     path !! i = Some x -> path !! S i = Some y ->
     t !! x = Some nx -> t !! y = Some ny ->
     t' !! y = Some (tree.reversed x nx ny)).
Proof.
  intros Hpath t'.
  pose proof (climbs_NoDup _ _ _ Hpath) as Hnd.
  destruct (climbs_head _ _ _ Hpath) as [rest Hrest].
  assert (path !! 0%nat = Some newroot) as H0 by (by rewrite Hrest).
  assert (1 <= Datatypes.length path)%nat by (rewrite Hrest; simpl; lia).
  destruct (reverse_span path t (Datatypes.length path - 1) 1 Hnd) as [Hoff Hon];
    [lia | lia |].
  rewrite <- reverse_path_fold in Hoff, Hon.
  split; [| split; [| split]].
  - unfold t'. rewrite !length_alter.
    destruct (reverse_path_tags path t) as [Hlab _].
    apply (f_equal Datatypes.length) in Hlab. by rewrite !length_fmap in Hlab.
  - intros k Hk. unfold t'.
    assert (newroot <> k).
    { intros ->. apply Hk. rewrite Hrest. by left. }
    rewrite !list_lookup_alter_ne by done.
    apply Hoff. intros i Hi Hpi. apply Hk. by eapply list_elem_of_lookup_2.
  - intros nr Hnr. unfold t'. rewrite !list_lookup_alter_eq.
    rewrite Hoff; [by rewrite Hnr |].
    intros i Hi Hpi. pose proof (NoDup_lookup _ _ _ _ Hnd H0 Hpi). lia.
  - intros i x y nx ny Hx Hy Hnx Hny. unfold t'.
    assert (newroot <> y).
    { intros ->. pose proof (NoDup_lookup _ _ _ _ Hnd H0 Hy). lia. }
    rewrite !list_lookup_alter_ne by done.
    apply (Hon (S i) x y nx ny); try done.
    + apply lookup_lt_Some in Hy. lia.
    + by replace (S i - 1)%nat with i by lia.
Qed.

(** X3.  [reroot] turns the path from the new root up to the old root
    around: every node of the path but the new root takes the node before it
    on the path for its parent, and that node's old branch length for its
    own. *)
Theorem reroot_reverses_path (t : tree_t) (outgroup : string) (ref : nat)
    (leaf : node_t) (path : list nat) :
  tree.find_node t outgroup = Some ref ->
  t !! ref = Some leaf ->
  tree.climbs t (tree.parent leaf) path ->
  exists t' : tree_t,
    tree.reroot t outgroup = Some (Ok t') /\
    Datatypes.length t' = Datatypes.length t /\
    forall i x y, path !! i = Some x -> path !! S i = Some y ->
      exists nx ny ny',
        t !! x = Some nx /\ t !! y = Some ny /\ t' !! y = Some ny' /\
        tree.parent ny' = x /\ tree.length ny' = tree.length nx.
Proof.
  intros Hfind Href Hpath.
  rewrite (reroot_returns t outgroup ref leaf path) by done.
  eexists. split; [reflexivity |].
  destruct (rerooted_lookup t (tree.parent leaf) path Hpath) as (Hlen & _ & _ & Hon).
  split; [done |].
  intros i x y Hx Hy.
  pose proof (climbs_in_range _ _ _ Hpath) as Hr. rewrite Forall_forall in Hr.
  destruct (lookup_lt_is_Some_2 t x) as [nx Hnx];
    [apply Hr; by eapply list_elem_of_lookup_2 |].
  destruct (lookup_lt_is_Some_2 t y) as [ny Hny];
    [apply Hr; by eapply list_elem_of_lookup_2 |].
  exists nx, ny, (tree.reversed x nx ny).
  repeat split; try done. by eapply Hon.
Qed.

(** ** [reroot]: the result is a tree rooted at the new root *)

(** In the rerooted tree the nodes of the path climb back down it. *)
Lemma rerooted_path_climbs (t : tree_t) newroot path i x :
  tree.climbs t newroot path -> path !! i = Some x ->
  tree.climbs
    (alter (tree.set_length (f_of_Z 0)) newroot
       (alter (tree.set_parent newroot) newroot (tree.reverse_path path t)))
    x (rev (take (S i) path)).
Proof.
  intros Hpath.
  destruct (rerooted_lookup t newroot path Hpath) as (_ & _ & Hroot & Hon).
  pose proof (climbs_NoDup _ _ _ Hpath) as Hnd.
  pose proof (climbs_in_range _ _ _ Hpath) as Hr. rewrite Forall_forall in Hr.
  destruct (climbs_head _ _ _ Hpath) as [rest Hrest].
  revert x. induction i as [| i IH]; intros x Hx.
  - assert (x = newroot) as -> by (rewrite Hrest in Hx; by injection Hx).
    assert (rev (take 1 path) = [newroot]) as -> by (by rewrite Hrest).
    destruct (lookup_lt_is_Some_2 t newroot) as [nr Hnr];
      [apply Hr; rewrite Hrest; by left |].
    eapply tree.climbs_root; [by apply Hroot | done].
  - destruct (lookup_lt_is_Some_2 path i) as [w Hw];
      [apply lookup_lt_Some in Hx; lia |].
    destruct (lookup_lt_is_Some_2 t w) as [nw Hnw];
      [apply Hr; by eapply list_elem_of_lookup_2 |].
    destruct (lookup_lt_is_Some_2 t x) as [nx Hnx];
      [apply Hr; by eapply list_elem_of_lookup_2 |].
    rewrite (take_S_r _ _ _ Hx), rev_app_distr. simpl.
    eapply tree.climbs_step; [by eapply Hon | | by apply IH].
    simpl. intros ->. pose proof (NoDup_lookup _ _ _ _ Hnd Hw Hx). lia.
Qed.

Lemma rerooted_path_last (path : list nat) newroot rest i :
  path = newroot :: rest -> last (rev (take (S i) path)) = Some newroot.
Proof. intros ->. simpl. by rewrite last_snoc. Qed.

(** [reroot] keeps a rooted tree rooted. *)
Lemma rerooted_rooted (t : tree_t) root newroot path :
  tree.rooted t root -> tree.climbs t newroot path ->
  tree.rooted
    (alter (tree.set_length (f_of_Z 0)) newroot
       (alter (tree.set_parent newroot) newroot (tree.reverse_path path t)))
    newroot.
Proof.
  intros Hrooted Hpath.
  destruct (rerooted_lookup t newroot path Hpath) as (Hlen & Hoff & _ & _).
  destruct (climbs_head _ _ _ Hpath) as [rest Hrest].
  pose proof (climbs_in_range _ _ _ Hpath) as Hr. rewrite Forall_forall in Hr.
  assert (last path = Some root) as Hlast.
  { destruct (Hrooted newroot) as (p & Hp & Hl);
      [apply Hr; rewrite Hrest; by left |].
    by rewrite (climbs_det _ _ _ _ Hpath Hp). }
  assert (forall n, n ∈ path ->
            exists p', tree.climbs
              (alter (tree.set_length (f_of_Z 0)) newroot
                 (alter (tree.set_parent newroot) newroot (tree.reverse_path path t)))
              n p' /\ last p' = Some newroot) as Hon_path.
  { intros n Hn. apply list_elem_of_lookup_1 in Hn as [i Hi].
    exists (rev (take (S i) path)). split.
    - by apply rerooted_path_climbs.
    - by eapply rerooted_path_last. }
  intros n Hn. rewrite Hlen in Hn.
  destruct (Hrooted n Hn) as (p & Hp & Hl).
  induction Hp as [n nd Hnd Hself | n nd p Hnd Hself Hp IH].
  - apply Hon_path. simpl in Hl. injection Hl as ->.
    rewrite last_lookup in Hlast. by eapply list_elem_of_lookup_2.
  - destruct (decide (n ∈ path)) as [Hin | Hout]; [by apply Hon_path |].
    destruct (climbs_head _ _ _ Hp) as [p0 Hp0].
    destruct IH as (p' & Hp' & Hl').
    + pose proof (climbs_in_range _ _ _ Hp) as Hrp. rewrite Hp0 in Hrp.
      by apply Forall_cons in Hrp as [? _].
    + rewrite Hp0 in Hl |- *. by rewrite last_cons_cons in Hl.
    + exists (n :: p'). split.
      * eapply tree.climbs_step; [by rewrite Hoff | done | done].
      * destruct (climbs_head _ _ _ Hp') as [q0 ->]. by rewrite last_cons_cons.
Qed.

(** X4.  [reroot] keeps a tree a tree: when every node of [t] climbs to one
    root, [reroot] returns, and in the tree it leaves every node climbs to
    the new root, the parent of the outgroup. *)
Theorem reroot_rooted (t : tree_t) (root : nat) (outgroup : string) (ref : nat)
    (leaf : node_t) :
  tree.rooted t root ->
  tree.find_node t outgroup = Some ref ->
  t !! ref = Some leaf ->
  (tree.parent leaf < Datatypes.length t)%nat ->
  exists t' : tree_t,
    tree.reroot t outgroup = Some (Ok t') /\ tree.rooted t' (tree.parent leaf).
Proof.
  intros Hrooted Hfind Href Hlt.
  destruct (Hrooted (tree.parent leaf) Hlt) as (path & Hpath & _).
  rewrite (reroot_returns t outgroup ref leaf path) by done.
  eexists. split; [reflexivity |]. by eapply rerooted_rooted.
Qed.

(** ** [reroot] twice *)

Lemma find_node_labels (t1 t2 : tree_t) name :
  tree.label <$> t1 = tree.label <$> t2 ->
  tree.find_node t1 name = tree.find_node t2 name.
Proof.
  revert t2. induction t1 as [| n1 t1 IH]; intros [| n2 t2]; simpl; try done.
  intros [= Hl Ht]. rewrite Hl. by rewrite (IH t2 Ht).
Qed.

Lemma alter_fixed {A : Type} (g : A -> A) (l : list A) i x :
  l !! i = Some x -> g x = x -> alter g i l = l.
Proof.
  intros Hx Hg. apply list_eq. intros j. rewrite list_lookup_alter.
  case_decide as Hj; [| done]. subst j. by rewrite Hx; simpl; rewrite Hg.
Qed.

(** A node whose parent starts a walk is not met on that walk, unless it is
    that parent. *)
Lemma climbs_avoids_child (t : tree_t) ref leaf path :
  t !! ref = Some leaf -> tree.climbs t (tree.parent leaf) path ->
  ref ∈ path -> ref = tree.parent leaf.
Proof.
  intros Href Hpath Hin.
  destruct (decide (ref = tree.parent leaf)) as [| Hne]; [done | exfalso].
  destruct (climbs_onward _ _ _ _ Hpath Hin) as (l' & Hl' & Hlen).
  assert (l' = ref :: path) as ->.
  { eapply climbs_det; [done |]. eapply tree.climbs_step; [done | congruence | done]. }
  simpl in Hlen. lia.
Qed.

(** X5.  Rerooting a second time at the same outgroup changes nothing. *)
Theorem reroot_twice (t t' : tree_t) (outgroup : string) :
  tree.reroot t outgroup = Some (Ok t') ->
  tree.reroot t' outgroup = Some (Ok t').
Proof.
  unfold tree.reroot at 1. unfold tree.reroot_with.
  destruct (tree.find_node t outgroup) as [ref |] eqn:Hfind; [| done].
  destruct (t !! ref) as [leaf |] eqn:Href; simpl; [| done].
  destruct (tree.ancestors_from _ t (tree.parent leaf)) as [path |] eqn:Hanc;
    simpl; [| done].
  apply ancestors_from_sound in Hanc. intros [= <-].
  set (newroot := tree.parent leaf) in *.
  set (t' := alter _ newroot (alter _ newroot (tree.reverse_path path t))).
  destruct (rerooted_lookup t newroot path Hanc) as (Hlen & Hoff & Hroot & _).
  fold t' in Hlen, Hoff, Hroot.
  pose proof (climbs_in_range _ _ _ Hanc) as Hr. rewrite Forall_forall in Hr.
  destruct (climbs_head _ _ _ Hanc) as [rest Hrest].
  destruct (lookup_lt_is_Some_2 t newroot) as [nr Hnr];
    [apply Hr; rewrite Hrest; by left |].
  specialize (Hroot nr Hnr).
  assert (tree.find_node t' outgroup = Some ref) as Hfind'.
  { rewrite <- Hfind. apply find_node_labels.
    assert (tree.same_tags t t') as [Hlab _]; [| done].
    eapply same_tags_trans; [apply reverse_path_tags |].
    eapply same_tags_trans; by apply alter_tags. }
  assert (exists leaf', t' !! ref = Some leaf' /\ tree.parent leaf' = newroot)
    as (leaf' & Href' & Hparent).
  { destruct (decide (ref ∈ path)) as [Hin | Hout].
    - rewrite (climbs_avoids_child t ref leaf path Href Hanc Hin).
      fold newroot. eauto.
    - exists leaf. by rewrite Hoff. }
  assert (tree.climbs t' newroot [newroot]) as Hclimb
    by (by eapply tree.climbs_root).
  rewrite (reroot_returns t' outgroup ref leaf' [newroot]); rewrite ?Hparent; try done.
  do 2 f_equal. unfold tree.reverse_path. simpl.
  rewrite (alter_fixed _ t' newroot _ Hroot) by done.
  by rewrite (alter_fixed _ t' newroot _ Hroot).
Qed.

(** ** [distance_ref] *)

Lemma distance_up_path (t : tree_t) n path fuel (dist : F) :
  tree.climbs t n path -> (Datatypes.length path <= fuel)%nat ->
  tree.distance_up fuel t n dist = Some (tree.path_length t path dist).
Proof.
  intros Hc. revert fuel dist.
  induction Hc as [n nd Hn Hp | n nd l Hn Hp Hc IH]; intros [| fuel] dist Hf;
    simpl in *; try lia.
  - rewrite Hn. simpl. by rewrite Hp, Nat.eqb_refl.
  - rewrite Hn. simpl. apply Nat.eqb_neq in Hp. rewrite Hp.
    rewrite IH by lia. unfold tree.path_length.
    destruct (climbs_head _ _ _ Hc) as [l' ->]. simpl. by rewrite Hn.
Qed.

Lemma distance_ref_path_aux (t : tree_t) (ref n : nat) (r : node_t) (path : list nat) :
  tree.climbs t n path ->
  t !! ref = Some r ->
  tree.distance_ref t ref n =
  Some (fadd (tree.path_length t path (f_of_Z 0)) (tree.length r)).
Proof.
  intros Hc Href. unfold tree.distance_ref.
  rewrite (distance_up_path t n path) by (done || by eapply climbs_length).
  simpl. by rewrite Href.
Qed.

(** X6.  [distance_ref] returns the branch lengths of the nodes on the way
    from [n] to the root, the root left out, added up from [n] upwards, plus
    the branch length of the reference. *)
Theorem distance_ref_path (t : tree_t) (ref n : nat) (r : node_t) (path : list nat) :
  tree.climbs t n path ->
  t !! ref = Some r ->
  tree.distance_ref t ref n =
  Some (fadd (tree.path_length t path (f_of_Z 0)) (tree.length r)).
Proof. apply distance_ref_path_aux. Qed.

(** ** Parsing, then rerooting *)

Lemma newick_order_rooted (t : tree_t) : tree.newick_order t -> tree.rooted t 0.
Proof. intros Ho n Hn. by apply newick_order_climbs. Qed.

Lemma rooted_distance_ref (t : tree_t) root ref n :
  tree.rooted t root ->
  (ref < Datatypes.length t)%nat -> (n < Datatypes.length t)%nat ->
  is_Some (tree.distance_ref t ref n).
Proof.
  intros Hrooted Href Hn.
  destruct (Hrooted n Hn) as (path & Hpath & _).
  destruct (lookup_lt_is_Some_2 t ref Href) as [r Hr].
  rewrite (distance_ref_path_aux t ref n r path) by done. eauto.
Qed.

Variable float_ : list ascii -> option (F * list ascii).

(** X7.  A parsed tree can be rerooted at every label it holds: [reroot]
    returns a tree of the same size, and in it [distance_ref] returns for
    every reference and every node. *)
Theorem parse_newick_reroot (content : string) (t : tree_t) (outgroup : string)
    (ref : nat) :
  tree.parse_newick float_ content = Some t ->
  tree.find_node t outgroup = Some ref ->
  exists t' : tree_t,
    tree.reroot t outgroup = Some (Ok t') /\
    Datatypes.length t' = Datatypes.length t /\
    forall ref' n, (ref' < Datatypes.length t')%nat -> (n < Datatypes.length t')%nat ->
                   is_Some (tree.distance_ref t' ref' n).
Proof.
  intros Hparse Hfind.
  pose proof (parse_newick_order float_ _ _ Hparse) as Horder.
  destruct (find_node_Some t outgroup ref Hfind) as (leaf & Href & _).
  assert (tree.parent leaf < Datatypes.length t)%nat as Hlt.
  { apply lookup_lt_Some in Href as Hr.
    destruct Horder as [(r & Hr0 & Hpr) Hup].
    destruct ref as [| ref]; [simplify_eq; lia |].
    assert (tree.parent leaf < S ref)%nat by (eapply Hup; [lia | done]). lia. }
  destruct (newick_order_rooted t Horder (tree.parent leaf) Hlt) as (path & Hpath & _).
  rewrite (reroot_returns t outgroup ref leaf path) by done.
  eexists. split; [reflexivity |].
  destruct (rerooted_lookup t (tree.parent leaf) path Hpath) as (Hlen & _).
  split; [done |].
  intros ref' n Href' Hn.
  eapply rooted_distance_ref; [| done | done].
  eapply rerooted_rooted; [by apply newick_order_rooted | done].
Qed.

End TreeMore.

(** ** The tree of the test cases *)

Lemma newick_example_parsed :
  tree.parse_newick decimal_float newick_text = Some newick_example.
Proof. vm_compute. reflexivity. Qed.

Lemma newick_example_rooted : tree.rooted newick_example 0.
Proof.
  apply newick_order_rooted.
  exact (parse_newick_order decimal_float _ _ newick_example_parsed).
Qed.

Lemma newick_example_climbs : tree.climbs newick_example 2 [2%nat; 0%nat].
Proof.
  eapply tree.climbs_step; [reflexivity | simpl; lia |].
  eapply tree.climbs_root; reflexivity.
Qed.

(** [reroot_reverses_path] at the tree of the test cases, rerooted at the
    leaf [A-a]. *)
Lemma reroot_reverses_path_witness :
  tree.find_node newick_example "A-a" = Some 3%nat /\
  newick_example !! 3%nat = Some (tree.node "A-a" (b32_lit 50 10) true 2) /\
  tree.climbs newick_example 2 [2%nat; 0%nat] /\
  exists t' : list (tree.node_t (F:=spec_float)),
    tree.reroot newick_example "A-a" = Some (Ok t') /\
    Datatypes.length t' = Datatypes.length newick_example /\
    forall i x y, [2%nat; 0%nat] !! i = Some x -> [2%nat; 0%nat] !! S i = Some y ->
      exists nx ny ny',
        newick_example !! x = Some nx /\ newick_example !! y = Some ny /\
        t' !! y = Some ny' /\
        tree.parent ny' = x /\ tree.length ny' = tree.length nx.
Proof.
  split; [reflexivity | split; [reflexivity | split; [exact newick_example_climbs |]]].
  apply (reroot_reverses_path newick_example "A-a" 3
           (tree.node "A-a" (b32_lit 50 10) true 2) [2%nat; 0%nat]);
    [reflexivity | reflexivity | exact newick_example_climbs].
Defined.

(** [reroot_rooted] at that tree. *)
Lemma reroot_rooted_witness :
  tree.rooted newick_example 0 /\
  tree.find_node newick_example "A-a" = Some 3%nat /\
  newick_example !! 3%nat = Some (tree.node "A-a" (b32_lit 50 10) true 2) /\
  (2 < Datatypes.length newick_example)%nat /\
  exists t' : list (tree.node_t (F:=spec_float)),
    tree.reroot newick_example "A-a" = Some (Ok t') /\ tree.rooted t' 2.
Proof.
  split; [exact newick_example_rooted |].
  split; [reflexivity | split; [reflexivity | split; [simpl; lia |]]].
  apply (reroot_rooted newick_example 0 "A-a" 3
           (tree.node "A-a" (b32_lit 50 10) true 2));
    [exact newick_example_rooted | reflexivity | reflexivity | simpl; lia].
Defined.

(** [reroot_twice] at that tree: the first call gives the tree the test
    case expects, the second gives it again. *)
Lemma reroot_twice_witness :
  tree.reroot newick_example "A-a" = Some (Ok rerooted_example) /\
  tree.reroot rerooted_example "A-a" = Some (Ok rerooted_example).
Proof.
  split; [vm_compute; reflexivity |].
  apply (reroot_twice newick_example rerooted_example "A-a").
  vm_compute. reflexivity.
Defined.

(** [distance_ref_path] at that tree, from the leaf [A-a] with the leaf
    [B_b] for reference: 5 + 5 on the way up, and 6. *)
Lemma distance_ref_path_witness :
  tree.climbs newick_example 3 [3%nat; 2%nat; 0%nat] /\
  newick_example !! 1%nat = Some (tree.node "B_b" (b32_lit 60 10) true 0) /\
  tree.distance_ref newick_example 1 3 =
  Some (fadd (tree.path_length newick_example [3%nat; 2%nat; 0%nat] (f_of_Z 0))
             (tree.length (tree.node "B_b" (b32_lit 60 10) true 0))).
Proof.
  assert (tree.climbs newick_example 3 [3%nat; 2%nat; 0%nat]) as Hclimbs.
  { eapply tree.climbs_step; [reflexivity | simpl; lia | exact newick_example_climbs]. }
  split; [exact Hclimbs | split; [reflexivity |]].
  apply (distance_ref_path newick_example 1 3
           (tree.node "B_b" (b32_lit 60 10) true 0) [3%nat; 2%nat; 0%nat]);
    [exact Hclimbs | reflexivity].
Defined.

Lemma distance_ref_example :
  tree.distance_ref newick_example 1 3 = Some (b32_of_Z 16).
Proof. vm_compute. reflexivity. Qed.

(** [parse_newick_reroot] at the text of the test cases. *)
Lemma parse_newick_reroot_witness :
  tree.parse_newick decimal_float newick_text = Some newick_example /\
  tree.find_node newick_example "A-a" = Some 3%nat /\
  exists t' : list (tree.node_t (F:=spec_float)),
    tree.reroot newick_example "A-a" = Some (Ok t') /\
    Datatypes.length t' = Datatypes.length newick_example /\
    forall ref' n, (ref' < Datatypes.length t')%nat -> (n < Datatypes.length t')%nat ->
                   is_Some (tree.distance_ref t' ref' n).
Proof.
  split; [exact newick_example_parsed | split; [reflexivity |]].
  apply (parse_newick_reroot decimal_float newick_text newick_example "A-a" 3);
    [exact newick_example_parsed | reflexivity].
Defined.

(** * Parsed trees: leaf flags and labels *)

Section ParsedTrees.

Context {F : Type} {FO : FloatOps F}.

#[local] Abbreviation node_t := (tree.node_t (F:=F)).
#[local] Abbreviation tree_t := (list node_t).

Lemma attach_lookup (val w : tree_t) j :
  tree.attach val w !! j =
  if decide (j < Datatypes.length val)%nat then val !! j
  else if decide (j = Datatypes.length val) then tree.set_parent 0 <$> w !! 0%nat
  else tree.shift_parent (Datatypes.length val) <$> w !! (j - Datatypes.length val)%nat.
Proof.
  rewrite attach_app. case_decide as Hj.
  - by rewrite lookup_app_l.
  - rewrite lookup_app_r by lia. rewrite list_lookup_alter.
    case_decide as Hj0; case_decide as Hj1; try lia.
    + replace (j - Datatypes.length val)%nat with 0%nat by lia.
      rewrite list_lookup_fmap. by destruct (w !! 0%nat).
    + by rewrite list_lookup_fmap.
Qed.

Lemma flagged_make_leaf lbl (len : F) : tree.flagged (tree.make_leaf lbl len).
Proof.
  split; [apply make_leaf_order | split].
  - intros i nd [| j] nj Hi Hleaf Hj Hp; [by simplify_eq/= | done].
  - intros [| i] nd Hi Hleaf; [by simplify_eq/= | done].
Qed.

Lemma flagged_attach (val w : tree_t) :
  tree.flagged_below val -> tree.flagged w ->
  tree.flagged_below (tree.attach val w) /\
  exists nj, tree.attach val w !! Datatypes.length val = Some nj /\
             tree.parent nj = 0%nat.
Proof.
  intros (Hord & (r & Hr & Hrleaf) & Hchildless & Hinner) (Hordw & Hchildlessw & Hinnerw).
  assert (0 < Datatypes.length val)%nat as Hpos by (by eapply lookup_lt_Some).
  destruct Hordw as [(r' & Hr' & Hpr') Hupw].
  assert (forall j nj, val !! j = Some nj -> (tree.parent nj < Datatypes.length val)%nat)
    as Hin_val.
  { intros [| j] nj Hj.
    - destruct Hord as [(r0 & Hr0 & Hp0) _]. simplify_eq. lia.
    - destruct Hord as [_ Hup]. apply lookup_lt_Some in Hj as Hlt.
      assert (tree.parent nj < S j)%nat by (eapply Hup; [lia | done]). lia. }
  split; [split; [| split; [| split]] |].
  - apply attach_order; [done | by split; eauto].
  - exists r. split; [| done]. rewrite attach_lookup. by rewrite decide_True.
  - intros i nd j nj. rewrite !attach_lookup.
    destruct (decide (i < Datatypes.length val)%nat) as [Hi | Hi];
      destruct (decide (j < Datatypes.length val)%nat) as [Hj | Hj].
    + apply Hchildless.
    + intros Hnd Hleaf Hnj Hp.
      assert (i <> 0)%nat by (intros ->; simplify_eq; congruence).
      case_decide as Hj0.
      * destruct (w !! 0%nat); simplify_eq/=; try lia.
      * destruct (w !! (j - Datatypes.length val)%nat); simplify_eq/=; try lia.
    + intros Hnd Hleaf Hnj Hp. apply Hin_val in Hnj. lia.
    + intros Hnd Hleaf Hnj Hp.
      destruct (decide (j = Datatypes.length val)) as [Hj0 | Hj0].
      { rewrite Hr' in Hnj. simplify_eq/=; try lia. }
      destruct (w !! (j - Datatypes.length val)%nat) as [wj |] eqn:Hwj;
        [| done].
      injection Hnj as <-. simpl in Hp.
      assert (exists wi, w !! (i - Datatypes.length val)%nat = Some wi /\
                         tree.is_leaf wi = true) as (wi & Hwi & Hwleaf).
      { case_decide as Hi0.
        - subst i. replace (Datatypes.length val - Datatypes.length val)%nat
            with 0%nat by lia.
          rewrite Hr' in Hnd |- *. simplify_eq/=. eauto.
        - destruct (w !! (i - Datatypes.length val)%nat) as [wi |]; [| done].
          simplify_eq/=. eauto. }
      assert (j - Datatypes.length val = i - Datatypes.length val)%nat
        by (eapply (Hchildlessw _ wi _ wj); [done | done | done | lia]).
      lia.
  - intros i Hi nd. rewrite attach_lookup.
    destruct (decide (i < Datatypes.length val)%nat) as [Hlt | Hge].
    + intros Hnd Hleaf. destruct (Hinner i Hi nd Hnd Hleaf) as (j & nj & Hj & Hij & Hp).
      exists j, nj. split; [| done]. rewrite attach_lookup.
      apply lookup_lt_Some in Hj as Hjlt. by rewrite decide_True.
    + intros Hnd Hleaf.
      assert (exists wi, w !! (i - Datatypes.length val)%nat = Some wi /\
                         tree.is_leaf wi = false) as (wi & Hwi & Hwleaf).
      { case_decide as Hi0.
        - subst i. replace (Datatypes.length val - Datatypes.length val)%nat
            with 0%nat by lia.
          rewrite Hr' in Hnd |- *. simplify_eq/=. eauto.
        - destruct (w !! (i - Datatypes.length val)%nat) as [wi |]; [| done].
          simplify_eq/=. eauto. }
      destruct (Hinnerw _ wi Hwi Hwleaf) as (k & wk & Hk & Hik & Hp).
      exists (Datatypes.length val + k)%nat, (tree.shift_parent (Datatypes.length val) wk).
      split; [| split; [lia | simpl; lia]].
      rewrite attach_lookup.
      rewrite decide_False by lia. rewrite decide_False by lia.
      replace (Datatypes.length val + k - Datatypes.length val)%nat with k by lia.
      by rewrite Hk.
  - exists (tree.set_parent 0 r'). split; [| done].
    rewrite attach_lookup. rewrite decide_False by lia.
    rewrite decide_True by done. by rewrite Hr'.
Qed.

Lemma flagged_make_inode (w : tree_t) (ws : list tree_t) lbl (len : F) :
  tree.flagged w -> Forall tree.flagged ws ->
  tree.flagged (tree.make_inode (w :: ws) lbl len).
Proof.
  intros Hw Hws. unfold tree.make_inode. simpl.
  assert (tree.flagged_below [tree.node lbl len false 0]) as Hroot.
  { split; [| split; [| split]].
    - split; [eexists; split; [reflexivity | done] |].
      intros [| i] nd Hi; [lia |]. by simpl.
    - eexists. split; [reflexivity | done].
    - intros [| i] nd j nj Hi Hleaf; [by simplify_eq/= | done].
    - intros [| i] Hi nd Hnd; [lia | done]. }
  destruct (flagged_attach _ w Hroot Hw) as (Hbelow & child & Hchild & Hparent).
  simpl in Hchild.
  assert (exists acc, acc = tree.attach [tree.node lbl len false 0] w /\
            tree.flagged_below acc /\ acc !! 1%nat = Some child) as (acc & <- & Hacc & H1)
    by eauto.
  clear Hbelow Hchild Hroot Hw. revert acc Hacc H1.
  induction ws as [| w' ws IH]; intros acc Hacc H1; simpl.
  - destruct Hacc as (Hord & _ & Hchildless & Hinner).
    split; [done | split; [done |]].
    intros [| i]; [| apply Hinner; lia].
    intros nd _ _. exists 1%nat, child. split; [done | split; [lia | done]].
  - apply Forall_cons in Hws as [Hw' Hws].
    apply IH; [done | by apply flagged_attach |].
    rewrite attach_lookup. apply lookup_lt_Some in H1 as Hlt.
    by rewrite decide_True.
Qed.

Lemma label_ok_set_parent p (nd : node_t) :
  tree.label_ok nd -> tree.label_ok (tree.set_parent p nd).
Proof. done. Qed.

Lemma label_ok_attach (val w : tree_t) :
  Forall tree.label_ok val -> Forall tree.label_ok w ->
  Forall tree.label_ok (tree.attach val w).
Proof.
  intros Hval Hw. rewrite attach_app. apply Forall_app. split; [done |].
  apply Forall_alter; [| by intros nd _; apply label_ok_set_parent].
  apply Forall_fmap. eapply Forall_impl; [exact Hw |].
  intros nd Hnd. by apply label_ok_set_parent.
Qed.

Lemma label_ok_make_inode (v : list tree_t) lbl (len : F) :
  Forall (fun c => tree.label_char c = true) (list_ascii_of_string lbl) ->
  Forall (Forall tree.label_ok) v ->
  Forall tree.label_ok (tree.make_inode v lbl len).
Proof.
  intros Hlbl. unfold tree.make_inode.
  assert (Forall tree.label_ok [tree.node lbl len false 0]) as Hroot.
  { apply Forall_singleton. split; [done | by simpl]. }
  revert Hroot. generalize [tree.node lbl len false 0] as acc.
  induction v as [| w v IH]; intros acc Hacc Hv; simpl; [done |].
  apply Forall_cons in Hv as [Hw Hv]. apply IH; [by apply label_ok_attach | done].
Qed.

Lemma span_label_chars s l r :
  tree.span_label s = (l, r) -> Forall (fun c => tree.label_char c = true) l.
Proof.
  revert l r. induction s as [| c s IH]; intros l r; simpl; [by intros [= <- _] |].
  destruct (tree.label_char c) eqn:Hc; [| by intros [= <- _]].
  destruct (tree.span_label s) as [l' r'].
  intros [= <- _]. apply Forall_cons. split; [done | by eapply IH].
Qed.

Lemma parse_label_chars s lbl r :
  tree.parse_label s = Some (lbl, r) ->
  Forall (fun c => tree.label_char c = true) (list_ascii_of_string lbl) /\
  lbl <> EmptyString.
Proof.
  unfold tree.parse_label.
  destruct (tree.span_label s) as [l r'] eqn:Hspan.
  apply span_label_chars in Hspan.
  destruct l as [| c l]; [done |]. intros [= <- _].
  simpl. rewrite list_ascii_of_string_of_list_ascii. done.
Qed.

Lemma parse_ilabel_chars s lbl r :
  tree.parse_ilabel s = (lbl, r) ->
  Forall (fun c => tree.label_char c = true) (list_ascii_of_string lbl).
Proof.
  unfold tree.parse_ilabel.
  destruct (tree.parse_label s) as [[l r'] |] eqn:Hl.
  - intros [= <- _]. by apply parse_label_chars in Hl as [? _].
  - intros [= <- _]. constructor.
Qed.

Variable float_ : list ascii -> option (F * list ascii).

(** What holds of every leaf the grammar makes, and is kept by
    [make_inode], holds of every parsed tree. *)
Lemma parse_node_builds (P : tree_t -> Prop) :
  (forall s lbl r len, tree.parse_label s = Some (lbl, r) -> P (tree.make_leaf lbl len)) ->
  (forall w ws s lbl r len,
     P w -> Forall P ws -> tree.parse_ilabel s = (lbl, r) ->
     P (tree.make_inode (w :: ws) lbl len)) ->
  forall fuel s t r, tree.parse_node float_ fuel s = Some (t, r) -> P t.
Proof.
  intros Hleaf Hinode.
  assert (forall n p s ws r,
            (forall s' t' r', p s' = Some (t', r') -> P t') ->
            tree.parse_more n p s = (ws, r) -> Forall P ws) as Hmore.
  { intros n p. induction n as [| n IH]; intros s ws r Hp; simpl.
    - intros [= <- _]. constructor.
    - destruct s as [| c s1]; [intros [= <- _]; constructor |].
      destruct (Ascii.eqb_spec c ","%char) as [-> | Hc].
      + destruct (p s1) as [[w s2] |] eqn:Hw; [| intros [= <- _]; constructor].
        destruct (tree.parse_more n p s2) as [ws' r'] eqn:Hm.
        intros [= <- _]. constructor; [by eapply Hp | by eapply IH].
      + intros Heq. assert (ws = []) as ->; [| constructor].
        destruct c as [[] [] [] [] [] [] [] []];
          first [by destruct Hc | by injection Heq as <- _]. }
  induction fuel as [| fuel IH]; intros s t r; simpl; [done |].
  unfold tree.parse_leaf.
  destruct (tree.parse_label s) as [[lbl s1] |] eqn:Hlbl.
  - destruct (tree.parse_length float_ s1) as [len s2].
    intros [= <- _]. by eapply Hleaf.
  - destruct s as [| c s1]; [done |].
    destruct (Ascii.eqb_spec c "("%char) as [-> | Hc].
    + destruct (tree.parse_node float_ fuel s1) as [[w s2] |] eqn:Hw; [| done].
      destruct (tree.parse_more _ _ s2) as [ws s3] eqn:Hm.
      destruct s3 as [| c3 s4]; [done |].
      destruct (Ascii.eqb_spec c3 ")"%char) as [-> | Hc3].
      * destruct (tree.parse_ilabel s4) as [lbl s5] eqn:Hil.
        destruct (tree.parse_length float_ s5) as [len s6].
        intros [= <- _]. eapply Hinode; [by eapply IH | | exact Hil].
        eapply Hmore; [| exact Hm]. intros s' t' r'. apply IH.
      * destruct c3 as [[] [] [] [] [] [] [] []]; try done.
    + destruct c as [[] [] [] [] [] [] [] []]; try done.
Qed.

Lemma parse_newick_builds (P : tree_t -> Prop) :
  (forall s lbl r len, tree.parse_label s = Some (lbl, r) -> P (tree.make_leaf lbl len)) ->
  (forall w ws s lbl r len,
     P w -> Forall P ws -> tree.parse_ilabel s = (lbl, r) ->
     P (tree.make_inode (w :: ws) lbl len)) ->
  forall content t, tree.parse_newick float_ content = Some t -> P t.
Proof.
  intros Hleaf Hinode content t. unfold tree.parse_newick, tree.parse_tree.
  set (s := filter _ _).
  destruct (tree.parse_node float_ _ s) as [[t0 r0] |] eqn:Hn; [| done].
  apply (parse_node_builds P Hleaf Hinode) in Hn.
  destruct r0 as [| c r0]; [by intros [= <-] |].
  destruct (Ascii.eqb_spec c ";"%char) as [-> | Hc].
  - destruct r0; [by intros [= <-] | done].
  - destruct c as [[] [] [] [] [] [] [] []]; try done.
Qed.

Lemma parse_newick_flagged content (t : tree_t) :
  tree.parse_newick float_ content = Some t -> tree.flagged t.
Proof.
  apply (parse_newick_builds tree.flagged).
  - intros. apply flagged_make_leaf.
  - intros. by apply flagged_make_inode.
Qed.

(** X8.  In a parsed tree the leaf flags agree with the parent links: a
    node is flagged a leaf exactly when no other node has it for its
    parent. *)
Theorem parse_newick_leaf_flags (content : string) (t : tree_t) (i : nat) (nd : node_t) :
  tree.parse_newick float_ content = Some t ->
  t !! i = Some nd ->
  tree.is_leaf nd = true <->
  forall j nj, t !! j = Some nj -> tree.parent nj = i -> j = i.
Proof.
  intros Hparse Hnd.
  destruct (parse_newick_flagged _ _ Hparse) as (_ & Hchildless & Hinner).
  split.
  - intros Hleaf j nj Hj Hp. by eapply Hchildless.
  - intros Halone. destruct (tree.is_leaf nd) eqn:Hleaf; [done |].
    destruct (Hinner i nd Hnd Hleaf) as (j & nj & Hj & Hij & Hp).
    specialize (Halone j nj Hj Hp). lia.
Qed.

(** X9.  In a parsed tree every label is made of the characters the grammar
    allows in a label, and the label of a leaf is not empty. *)
Theorem parse_newick_labels (content : string) (t : tree_t) (nd : node_t) :
  tree.parse_newick float_ content = Some t ->
  nd ∈ t ->
  Forall (fun c => tree.label_char c = true) (list_ascii_of_string (tree.label nd)) /\
  (tree.is_leaf nd = true -> tree.label nd <> EmptyString).
Proof.
  intros Hparse Hin.
  assert (Forall tree.label_ok t) as Hall.
  { revert Hparse. apply (parse_newick_builds (Forall tree.label_ok)).
    - intros s lbl r len Hl. apply parse_label_chars in Hl as [Hc Hne].
      apply Forall_singleton. split; [done | by intros _].
    - intros w ws s lbl r len Hw Hws Hil.
      apply label_ok_make_inode; [by eapply parse_ilabel_chars | by constructor]. }
  rewrite Forall_forall in Hall. by apply Hall.
Qed.

End ParsedTrees.

(** [parse_newick_leaf_flags] at the tree of the test cases and its node
    [Ancestor]. *)
Lemma parse_newick_leaf_flags_witness :
  tree.parse_newick decimal_float newick_text = Some newick_example /\
  newick_example !! 2%nat = Some (tree.node "Ancestor" (b32_lit 50 10) false 0) /\
  (tree.is_leaf (tree.node "Ancestor" (b32_lit 50 10) false 0) = true <->
   forall j nj, newick_example !! j = Some nj -> tree.parent nj = 2%nat -> j = 2%nat).
Proof.
  split; [exact newick_example_parsed | split; [reflexivity |]].
  apply (parse_newick_leaf_flags decimal_float newick_text newick_example 2);
    [exact newick_example_parsed | reflexivity].
Defined.

(** [parse_newick_labels] at that tree and its leaf [D%]. *)
Lemma parse_newick_labels_witness :
  tree.parse_newick decimal_float newick_text = Some newick_example /\
  tree.node "D%" (b32_lit 110 10) true 0 ∈ newick_example /\
  Forall (fun c => tree.label_char c = true) (list_ascii_of_string "D%") /\
  (true = true -> "D%" <> EmptyString).
Proof.
  assert (tree.node "D%" (b32_lit 110 10) true 0 ∈ newick_example) as Hin.
  { apply (list_elem_of_lookup_2 _ 6%nat). reflexivity. }
  split; [exact newick_example_parsed | split; [exact Hin |]].
  apply (parse_newick_labels decimal_float newick_text newick_example
           (tree.node "D%" (b32_lit 110 10) true 0));
    [exact newick_example_parsed | exact Hin].
Defined.

(** * The order of alignment *)

Section AlnOrder.

Context {F : Type} {FO : FloatOps F}.

#[local] Abbreviation node_t := (tree.node_t (F:=F)).
#[local] Abbreviation tree_t := (list node_t).

(** ** The lists of children *)

Lemma fill_children_fold (t : tree_t) (idxs seen : list nat) (cur : tree_t) :
  (forall p, cur !! p =
     tree.add_children
       (List.filter (fun i => match t !! i with
                              | Some nd => Nat.eqb (tree.parent nd) p
                              | None => false
                              end) seen) <$> t !! p) ->
  forall p,
    fold_left (fun t i =>
                 match t !! i with
                 | Some nd => alter (tree.add_child i) (tree.parent nd) t
                 | None => t
                 end) idxs cur !! p =
    tree.add_children
      (List.filter (fun i => match t !! i with
                             | Some nd => Nat.eqb (tree.parent nd) p
                             | None => false
                             end) (seen ++ idxs)) <$> t !! p.
Proof.
  revert seen cur. induction idxs as [| i idxs IH]; intros seen cur Hcur p; simpl.
  - by rewrite app_nil_r.
  - replace (seen ++ i :: idxs) with ((seen ++ [i]) ++ idxs)
      by (by rewrite <- app_assoc).
    apply IH. clear p. intros p. rewrite List.filter_app. simpl.
    pose proof (Hcur i) as Hi.
    destruct (t !! i) as [nd |] eqn:Hnd; simpl in Hi; rewrite Hi.
    + change (tree.parent (tree.add_children _ nd)) with (tree.parent nd).
      rewrite list_lookup_alter. rewrite Hcur.
      destruct (Nat.eqb_spec (tree.parent nd) p) as [-> | Hne].
      * rewrite decide_True by done.
        destruct (t !! p) as [np |]; simpl; [| done].
        unfold tree.add_child, tree.add_children. simpl. by rewrite app_assoc.
      * rewrite decide_False by done. by rewrite app_nil_r.
    + rewrite Hcur. by rewrite app_nil_r.
Qed.

Lemma fill_children_lookup (t : tree_t) (p : nat) :
  tree.fill_children t !! p = tree.add_children (tree.children_of t p) <$> t !! p.
Proof.
  unfold tree.fill_children, tree.children_of.
  apply (fill_children_fold t _ []). intros q. simpl.
  destruct (t !! q) as [[lbl len leaf par ch] |]; simpl; [| done].
  unfold tree.add_children. simpl. by rewrite app_nil_r.
Qed.

Lemma elem_of_children_of (t : tree_t) (p c : nat) :
  c ∈ tree.children_of t p <->
  (0 < c)%nat /\ exists nc, t !! c = Some nc /\ tree.parent nc = p.
Proof.
  unfold tree.children_of.
  rewrite list_elem_of_In, List.filter_In, in_seq.
  split.
  - intros [Hc Hp]. destruct (t !! c) as [nc |] eqn:Hnc; [| done].
    apply Nat.eqb_eq in Hp. split; [lia | eauto].
  - intros [Hc (nc & Hnc & Hp)]. rewrite Hnc. split.
    + apply lookup_lt_Some in Hnc. lia.
    + by apply Nat.eqb_eq.
Qed.

(** X10.  The first loop of [aln_order] appends to the children of every
    node [p] the nodes after node 0 whose parent is [p], in increasing
    order, and changes nothing else; node 0 is listed nowhere. *)
Theorem fill_children_lists (t : tree_t) (p : nat) :
  tree.fill_children t !! p = tree.add_children (tree.children_of t p) <$> t !! p /\
  (forall c, c ∈ tree.children_of t p <->
     (0 < c)%nat /\ exists nc, t !! c = Some nc /\ tree.parent nc = p).
Proof.
  split; [apply fill_children_lookup |].
  intros c. apply elem_of_children_of.
Qed.

(** ** The loop over the tree *)

Lemma visit_leaf_inv (t : tree_t) st c :
  tree.order_inv t st ->
  tree.order_inv t (tree.visit_leaf t st c) /\
  tree.ancestor (tree.visit_leaf t st c) = tree.ancestor st.
Proof.
  intros (Hlen & Hvis & Hcount & Hanc). unfold tree.visit_leaf.
  destruct (tree.visited st !! c) as [[|] |] eqn:Hc; try done.
  destruct (t !! c) as [nc |] eqn:Hnc; try done.
  destruct (tree.is_leaf nc) eqn:Hleaf; try done.
  assert (c ∉ (tree.order_list st).*1) as Hnew.
  { intros Hin. apply Hvis in Hin; [congruence | by exists nc]. }
  split; [| done]. split; [| split; [| split]]; simpl.
  - by rewrite length_insert.
  - intros c' Hc'. rewrite fmap_app, elem_of_app. simpl.
    destruct (decide (c' = c)) as [-> | Hne].
    + rewrite list_lookup_insert_eq by (by eapply lookup_lt_Some).
      split; [intros _; right; by left | done].
    + rewrite list_lookup_insert_ne by done. rewrite (Hvis c' Hc').
      split; [by left |]. intros [Hin | Hin]; [done |].
      apply list_elem_of_singleton in Hin. done.
  - intros c' Hc'. rewrite fmap_app, count_occ_app. simpl.
    destruct (Nat.eq_dec c c') as [<- | Hne].
    + rewrite (proj1 (count_occ_not_In Nat.eq_dec _ c)); [lia |].
      by rewrite <- list_elem_of_In.
    + specialize (Hcount c' Hc'). lia.
  - done.
Qed.

Lemma visit_leaves_inv (t : tree_t) cs st :
  tree.order_inv t st ->
  tree.order_inv t (fold_left (tree.visit_leaf t) cs st) /\
  tree.ancestor (fold_left (tree.visit_leaf t) cs st) = tree.ancestor st.
Proof.
  revert st. induction cs as [| c cs IH]; intros st Hst; simpl; [done |].
  destruct (visit_leaf_inv t st c Hst) as [Hst' Hanc].
  destruct (IH _ Hst') as [Hfin Hanc']. split; [done | congruence].
Qed.

Lemma order_step_inv (t : tree_t) st st' :
  tree.parents_inner t -> tree.order_inv t st ->
  tree.order_step t st = Some st' -> tree.order_inv t st'.
Proof.
  intros Ht Hst. unfold tree.order_step.
  destruct (t !! tree.ancestor st) as [na |] eqn:Hna; simpl; [| done].
  destruct (visit_leaves_inv t (tree.children na) st Hst) as [Hst1 Hanc1].
  set (st1 := fold_left (tree.visit_leaf t) (tree.children na) st) in *.
  destruct Hst1 as (Hlen & Hvis & Hcount & Hanc).
  destruct (existsb _ (tree.children na)).
  - destruct (List.find _ (tree.children na)) as [c |] eqn:Hfind.
    + apply List.find_some in Hfind as [_ Hc]. unfold tree.unvisited_inode in Hc.
      destruct (tree.visited st1 !! c) as [b |]; [| done].
      destruct (t !! c) as [nc |] eqn:Hnc; [| done]. simpl.
      apply andb_true_iff in Hc as [_ Hinner]. apply negb_true_iff in Hinner.
      intros [= <-]. split; [| split; [| split]]; simpl.
      * by rewrite length_insert.
      * intros c' Hc'. rewrite list_lookup_insert_ne; [by apply Hvis |].
        intros ->. destruct Hc' as (nc' & Hnc' & Hleaf'). congruence.
      * done.
      * intros na'. rewrite Hnc. by intros [= <-].
    + by intros [= <-].
  - intros [= <-]. split; [| split; [| split]]; simpl.
    + by rewrite length_insert.
    + intros c' Hc'. rewrite list_lookup_insert_ne; [by apply Hvis |].
      intros Heq. destruct Hc' as (nc' & Hnc' & Hleaf').
      rewrite Hanc1 in Heq. rewrite <- Heq, Hna in Hnc'.
      injection Hnc' as <-. rewrite (Hanc na) in Hleaf'; [done |].
      by rewrite Hanc1.
    + done.
    + intros np Hnp. exact (Ht _ na np Hna Hnp).
Qed.

Lemma existsb_negb_false (vis : list bool) c :
  existsb negb vis = false -> (c < Datatypes.length vis)%nat -> vis !! c = Some true.
Proof.
  intros Hall Hc. destruct (lookup_lt_is_Some_2 vis c Hc) as [b Hb].
  destruct b; [done |].
  assert (existsb negb vis = true); [| congruence].
  apply existsb_exists. exists false. split; [| done].
  apply list_elem_of_In. by eapply list_elem_of_lookup_2.
Qed.

(** When the loop ends, every leaf has been listed, once. *)
Lemma order_loop_leaves (t : tree_t) fuel st order :
  tree.parents_inner t -> tree.order_inv t st ->
  tree.order_loop fuel t st = Some order ->
  forall c, tree.leaf_at t c -> count_occ Nat.eq_dec order.*1 c = 1%nat.
Proof.
  intros Ht. revert st. induction fuel as [| fuel IH]; intros st Hst; simpl.
  - destruct (existsb negb (tree.visited st)) eqn:Hall; [done |].
    intros [= <-] c Hc. destruct Hst as (Hlen & Hvis & Hcount & _).
    assert (c ∈ (tree.order_list st).*1) as Hin.
    { apply Hvis; [done |]. apply existsb_negb_false; [done |].
      rewrite Hlen. destruct Hc as (nc & Hnc & _). by eapply lookup_lt_Some. }
    apply list_elem_of_In, (count_occ_In Nat.eq_dec) in Hin.
    specialize (Hcount c Hc). lia.
  - destruct (existsb negb (tree.visited st)) eqn:Hall.
    + destruct (tree.order_step t st) as [st' |] eqn:Hstep; simpl; [| done].
      apply IH. by eapply order_step_inv.
    + intros [= <-] c Hc. destruct Hst as (Hlen & Hvis & Hcount & _).
      assert (c ∈ (tree.order_list st).*1) as Hin.
      { apply Hvis; [done |]. apply existsb_negb_false; [done |].
        rewrite Hlen. destruct Hc as (nc & Hnc & _). by eapply lookup_lt_Some. }
      apply list_elem_of_In, (count_occ_In Nat.eq_dec) in Hin.
      specialize (Hcount c Hc). lia.
Qed.

(** ** The closest pair *)

Lemma closest_pair_cases (flt_max : F) (t : tree_t) :
  tree.sibling_pair t (fst (tree.closest flt_max t)).
Proof.
  unfold tree.closest.
  apply (fold_left_keeps (fun st : (nat * nat) * F => tree.sibling_pair t (fst st)));
    [| by left].
  intros st i _ Hst. unfold tree.closest_at.
  destruct (t !! i) as [ni |] eqn:Hni; [| done].
  destruct (Datatypes.length (tree.children ni) =? 0)%nat; [done |].
  revert st Hst.
  apply (fold_left_keeps (fun st : (nat * nat) * F => tree.sibling_pair t (fst st))).
  intros st j _ Hst. revert st Hst.
  apply (fold_left_keeps (fun st : (nat * nat) * F => tree.sibling_pair t (fst st))).
  intros st k Hk Hst.
  apply elem_of_seq in Hk.
  destruct (tree.children ni !! j) as [cj |] eqn:Hcj; [| done].
  destruct (tree.children ni !! k) as [ck |] eqn:Hck; [| done].
  unfold tree.closer.
  destruct (t !! cj) as [nj |]; [| done]. destruct (t !! ck) as [nk |]; [| done].
  destruct (negb _); [done |].
  destruct (fltb _ _); [| done].
  right. exists i, ni, j, k. simpl. split; [done | split; [lia | done]].
Qed.

(** ** Every leaf is listed once *)

Lemma children_of_NoDup (t : tree_t) p : NoDup (tree.children_of t p).
Proof.
  unfold tree.children_of.
  apply NoDup_ListNoDup, List.NoDup_filter, NoDup_ListNoDup, NoDup_seq.
Qed.

Lemma aln_order_lists_leaves (flt_max : F) (fuel : nat) (tree : tree_t)
    (order : list (nat * F)) :
  tree.parents_inner tree ->
  (forall n0, tree !! 0%nat = Some n0 -> tree.is_leaf n0 = false) ->
  (forall nd, nd ∈ tree -> tree.children nd = []) ->
  tree.aln_order flt_max fuel tree = Some order ->
  forall c nc, tree !! c = Some nc -> tree.is_leaf nc = true ->
               count_occ Nat.eq_dec order.*1 c = 1%nat.
Proof.
  intros Hinner Hroot Hempty. unfold tree.aln_order.
  set (t := tree.fill_children tree).
  assert (forall p, t !! p = tree.add_children (tree.children_of tree p) <$> tree !! p)
    as Ht by apply fill_children_lookup.
  assert (forall c, tree.leaf_at t c <-> tree.leaf_at tree c) as Hleaf.
  { intros c. unfold tree.leaf_at. rewrite Ht. split.
    - intros (nc & Hnc & Hl). destruct (tree !! c) as [nc0 |]; [| done].
      simplify_eq/=. eauto.
    - intros (nc & Hnc & Hl). rewrite Hnc. simpl. eauto. }
  assert (tree.parents_inner t) as Hinner_t.
  { intros j nj np. rewrite !Ht.
    destruct (tree !! j) as [nj0 |] eqn:Hj; [| done]. intros [= <-]. simpl.
    destruct (tree !! tree.parent nj0) as [np0 |] eqn:Hp; [| done].
    intros [= <-]. simpl. exact (Hinner _ nj0 np0 Hj Hp). }
  assert (Datatypes.length t = Datatypes.length tree) as Hlen.
  { apply Nat.le_antisymm; apply Nat.nlt_ge; intros Hlt.
    - destruct (lookup_lt_is_Some_2 t (Datatypes.length tree)) as [x Hx]; [lia |].
      rewrite Ht in Hx. by rewrite lookup_ge_None_2 in Hx.
    - destruct (lookup_lt_is_Some_2 tree (Datatypes.length t)) as [x Hx]; [lia |].
      pose proof (Ht (Datatypes.length t)) as Hl. rewrite Hx in Hl.
      by rewrite lookup_ge_None_2 in Hl. }
  destruct (tree.closest flt_max t) as [[f s] d] eqn:Hclosest. simpl.
  destruct (t !! f) as [first |] eqn:Hfirst; simpl; [| done].
  destruct (t !! s) as [second |] eqn:Hsecond; simpl; [| done].
  intros Hloop c nc Hc Hcleaf.
  assert (f <> s \/ ~ tree.leaf_at t f) as Hpair.
  { pose proof (closest_pair_cases flt_max t) as Hcases. rewrite Hclosest in Hcases.
    destruct Hcases as [[= -> ->] | (i & ni & j & k & Hi & Hjk & Hj & Hk)];
      simpl in *.
    - right. rewrite Hleaf. intros (n0 & Hn0 & Hl). by rewrite (Hroot n0) in Hl.
    - left. intros ->.
      rewrite Ht in Hi. destruct (tree !! i) as [ni0 |] eqn:Hi0; [| done].
      injection Hi as <-. simpl in Hj, Hk.
      rewrite (Hempty ni0) in Hj, Hk by (by eapply list_elem_of_lookup_2).
      simpl in Hj, Hk.
      pose proof (NoDup_lookup _ _ _ _ (children_of_NoDup tree i) Hj Hk). lia. }
  eapply order_loop_leaves;
    [exact Hinner_t | | exact Hloop | apply Hleaf; by exists nc].
  apply lookup_lt_Some in Hfirst as Hf. apply lookup_lt_Some in Hsecond as Hs.
  split; [| split; [| split]]; simpl.
  - by rewrite !length_insert, length_replicate.
  - intros c' Hc'.
    rewrite !elem_of_cons, elem_of_nil.
    destruct (decide (c' = f)) as [-> | Hnf].
    { rewrite list_lookup_insert_eq
        by (by rewrite length_insert, length_replicate). tauto. }
    rewrite list_lookup_insert_ne by done.
    destruct (decide (c' = s)) as [-> | Hns].
    { rewrite list_lookup_insert_eq by (by rewrite length_replicate). tauto. }
    rewrite list_lookup_insert_ne by done.
    split; [| tauto]. intros Hrep. apply lookup_replicate in Hrep as [? _]. done.
  - intros c' Hc'.
    destruct (Nat.eq_dec f c') as [-> | Hnf];
      destruct (Nat.eq_dec s c') as [-> | Hns]; try lia.
    destruct Hpair as [Hne | Hnl]; [done | by destruct Hnl].
  - intros na Hna. exact (Hinner_t _ second na Hsecond Hna).
Qed.

Lemma flagged_parents_inner (t : tree_t) :
  tree.flagged t -> (1 < Datatypes.length t)%nat ->
  tree.parents_inner t /\
  forall n0, t !! 0%nat = Some n0 -> tree.is_leaf n0 = false.
Proof.
  intros ([(r & Hr & Hpr) Hup] & Hchildless & _) Hlen.
  assert (tree.is_leaf r = false) as Hroot.
  { destruct (tree.is_leaf r) eqn:Hleaf; [| done].
    destruct (lookup_lt_is_Some_2 t 1 Hlen) as [n1 Hn1].
    assert (tree.parent n1 < 1)%nat by (eapply Hup; [lia | done]).
    assert (1 = 0)%nat; [| lia].
    eapply (Hchildless 0%nat r 1%nat n1); [done | done | done | lia]. }
  split; [| intros n0 Hn0; congruence].
  intros j nj np Hj Hp.
  destruct (tree.is_leaf np) eqn:Hleaf; [| done].
  assert (j = tree.parent nj) as Hself
    by (eapply (Hchildless _ np j nj); done).
  destruct j as [| j]; [congruence |].
  assert (tree.parent nj < S j)%nat by (eapply Hup; [lia | done]). lia.
Qed.

Lemma children_empty_attach (val w : tree_t) :
  Forall (fun nd => tree.children nd = []) val ->
  Forall (fun nd => tree.children nd = []) w ->
  Forall (fun nd => tree.children nd = []) (tree.attach val w).
Proof.
  intros Hval Hw. rewrite attach_app. apply Forall_app. split; [done |].
  apply Forall_alter; [| by intros nd _].
  apply Forall_fmap. eapply Forall_impl; [exact Hw |]. by intros nd.
Qed.

Variable float_ : list ascii -> option (F * list ascii).

Lemma parse_newick_children content (t : tree_t) :
  tree.parse_newick float_ content = Some t ->
  Forall (fun nd => tree.children nd = []) t.
Proof.
  apply (parse_newick_builds float_ (Forall (fun nd => tree.children nd = []))).
  - intros. by apply Forall_singleton.
  - intros w ws s lbl r len Hw Hws _. unfold tree.make_inode.
    assert (Forall (fun nd : node_t => tree.children nd = [])
              [tree.node lbl len false 0]) as Hroot by (by apply Forall_singleton).
    revert Hroot. generalize [tree.node lbl len false 0] as acc.
    assert (Forall (Forall (fun nd : node_t => tree.children nd = [])) (w :: ws))
      as Hv by (by constructor).
    revert Hv. generalize (w :: ws) as v. clear.
    induction v as [| w v IH]; intros Hv acc Hacc; simpl; [done |].
    apply Forall_cons in Hv as [Hw Hv].
    apply IH; [done | by apply children_empty_attach].
Qed.

(** X11.  For a parsed tree of more than one node: whenever [aln_order]
    returns, the list it has filled names every leaf of the tree exactly
    once. *)
Theorem aln_order_leaves (content : string) (t : tree_t) (flt_max : F) (fuel : nat)
    (order : list (nat * F)) :
  tree.parse_newick float_ content = Some t ->
  (1 < Datatypes.length t)%nat ->
  tree.aln_order flt_max fuel t = Some order ->
  forall c nc, t !! c = Some nc -> tree.is_leaf nc = true ->
               count_occ Nat.eq_dec order.*1 c = 1%nat.
Proof.
  intros Hparse Hlen Horder.
  destruct (flagged_parents_inner t (parse_newick_flagged float_ _ _ Hparse) Hlen)
    as [Hinner Hroot].
  apply (aln_order_lists_leaves flt_max fuel t order); try done.
  pose proof (parse_newick_children _ _ Hparse) as Hch.
  rewrite Forall_forall in Hch. exact Hch.
Qed.

End AlnOrder.

(** The test case of [aln_order]. *)
Lemma aln_order_example :
  tree.aln_order b32_max 20 newick_example =
  Some [(4%nat, b32_of_Z 0); (5%nat, b32_of_Z 7); (3%nat, b32_of_Z 5);
        (1%nat, b32_of_Z 11); (6%nat, b32_of_Z 11)].
Proof. vm_compute. reflexivity. Qed.

(** [aln_order_leaves] at the tree of the test cases. *)
Lemma aln_order_leaves_witness :
  tree.parse_newick decimal_float newick_text = Some newick_example /\
  (1 < Datatypes.length newick_example)%nat /\
  tree.aln_order b32_max 20 newick_example =
    Some [(4%nat, b32_of_Z 0); (5%nat, b32_of_Z 7); (3%nat, b32_of_Z 5);
          (1%nat, b32_of_Z 11); (6%nat, b32_of_Z 11)] /\
  forall c nc, newick_example !! c = Some nc -> tree.is_leaf nc = true ->
               count_occ Nat.eq_dec [4%nat; 5%nat; 3%nat; 1%nat; 6%nat] c = 1%nat.
Proof.
  split; [exact newick_example_parsed | split; [simpl; lia |]].
  split; [exact aln_order_example |].
  apply (aln_order_leaves decimal_float newick_text newick_example b32_max 20
           [(4%nat, b32_of_Z 0); (5%nat, b32_of_Z 7); (3%nat, b32_of_Z 5);
            (1%nat, b32_of_Z 11); (6%nat, b32_of_Z 11)]);
    [exact newick_example_parsed | simpl; lia | exact aln_order_example].
Defined.

(** * The loop of [aln_order] ends *)

Lemma unvisited_count_insert (vis : list bool) (c : nat) :
  vis !! c = Some false ->
  S (tree.unvisited_count (<[c := true]> vis)) = tree.unvisited_count vis.
Proof.
  unfold tree.unvisited_count. revert c.
  induction vis as [| b vis IH]; intros [| c] Hc; simpl in *; try done.
  - by injection Hc as ->.
  - destruct b; simpl; by rewrite <- (IH c Hc).
Qed.

Lemma unvisited_count_insert_le (vis : list bool) (c : nat) :
  (tree.unvisited_count (<[c := true]> vis) <= tree.unvisited_count vis)%nat.
Proof.
  unfold tree.unvisited_count. revert c.
  induction vis as [| b vis IH]; intros [| c]; simpl; try done.
  - destruct b; simpl; lia.
  - specialize (IH c). destruct b; simpl; lia.
Qed.

Lemma unvisited_count_le (vis : list bool) :
  (tree.unvisited_count vis <= Datatypes.length vis)%nat.
Proof. unfold tree.unvisited_count. apply List.filter_length_le. Qed.

Lemma unvisited_count_pos (vis : list bool) :
  existsb negb vis = true -> (0 < tree.unvisited_count vis)%nat.
Proof.
  unfold tree.unvisited_count.
  induction vis as [| [|] vis IH]; simpl; [done | done | lia].
Qed.

Lemma all_visited (vis : list bool) :
  (forall j, (j < Datatypes.length vis)%nat -> vis !! j = Some true) ->
  existsb negb vis = false.
Proof.
  induction vis as [| b vis IH]; intros Hall; simpl; [done |].
  pose proof (Hall 0%nat ltac:(simpl; lia)) as H0. simpl in H0.
  injection H0 as ->. simpl. apply IH. intros j Hj.
  apply (Hall (S j)). simpl. lia.
Qed.

Section AlnOrderEnds.

Context {F : Type} {FO : FloatOps F}.

#[local] Abbreviation node_t := (tree.node_t (F:=F)).
#[local] Abbreviation tree_t := (list node_t).

(** ** The loop over the children *)

Lemma visit_leaf_visited (t : tree_t) st c x :
  tree.visited st !! x = Some true ->
  tree.visited (tree.visit_leaf t st c) !! x = Some true.
Proof.
  intros Hx. unfold tree.visit_leaf.
  destruct (tree.visited st !! c) as [[|] |] eqn:Hc; try done.
  destruct (t !! c) as [nc |]; try done.
  destruct (tree.is_leaf nc); try done. simpl.
  destruct (decide (x = c)) as [-> | Hne]; [congruence |].
  by rewrite list_lookup_insert_ne.
Qed.

Lemma visit_leaf_walks (t : tree_t) st c :
  tree.leaves_childless t -> tree.walk_inv t st ->
  tree.walk_inv t (tree.visit_leaf t st c) /\
  tree.ancestor (tree.visit_leaf t st c) = tree.ancestor st /\
  (tree.unvisited_count (tree.visited (tree.visit_leaf t st c))
     <= tree.unvisited_count (tree.visited st))%nat /\
  (forall nc, t !! c = Some nc -> tree.is_leaf nc = true ->
     tree.visited (tree.visit_leaf t st c) !! c = Some true).
Proof.
  intros Hleaves (Hlen & Hanc & Hinv). unfold tree.visit_leaf.
  destruct (tree.visited st !! c) as [[|] |] eqn:Hc.
  - split; [done | split; [done | split; [lia | done]]].
  - destruct (t !! c) as [nc |] eqn:Hnc.
    + destruct (tree.is_leaf nc) eqn:Hleaf.
      * simpl. split; [| split; [done | split]].
        -- unfold tree.walk_inv. simpl.
           split; [by rewrite length_insert | split; [done |]].
           intros v c' nc' Hv Hpos Hc' Hpar.
           destruct (decide (v = c)) as [-> | Hne].
           ++ left. assert (c' = c) as -> by (by eapply (Hleaves c nc c' nc')).
              done.
           ++ rewrite list_lookup_insert_ne in Hv by done.
              destruct (Hinv v c' nc' Hv Hpos Hc' Hpar) as [Hvis | Habove];
                [left | by right].
              destruct (decide (c' = c)) as [-> | Hne']; [congruence |].
              by rewrite list_lookup_insert_ne.
        -- apply unvisited_count_insert_le.
        -- intros _ _ _. apply list_lookup_insert_eq. by eapply lookup_lt_Some.
      * split; [done | split; [done | split; [lia |]]].
        intros nc' [= <-]. congruence.
    + split; [done | split; [done | split; [lia | done]]].
  - apply lookup_ge_None in Hc.
    split; [done | split; [done | split; [lia |]]].
    intros nc Hnc. apply lookup_lt_Some in Hnc. lia.
Qed.

Lemma visit_leaves_walks (t : tree_t) cs st :
  tree.leaves_childless t -> tree.walk_inv t st ->
  let st1 := fold_left (tree.visit_leaf t) cs st in
  tree.walk_inv t st1 /\
  tree.ancestor st1 = tree.ancestor st /\
  (tree.unvisited_count (tree.visited st1)
     <= tree.unvisited_count (tree.visited st))%nat /\
  (forall c nc, c ∈ cs -> t !! c = Some nc -> tree.is_leaf nc = true ->
     tree.visited st1 !! c = Some true).
Proof.
  intros Hleaves. revert st. induction cs as [| c cs IH]; intros st Hst; simpl.
  - split; [done | split; [done | split; [lia |]]].
    intros c nc Hin. by apply elem_of_nil in Hin.
  - destruct (visit_leaf_walks t st c Hleaves Hst) as (Hst' & Hanc & Hcount & Hc).
    destruct (IH _ Hst') as (Hfin & Hanc' & Hcount' & Hcs).
    split; [done | split; [congruence | split; [lia |]]].
    intros c' nc' Hin Hnc' Hleaf. apply elem_of_cons in Hin as [-> | Hin].
    + specialize (Hc nc' Hnc' Hleaf). clear - Hc.
      revert Hc. generalize (tree.visit_leaf t st c) as s.
      induction cs as [| x cs IH]; intros s Hs; simpl; [done |].
      apply IH. by apply visit_leaf_visited.
    + by eapply Hcs.
Qed.

(** ** One iteration *)

Lemma insert_true_keeps (vis : list bool) (x y : nat) :
  vis !! x = Some true -> <[y := true]> vis !! x = Some true.
Proof.
  intros Hx. destruct (decide (x = y)) as [-> | Hne].
  - apply list_lookup_insert_eq. by eapply lookup_lt_Some.
  - by rewrite list_lookup_insert_ne.
Qed.

Lemma above_root (t : tree_t) r v :
  t !! 0%nat = Some r -> tree.parent r = 0%nat -> tree.above t 0 v -> v = 0%nat.
Proof.
  intros Hr Hp Ha.
  assert (forall a, tree.above t a v -> a = 0%nat -> v = 0%nat) as Hgen;
    [| by apply (Hgen 0%nat)].
  clear Ha. intros a Ha. induction Ha as [| a na v Hna _ IH]; [done |].
  intros ->. apply IH. congruence.
Qed.

Lemma order_step_walks (t : tree_t) st :
  tree.linked t -> tree.walk_inv t st ->
  exists st', tree.order_step t st = Some st' /\ tree.walk_inv t st' /\
    ((tree.walk_measure t st' < tree.walk_measure t st)%nat \/
     existsb negb (tree.visited st') = false).
Proof.
  intros (Horder & Hleaves & Hchildren) Hst.
  pose proof Hst as (Hlen & Hanc & _).
  destruct (lookup_lt_is_Some_2 t _ Hanc) as [na Hna].
  unfold tree.order_step. rewrite Hna. simpl.
  destruct (visit_leaves_walks t (tree.children na) st Hleaves Hst)
    as (Hst1 & Hanc1 & Hcount1 & Hvisited).
  set (st1 := fold_left (tree.visit_leaf t) (tree.children na) st) in *.
  destruct Hst1 as (Hlen1 & _ & Hinv1).
  destruct (existsb (tree.unvisited (tree.visited st1)) (tree.children na)) eqn:Hany.
  - (* a child is left: it is not a leaf, the loop goes down *)
    apply existsb_exists in Hany as (c & Hin & Hc).
    apply list_elem_of_In in Hin.
    destruct (proj1 (Hchildren _ na c Hna) Hin) as (Hpos & nc & Hnc & Hpar).
    unfold tree.unvisited in Hc.
    destruct (tree.visited st1 !! c) as [[|] |] eqn:Hb; try done.
    assert (tree.is_leaf nc = false) as Hinner.
    { destruct (tree.is_leaf nc) eqn:Hl; [| done].
      rewrite (Hvisited c nc Hin Hnc Hl) in Hb. done. }
    destruct (List.find _ (tree.children na)) as [c' |] eqn:Hfind.
    + apply List.find_some in Hfind as [Hin' Hc'].
      apply list_elem_of_In in Hin'.
      destruct (proj1 (Hchildren _ na c' Hna) Hin') as (Hpos' & nc' & Hnc' & Hpar').
      unfold tree.unvisited_inode in Hc'. rewrite Hnc' in Hc'.
      destruct (tree.visited st1 !! c') as [[|] |] eqn:Hb'; try done.
      rewrite Hnc'. simpl. eexists. split; [done |].
      apply lookup_lt_Some in Hnc' as Hlt'.
      split; [split; [| split] |]; simpl.
      * by rewrite length_insert.
      * done.
      * intros v x nx Hv Hx Hnx Hpx.
        destruct (decide (v = c')) as [-> | Hne]; [right; constructor |].
        rewrite list_lookup_insert_ne in Hv by done.
        destruct (Hinv1 v x nx Hv Hx Hnx Hpx) as [Hvis | Habove].
        -- left. by apply insert_true_keeps.
        -- right. apply (tree.above_up t c' nc' v Hnc').
           rewrite Hpar'. by rewrite <- Hanc1.
      * left. unfold tree.walk_measure. simpl.
        pose proof (unvisited_count_insert _ _ Hb') as Hdec.
        set (k' := tree.unvisited_count (<[c' := true]> (tree.visited st1))) in *.
        set (k1 := tree.unvisited_count (tree.visited st1)) in *.
        set (k := tree.unvisited_count (tree.visited st)) in *.
        set (n := Datatypes.length t) in *.
        assert (S n * S k' <= S n * k)%nat by (apply Nat.mul_le_mono_l; lia).
        lia.
    + exfalso. eapply List.find_none in Hfind; [| by apply list_elem_of_In].
      unfold tree.unvisited_inode in Hfind. by rewrite Hb, Hnc, Hinner in Hfind.
  - (* every child is visited: the loop goes up *)
    assert (forall c, c ∈ tree.children na -> tree.visited st1 !! c = Some true)
      as Hall.
    { intros c Hin.
      destruct (proj1 (Hchildren _ na c Hna) Hin) as (_ & nc & Hnc & _).
      apply lookup_lt_Some in Hnc. rewrite <- Hlen1 in Hnc.
      destruct (lookup_lt_is_Some_2 _ _ Hnc) as [[|] Hb]; [done |].
      assert (existsb (tree.unvisited (tree.visited st1)) (tree.children na) = true);
        [| congruence].
      apply existsb_exists. exists c. split; [by apply list_elem_of_In |].
      unfold tree.unvisited. by rewrite Hb. }
    destruct Horder as [(r & Hr & Hpr) Hup].
    assert (tree.parent na < Datatypes.length t)%nat as Hparent.
    { destruct (tree.ancestor st) as [| a] eqn:Ha.
      - rewrite Hr in Hna. injection Hna as <-. lia.
      - pose proof (Hup (S a) na ltac:(lia) Hna). lia. }
    eexists. split; [done |].
    assert (tree.walk_inv t
              (tree.mk_order (tree.order_list st1)
                 (<[tree.ancestor st1 := true]> (tree.visited st1))
                 (tree.parent na) (fadd (tree.branch st1) (tree.length na))))
      as Hnew.
    { split; [| split]; simpl.
      - by rewrite length_insert.
      - done.
      - intros v x nx Hv Hx Hnx Hpx. rewrite Hanc1 in *.
        destruct (decide (v = tree.ancestor st)) as [-> | Hne].
        + left. apply insert_true_keeps, Hall.
          apply (Hchildren _ na x Hna). eauto.
        + rewrite list_lookup_insert_ne in Hv by done.
          destruct (Hinv1 v x nx Hv Hx Hnx Hpx) as [Hvis | Habove].
          * left. by apply insert_true_keeps.
          * right.
            inversion Habove as [| a na' v' Hna' Hup']; subst; [done |].
            rewrite Hna in Hna'. by injection Hna' as <-. }
    split; [exact Hnew |].
    destruct (tree.ancestor st) as [| a] eqn:Ha.
    + (* at the root every node has been visited *)
      right. simpl. rewrite Hr in Hna. injection Hna as <-.
      destruct Hnew as (Hlen' & _ & Hinv'). simpl in *.
      apply all_visited. rewrite Hlen'. intros j.
      induction j as [j IH] using lt_wf_ind. intros Hj.
      destruct j as [| j].
      { rewrite Hanc1. apply list_lookup_insert_eq. lia. }
      destruct (lookup_lt_is_Some_2 t _ Hj) as [nj Hnj].
      pose proof (Hup (S j) nj ltac:(lia) Hnj) as Hpj.
      destruct (Hinv' (tree.parent nj) (S j) nj) as [Hvis | Habove];
        [apply IH; lia | lia | done | done | done |].
      rewrite Hpr in Habove. apply (above_root t r _ Hr Hpr) in Habove.
      apply insert_true_keeps, Hall.
      apply (Hchildren _ r (S j) Hr). split; [lia | eauto].
    + left. unfold tree.walk_measure. simpl.
      pose proof (Hup (S a) na ltac:(lia) Hna) as Hlt.
      pose proof (unvisited_count_insert_le (tree.visited st1) (tree.ancestor st1))
        as Hle.
      set (k' := tree.unvisited_count
                   (<[tree.ancestor st1 := true]> (tree.visited st1))) in *.
      set (k1 := tree.unvisited_count (tree.visited st1)) in *.
      set (k := tree.unvisited_count (tree.visited st)) in *.
      set (n := Datatypes.length t) in *.
      assert (S n * k' <= S n * k)%nat by (apply Nat.mul_le_mono_l; lia).
      lia.
Qed.

(** ** The loop *)

Lemma order_loop_more (t : tree_t) fuel fuel' st order :
  tree.order_loop fuel t st = Some order -> (fuel <= fuel')%nat ->
  tree.order_loop fuel' t st = Some order.
Proof.
  revert fuel' st. induction fuel as [| fuel IH]; intros fuel' st; simpl.
  - destruct (existsb negb (tree.visited st)) eqn:Hany; [done |].
    intros [= <-] _. destruct fuel'; simpl; by rewrite Hany.
  - destruct (existsb negb (tree.visited st)) eqn:Hany.
    + destruct (tree.order_step t st) as [st' |] eqn:Hstep; simpl; [| done].
      intros Hloop Hle. destruct fuel' as [| fuel']; [lia |].
      simpl. rewrite Hany, Hstep. simpl. apply IH; [done | lia].
    + intros [= <-] _. destruct fuel'; simpl; by rewrite Hany.
Qed.

Lemma order_loop_ends (t : tree_t) fuel st :
  tree.linked t -> tree.walk_inv t st ->
  (tree.walk_measure t st <= fuel)%nat ->
  is_Some (tree.order_loop fuel t st).
Proof.
  intros Ht. revert st. induction fuel as [| fuel IH]; intros st Hst Hm; simpl.
  - destruct (existsb negb (tree.visited st)) eqn:Hany; [| by eexists].
    apply unvisited_count_pos in Hany. unfold tree.walk_measure in Hm. lia.
  - destruct (existsb negb (tree.visited st)) eqn:Hany; [| by eexists].
    destruct (order_step_walks t st Ht Hst) as (st' & Hstep & Hst' & [Hlt | Hdone]);
      rewrite Hstep; simpl.
    + apply IH; [done | lia].
    + destruct fuel; simpl; rewrite Hdone; by eexists.
Qed.

(** ** The tree and the state the loop starts from *)

Lemma fill_children_length (tree : tree_t) :
  Datatypes.length (tree.fill_children tree) = Datatypes.length tree.
Proof.
  unfold tree.fill_children.
  apply (fold_left_keeps
           (fun t : tree_t => Datatypes.length t = Datatypes.length tree)); [| done].
  intros t i _ Hlen. destruct (t !! i); [| done]. by rewrite length_alter.
Qed.

Lemma fill_children_linked (tree : tree_t) :
  tree.newick_order tree -> tree.leaves_childless tree ->
  (forall nd, nd ∈ tree -> tree.children nd = []) ->
  tree.linked (tree.fill_children tree).
Proof.
  intros [(r & Hr & Hpr) Hup] Hleaves Hempty.
  set (t := tree.fill_children tree).
  assert (forall p, t !! p = tree.add_children (tree.children_of tree p) <$> tree !! p)
    as Ht by apply fill_children_lookup.
  split; [split | split].
  - exists (tree.add_children (tree.children_of tree 0) r).
    split; [by rewrite Ht, Hr | done].
  - intros i nd Hi. rewrite Ht.
    destruct (tree !! i) as [nd0 |] eqn:Hnd0; [| done].
    intros [= <-]. simpl. by eapply Hup.
  - intros i nd j nj. rewrite !Ht.
    destruct (tree !! i) as [nd0 |] eqn:Hnd0; [| done].
    destruct (tree !! j) as [nj0 |] eqn:Hnj0; [| done].
    intros [= <-] Hleaf [= <-] Hpar. simpl in *.
    by eapply (Hleaves i nd0 j nj0).
  - intros p np c. rewrite Ht.
    destruct (tree !! p) as [np0 |] eqn:Hnp0; [| done].
    intros [= <-]. simpl.
    rewrite (Hempty np0) by (by eapply list_elem_of_lookup_2). simpl.
    rewrite elem_of_children_of. split.
    + intros [Hc (nc & Hnc & Hpar)]. split; [done |].
      exists (tree.add_children (tree.children_of tree c) nc).
      split; [by rewrite Ht, Hnc | done].
    + intros [Hc (nc & Hnc & Hpar)]. split; [done |]. rewrite Ht in Hnc.
      destruct (tree !! c) as [nc0 |]; [| done].
      injection Hnc as <-. eauto.
Qed.

Lemma closest_leaf_pair (flt_max : F) (t : tree_t) :
  tree.leaf_pair t (fst (tree.closest flt_max t)).
Proof.
  unfold tree.closest.
  apply (fold_left_keeps (fun st : (nat * nat) * F => tree.leaf_pair t (fst st)));
    [| by left].
  intros st i _ Hst. unfold tree.closest_at.
  destruct (t !! i) as [ni |] eqn:Hni; [| done].
  destruct (Datatypes.length (tree.children ni) =? 0)%nat; [done |].
  revert st Hst.
  apply (fold_left_keeps (fun st : (nat * nat) * F => tree.leaf_pair t (fst st))).
  intros st j _ Hst. revert st Hst.
  apply (fold_left_keeps (fun st : (nat * nat) * F => tree.leaf_pair t (fst st))).
  intros st k _ Hst.
  destruct (tree.children ni !! j) as [cj |]; [| done].
  destruct (tree.children ni !! k) as [ck |]; [| done].
  unfold tree.closer.
  destruct (t !! cj) as [nj |] eqn:Hnj; [| done].
  destruct (t !! ck) as [nk |] eqn:Hnk; [| done].
  destruct (tree.is_leaf nj) eqn:Hlj; [| done].
  destruct (tree.is_leaf nk) eqn:Hlk; [| done]. simpl.
  destruct (fltb _ _); [| done].
  right. simpl. split; eexists; eauto.
Qed.

Lemma aln_order_ends (flt_max : F) (tree : tree_t) :
  tree.newick_order tree -> tree.leaves_childless tree ->
  (forall nd, nd ∈ tree -> tree.children nd = []) ->
  exists order, forall fuel,
    (S (Datatypes.length tree) * S (Datatypes.length tree) <= fuel)%nat ->
    tree.aln_order flt_max fuel tree = Some order.
Proof.
  intros Horder Hleaves Hempty.
  pose proof (fill_children_linked tree Horder Hleaves Hempty) as Hlinked.
  pose proof (fill_children_length tree) as Hlen.
  unfold tree.aln_order.
  set (t := tree.fill_children tree) in *.
  pose proof Hlinked as ([(r & Hr & Hpr) Hup] & Hleaves_t & Hchildren).
  pose proof (closest_leaf_pair flt_max t) as Hpair.
  destruct (tree.closest flt_max t) as [[f s] d]. simpl in *.
  assert (exists first second,
            t !! f = Some first /\ t !! s = Some second /\
            ((f = 0%nat /\ s = 0%nat) \/
             (tree.is_leaf first = true /\ tree.is_leaf second = true)))
    as (first & second & Hfirst & Hsecond & Hcases).
  { destruct Hpair as [[= -> ->] | [(nf & Hnf & Hlf) (ns & Hns & Hls)]].
    - exists r, r. eauto.
    - exists nf, ns. eauto. }
  rewrite Hfirst, Hsecond. simpl.
  apply lookup_lt_Some in Hfirst as Hf. apply lookup_lt_Some in Hsecond as Hs.
  set (st := tree.mk_order _ _ _ _).
  assert (tree.parent second < Datatypes.length t)%nat as Hanc.
  { destruct s as [| s].
    - rewrite Hr in Hsecond. injection Hsecond as <-. lia.
    - pose proof (Hup (S s) second ltac:(lia) Hsecond). lia. }
  assert (tree.walk_inv t st) as Hst.
  { split; [| split]; simpl.
    - by rewrite !length_insert, length_replicate.
    - done.
    - intros v x nx Hv Hx Hnx Hpx.
      assert (v = f \/ v = s) as Hfs.
      { destruct (decide (v = f)) as [| Hnf]; [by left |].
        destruct (decide (v = s)) as [| Hns]; [by right |].
        rewrite !list_lookup_insert_ne in Hv by done.
        apply lookup_replicate in Hv as [? _]. done. }
      destruct Hcases as [[-> ->] | [Hlf Hls]].
      + right. rewrite Hr in Hsecond. injection Hsecond as <-.
        rewrite Hpr. destruct Hfs as [-> | ->]; constructor.
      + left. assert (x = v) as ->.
        { destruct Hfs as [-> | ->].
          - by eapply (Hleaves_t f first x nx).
          - by eapply (Hleaves_t s second x nx). }
        done. }
  assert (tree.walk_measure t st
            <= S (Datatypes.length tree) * S (Datatypes.length tree))%nat as Hm.
  { unfold tree.walk_measure. rewrite Hlen in *. simpl tree.ancestor.
    pose proof (unvisited_count_le (tree.visited st)) as Hle.
    assert (Datatypes.length (tree.visited st) = Datatypes.length tree) as Hv.
    { simpl. by rewrite !length_insert, length_replicate. }
    rewrite Hv in Hle.
    set (k := tree.unvisited_count (tree.visited st)) in *.
    set (n := Datatypes.length tree) in *.
    assert (S n * k <= S n * n)%nat by (apply Nat.mul_le_mono_l; lia).
    lia. }
  destruct (order_loop_ends t _ st Hlinked Hst Hm) as [order Horder'].
  exists order. intros fuel Hfuel. by eapply order_loop_more.
Qed.

(** ** What the list starts with *)

Lemma visit_leaves_appends (t : tree_t) cs st :
  exists more,
    tree.order_list (fold_left (tree.visit_leaf t) cs st) = tree.order_list st ++ more.
Proof.
  revert st. induction cs as [| c cs IH]; intros st; simpl.
  - exists []. by rewrite app_nil_r.
  - destruct (IH (tree.visit_leaf t st c)) as [more ->].
    unfold tree.visit_leaf.
    destruct (tree.visited st !! c) as [[|] |]; try by eexists.
    destruct (t !! c) as [nc |]; try by eexists.
    destruct (tree.is_leaf nc); try by eexists.
    simpl. rewrite <- app_assoc. by eexists.
Qed.

Lemma order_step_appends (t : tree_t) st st' :
  tree.order_step t st = Some st' ->
  exists more, tree.order_list st' = tree.order_list st ++ more.
Proof.
  unfold tree.order_step.
  destruct (t !! tree.ancestor st) as [na |]; simpl; [| done].
  destruct (visit_leaves_appends t (tree.children na) st) as [more Hmore].
  destruct (existsb _ (tree.children na)).
  - destruct (List.find _ (tree.children na)) as [c |].
    + destruct (t !! c) as [nc |]; simpl; [| done]. intros [= <-]. by exists more.
    + intros [= <-]. by exists more.
  - intros [= <-]. by exists more.
Qed.

Lemma order_loop_appends (t : tree_t) fuel st order :
  tree.order_loop fuel t st = Some order ->
  exists more, order = tree.order_list st ++ more.
Proof.
  revert st. induction fuel as [| fuel IH]; intros st; simpl.
  - destruct (existsb negb (tree.visited st)); [done |].
    intros [= <-]. exists []. by rewrite app_nil_r.
  - destruct (existsb negb (tree.visited st)).
    + destruct (tree.order_step t st) as [st' |] eqn:Hstep; simpl; [| done].
      intros Hloop. destruct (IH _ Hloop) as [more ->].
      destruct (order_step_appends t st st' Hstep) as [more' ->].
      rewrite <- app_assoc. by eexists.
    + intros [= <-]. exists []. by rewrite app_nil_r.
Qed.

Lemma aln_order_starts (flt_max : F) (fuel : nat) (tree : tree_t)
    (order : list (nat * F)) :
  (forall nd, nd ∈ tree -> tree.children nd = []) ->
  tree.aln_order flt_max fuel tree = Some order ->
  exists f s nf ns rest,
    order = (f, f_of_Z 0) :: (s, fadd (tree.length nf) (tree.length ns)) :: rest /\
    tree !! f = Some nf /\ tree !! s = Some ns /\
    ((f = 0%nat /\ s = 0%nat) \/
     (f <> s /\ tree.is_leaf nf = true /\ tree.is_leaf ns = true /\
      tree.parent nf = tree.parent ns)).
Proof.
  intros Hempty. unfold tree.aln_order.
  set (t := tree.fill_children tree).
  assert (forall p, t !! p = tree.add_children (tree.children_of tree p) <$> tree !! p)
    as Ht by apply fill_children_lookup.
  pose proof (closest_leaf_pair flt_max t) as Hleaf.
  pose proof (closest_pair_cases flt_max t) as Hsib.
  destruct (tree.closest flt_max t) as [[f s] d]. simpl in *.
  destruct (t !! f) as [first |] eqn:Hfirst; simpl; [| done].
  destruct (t !! s) as [second |] eqn:Hsecond; simpl; [| done].
  intros Hloop. apply order_loop_appends in Hloop as [rest ->]. simpl.
  rewrite Ht in Hfirst, Hsecond.
  destruct (tree !! f) as [nf |] eqn:Hnf; [| done].
  destruct (tree !! s) as [ns |] eqn:Hns; [| done].
  injection Hfirst as <-. injection Hsecond as <-. simpl.
  exists f, s, nf, ns, rest. split; [done | split; [done | split; [done |]]].
  destruct Hsib as [[= -> ->] | (i & ni & j & k & Hi & Hjk & Hj & Hk)];
    [by left |].
  destruct Hleaf as [[= -> ->] | [(nf' & Hnf' & Hlf) (ns' & Hns' & Hls)]];
    [by left | right].
  simpl in *. rewrite Ht in Hi, Hnf', Hns'. rewrite Hnf in Hnf'. rewrite Hns in Hns'.
  destruct (tree !! i) as [ni0 |] eqn:Hi0; [| done].
  injection Hi as <-. injection Hnf' as <-. injection Hns' as <-. simpl in *.
  rewrite (Hempty ni0) in Hj, Hk by (by eapply list_elem_of_lookup_2).
  simpl in Hj, Hk.
  split; [| split; [done | split; [done |]]].
  - intros ->.
    pose proof (NoDup_lookup _ _ _ _ (children_of_NoDup tree i) Hj Hk). lia.
  - apply list_elem_of_lookup_2, elem_of_children_of in Hj as (_ & nf' & Hnf' & Hpf).
    apply list_elem_of_lookup_2, elem_of_children_of in Hk as (_ & ns' & Hns' & Hps).
    congruence.
Qed.

Variable float_ : list ascii -> option (F * list ascii).

(** X20.  For every tree of [parse_newick], the [while] loop of [aln_order]
    ends, after at most [(n + 1) * (n + 1)] iterations for [n] nodes, and
    [aln_order] returns; the list it fills is the same whatever the bound
    on the iterations. *)
Theorem aln_order_returns (content : string) (t : tree_t) (flt_max : F) :
  tree.parse_newick float_ content = Some t ->
  exists order, forall fuel,
    (S (Datatypes.length t) * S (Datatypes.length t) <= fuel)%nat ->
    tree.aln_order flt_max fuel t = Some order.
Proof.
  intros Hparse.
  destruct (parse_newick_flagged float_ _ _ Hparse) as (Horder & Hleaves & _).
  pose proof (parse_newick_children float_ _ _ Hparse) as Hch.
  rewrite Forall_forall in Hch.
  by apply aln_order_ends.
Qed.


End AlnOrderEnds.

(** [aln_order_returns] at the tree of the test cases. *)
Lemma aln_order_returns_witness :
  tree.parse_newick decimal_float newick_text = Some newick_example /\
  exists order, forall fuel,
    (64 <= fuel)%nat -> tree.aln_order b32_max fuel newick_example = Some order.
Proof.
  split; [exact newick_example_parsed |].
  exact (aln_order_returns decimal_float newick_text newick_example b32_max
           newick_example_parsed).
Defined.

(** * Sequences by name *)

Lemma str_at_lookup (v : list string) i s :
  v !! i = Some s -> align.str_at v i = s.
Proof. intros Hs. unfold align.str_at. by rewrite nth_lookup, Hs. Qed.

Lemma find_seq_fold (name : string) (names seqs : list string) (n : nat) :
  (n <= Datatypes.length names)%nat ->
  let r := fold_left (fun seq i =>
                        if String.eqb (align.str_at names i) name
                        then align.str_at seqs i else seq)
                     (seq 0 n) EmptyString in
  ((forall j, (j < n)%nat -> names !! j <> Some name) -> r = EmptyString) /\
  (forall i, (i < n)%nat -> names !! i = Some name ->
             (forall j, (i < j < n)%nat -> names !! j <> Some name) ->
             r = align.str_at seqs i).
Proof.
  induction n as [| n IH]; intros Hn; cbv zeta.
  - split; [done |]. intros; lia.
  - rewrite seq_S, fold_left_app. simpl.
    destruct IH as [IHnone IHlast]; [lia |].
    destruct (lookup_lt_is_Some_2 names n) as [x Hx]; [lia |].
    rewrite (str_at_lookup names n x Hx).
    destruct (String.eqb_spec x name) as [-> | Hne].
    + split.
      * intros Hnone. by destruct (Hnone n); [lia |].
      * intros i Hi Hname Hlast.
        destruct (decide (i = n)) as [-> | Hin]; [done |].
        by destruct (Hlast n); [lia |].
    + split.
      * intros Hnone. apply IHnone. intros j Hj. apply Hnone. lia.
      * intros i Hi Hname Hlast.
        assert (i <> n) by (intros ->; congruence).
        apply IHlast; [lia | done |]. intros j Hj. apply Hlast. lia.
Qed.

(** X12.  [find_seq] leaves in [seq] the sequence of the last name that
    matches, and returns whether that sequence is not empty; when no name
    matches it returns false, with [seq] empty. *)
Theorem find_seq_last (name : string) (f : align.data_t) :
  (forall i,
     align.names f !! i = Some name ->
     (forall j, (i < j)%nat -> align.names f !! j <> Some name) ->
     seqs.find_seq name f =
     (negb (String.eqb (align.str_at (align.seqs f) i) EmptyString),
      align.str_at (align.seqs f) i)) /\
  ((forall j, align.names f !! j <> Some name) ->
   seqs.find_seq name f = (false, EmptyString)).
Proof.
  unfold seqs.find_seq.
  destruct (find_seq_fold name (align.names f) (align.seqs f)
              (Datatypes.length (align.names f))) as [Hnone Hlast]; [done |].
  split.
  - intros i Hi Hafter. rewrite (Hlast i); [done | by eapply lookup_lt_Some | done |].
    intros j Hj. apply Hafter. lia.
  - intros Habsent. rewrite Hnone; [done |]. intros j _. apply Habsent.
Qed.

(** * The driver: more on the reference and on the scoring loop *)

Section AlignMore.

Context {F : Type} {FO : FloatOps F} {LM : Libm F}.

#[local] Abbreviation alignment_t := (align.alignment_t (F:=F)).

(** X13.  After [order_ref] has returned for a pair of sequences, the pair
    is the one it was given or that pair swapped, names and sequences
    together; if [refs] is one of the two names, it is then the first name,
    and a second call changes nothing. *)
Theorem order_ref_puts_reference_first (aln aln' : alignment_t)
    (n0 n1 s0 s1 : string) :
  align.names (align.data aln) = [n0; n1] ->
  align.seqs (align.data aln) = [s0; s1] ->
  align.order_ref aln = Ok aln' ->
  (aln' = aln \/ aln' = align.set_data aln (align.mk_data [n1; n0] [s1; s0])) /\
  (align.refs aln = n0 \/ align.refs aln = n1 ->
   align.str_at (align.names (align.data aln')) 0 = align.refs aln /\
   align.order_ref aln' = Ok aln').
Proof.
  intros Hn Hs Hret. unfold align.order_ref, align.str_at in Hret.
  rewrite Hn in Hret. simpl in Hret.
  assert (align.set_data aln (align.swap_data (align.data aln)) =
          align.set_data aln (align.mk_data [n1; n0] [s1; s0])) as Hsw.
  { unfold align.swap_data. by rewrite Hn, Hs. }
  rewrite Hsw in Hret. revert Hret.
  destruct (String.eqb_spec n0 (align.refs aln)) as [H0 | H0].
  - intros [= <-]. split; [by left |]. intros _. split.
    + unfold align.str_at. by rewrite Hn.
    + unfold align.order_ref, align.str_at. rewrite Hn. simpl.
      by rewrite H0, String.eqb_refl.
  - destruct (String.eqb_spec n1 (align.refs aln)) as [H1 | H1].
    + intros [= <-]. split; [by right |]. intros _. split; [done |].
      unfold align.order_ref, align.str_at. simpl. by rewrite H1, String.eqb_refl.
    + destruct (align.rev aln); [| done].
      intros [= <-]. split; [by right |]. intros [? | ?]; congruence.
Qed.

(** ** The scoring loop counts the gaps of the ancestor *)

Lemma get_lookup (s : string) (i : nat) :
  String.get i s = list_ascii_of_string s !! i.
Proof.
  revert i. induction s as [| c s IH]; intros [| i]; simpl; first [done | apply IH].
Qed.

Lemma length_string_of_list (l : list ascii) :
  String.length (string_of_list_ascii l) = Datatypes.length l.
Proof. induction l as [| c l IH]; simpl; [done | by rewrite IH]. Qed.

Lemma length_list_of_string (s : string) :
  Datatypes.length (list_ascii_of_string s) = String.length s.
Proof. induction s as [| c s IH]; simpl; [done | by rewrite IH]. Qed.

Lemma list_of_prefix (s : string) (n : nat) :
  list_ascii_of_string (substring 0 n s) = firstn n (list_ascii_of_string s).
Proof.
  revert n. induction s as [| c s IH]; intros [| n]; simpl; try done.
  by rewrite IH.
Qed.

Lemma erase_gaps_length (s : string) :
  String.length (align.erase_gaps s) =
  Datatypes.length (List.filter (fun c => negb (align.is_gap c))
                                (list_ascii_of_string s)).
Proof.
  unfold align.erase_gaps. rewrite length_string_of_list. f_equal.
  induction (list_ascii_of_string s) as [| c l IH]; [done |].
  rewrite filter_cons. simpl. fold (align.is_gap c).
  destruct (align.is_gap c); simpl; by rewrite IH.
Qed.

Lemma filter_split {A : Type} (g : A -> bool) (l : list A) :
  (Datatypes.length (List.filter g l) +
   Datatypes.length (List.filter (fun x => negb (g x)) l) =
   Datatypes.length l)%nat.
Proof.
  induction l as [| x l IH]; simpl; [done |]. destruct (g x); simpl; lia.
Qed.

Lemma filter_firstn_le {A : Type} (g : A -> bool) (l : list A) (n : nat) :
  (Datatypes.length (List.filter g (firstn n l)) <=
   Datatypes.length (List.filter g l))%nat.
Proof.
  rewrite <- (firstn_skipn n l) at 2. rewrite List.filter_app, length_app. lia.
Qed.

Lemma firstn_S_char (s : string) (n : nat) :
  firstn (S n) (list_ascii_of_string s) =
  firstn n (list_ascii_of_string s) ++
  match String.get n s with
  | Some c => [c]
  | None => []
  end.
Proof.
  rewrite get_lookup.
  destruct (list_ascii_of_string s !! n) as [c |] eqn:Hc.
  - by apply take_S_r.
  - apply lookup_ge_None in Hc. rewrite !firstn_all2 by lia. by rewrite app_nil_r.
Qed.

Lemma gaps_before_S (s : string) (n : nat) :
  align.gaps_before s (S n) =
  (align.gaps_before s n + if align.is_gap (align.char_at s n) then 1 else 0)%nat.
Proof.
  unfold align.gaps_before, align.char_at.
  rewrite firstn_S_char, List.filter_app, length_app.
  destruct (String.get n s) as [c |]; simpl; [| done].
  by destruct (align.is_gap c).
Qed.

Lemma score_column_ngap (aln : alignment_t) p_marg sp st st' i :
  align.state st = 0 \/ align.state st = 1 \/ align.state st = 2 ->
  align.score_column aln p_marg sp st i = Ok st' ->
  (align.state st' = 0 \/ align.state st' = 1 \/ align.state st' = 2) /\
  align.ngap st' =
  align.ngap st +
  (if align.is_gap (align.char_at (align.str_at (align.seqs (align.data aln)) 0) i)
   then 1 else 0).
Proof.
  intros Hst. unfold align.score_column.
  destruct (align.is_gap (align.char_at (align.str_at (align.seqs (align.data aln)) 0) i));
    destruct (align.is_gap (align.char_at (align.str_at (align.seqs (align.data aln)) 1) i));
    destruct Hst as [Hst | [Hst | Hst]]; rewrite Hst; simpl;
    intros [= <-]; simpl; rewrite ?Hst; split; (lia || tauto).
Qed.

Lemma score_columns_ngap_aux (aln : alignment_t) p_marg sp n w0 st :
  align.score_columns aln p_marg sp (seq 0 n) (align.mk_score w0 0 0) = Ok st ->
  (align.state st = 0 \/ align.state st = 1 \/ align.state st = 2) /\
  align.ngap st =
  Z.of_nat (align.gaps_before (align.str_at (align.seqs (align.data aln)) 0) n).
Proof.
  revert st. induction n as [| n IH]; intros st.
  - unfold align.score_columns. simpl. intros [= <-]. simpl. split; [tauto | done].
  - rewrite seq_S, score_columns_snoc. simpl.
    destruct (align.score_columns aln p_marg sp (seq 0 n) _) as [st0 |] eqn:Hst0;
      simpl; [| done].
    destruct (IH st0 eq_refl) as [Hstate Hngap].
    intros Hcol. destruct (score_column_ngap aln p_marg sp st0 st n Hstate Hcol)
      as [Hstate' Hngap'].
    split; [done |]. rewrite Hngap', Hngap, gaps_before_S.
    destruct (align.is_gap _); lia.
Qed.

(** X14.  When the scoring loop has run over the first [n] columns without
    throwing, [ngap] is the number of gaps among the first [n] characters of
    the ancestor.  So at column [n] the substitution matrix is addressed
    through [seq_pair[0]] at [n - ngap], which is the number of nucleotides
    of the ancestor before that column; and where the column holds a
    nucleotide of the ancestor, that index is below the length of the
    gap-free ancestor. *)
Theorem score_columns_ngap (aln : alignment_t) (p_marg : Matrix F)
    (seq_pair : list Z * list Z) (n : nat) (w0 : F) (st : align.score_state) :
  let s0 := align.str_at (align.seqs (align.data aln)) 0 in
  (n <= String.length s0)%nat ->
  align.score_columns aln p_marg seq_pair (seq 0 n) (align.mk_score w0 0 0) = Ok st ->
  align.ngap st = Z.of_nat (align.gaps_before s0 n) /\
  Z.of_nat n - align.ngap st =
    Z.of_nat (String.length (align.erase_gaps (substring 0 n s0))) /\
  ((n < String.length s0)%nat -> align.is_gap (align.char_at s0 n) = false ->
   Z.of_nat n - align.ngap st < Z.of_nat (String.length (align.erase_gaps s0))).
Proof.
  intros s0 Hn Hrun.
  destruct (score_columns_ngap_aux aln p_marg seq_pair n w0 st Hrun) as [_ Hngap].
  fold s0 in Hngap.
  assert (Z.of_nat n - align.ngap st =
          Z.of_nat (Datatypes.length
                      (List.filter (fun c => negb (align.is_gap c))
                                   (firstn n (list_ascii_of_string s0))))) as Hnucs.
  { rewrite Hngap. unfold align.gaps_before.
    pose proof (filter_split align.is_gap (firstn n (list_ascii_of_string s0))) as Hsplit.
    rewrite length_take, length_list_of_string in Hsplit. lia. }
  split; [done | split].
  - by rewrite Hnucs, erase_gaps_length, list_of_prefix.
  - intros Hlt Hnuc. rewrite Hnucs, erase_gaps_length.
    pose proof (filter_firstn_le (fun c => negb (align.is_gap c))
                  (list_ascii_of_string s0) (S n)) as Hle.
    rewrite firstn_S_char, List.filter_app, length_app in Hle.
    unfold align.char_at in Hnuc.
    destruct (String.get n s0) as [c |] eqn:Hc.
    + simpl in Hle. rewrite Hnuc in Hle. simpl in Hle. lia.
    + rewrite get_lookup in Hc. apply lookup_ge_None in Hc.
      rewrite length_list_of_string in Hc. lia.
Qed.

End AlignMore.

(** [order_ref_puts_reference_first] where the reference is the second of
    two named sequences. *)
Lemma order_ref_puts_reference_first_witness :
  align.names (align.data pair_named) = ["1"; "2"] /\
  align.seqs (align.data pair_named) = ["CTATAGTG"; "CTCTGGATAGTG"] /\
  align.order_ref pair_named = Ok pair_named_swapped /\
  (pair_named_swapped = pair_named \/
   pair_named_swapped =
   align.set_data pair_named (align.mk_data ["2"; "1"] ["CTCTGGATAGTG"; "CTATAGTG"])) /\
  (align.refs pair_named = "1" \/ align.refs pair_named = "2" ->
   align.str_at (align.names (align.data pair_named_swapped)) 0 =
     align.refs pair_named /\
   align.order_ref pair_named_swapped = Ok pair_named_swapped).
Proof.
  split; [reflexivity | split; [reflexivity | split; [reflexivity |]]].
  apply (order_ref_puts_reference_first pair_named pair_named_swapped
           "1" "2" "CTATAGTG" "CTCTGGATAGTG"); reflexivity.
Defined.

(** [score_columns_ngap] at the ancestor CTC-T, after its first four
    columns: one gap, and the nucleotide of the fifth column is the fourth
    of CTCT. *)
Lemma score_columns_ngap_witness :
  (4 <= String.length "CTC-T")%nat /\
  align.score_columns pair_gapped (Matrixf 192 5)
    ([87; 88; 89], [1; 3; 1; 2; 3]) (seq 0 4) score_start =
    Ok (align.mk_score gapped_weight 2 1) /\
  1 = Z.of_nat (align.gaps_before "CTC-T" 4) /\
  4 - 1 = Z.of_nat (String.length (align.erase_gaps (substring 0 4 "CTC-T"))) /\
  ((4 < String.length "CTC-T")%nat ->
   align.is_gap (align.char_at "CTC-T" 4) = false ->
   4 - 1 < Z.of_nat (String.length (align.erase_gaps "CTC-T"))).
Proof.
  split; [simpl; lia | split; [reflexivity |]].
  apply (score_columns_ngap pair_gapped (Matrixf 192 5)
           ([87; 88; 89], [1; 3; 1; 2; 3]) 4 (Fin 0)
           (align.mk_score gapped_weight 2 1));
    [simpl; lia | reflexivity].
Defined.

(** * Substitution models: the rates *)

Section GtrFacts.

Context {F : Type} {FO : FloatOps F}.

(** The matrix of [gtr_q], entry by entry. *)
Lemma gtr_q_returns (pi sigma : list F) :
  mutation.sigma_rejected sigma = false ->
  exists m, mutation.gtr_q pi sigma = Ok m /\
    (forall i j, 0 <= i < 4 -> 0 <= j < 4 -> i <> j ->
       m i j = fmul (vec_at sigma (mutation.sigma_index i j)) (vec_at pi j)) /\
    (forall i, 0 <= i < 4 -> m i i = fneg (mutation.off_diagonal4 m i)).
Proof.
  intros Hsigma. unfold mutation.gtr_q.
  unfold mutation.sigma_rejected in Hsigma. rewrite Hsigma.
  eexists. split; [reflexivity |]. split.
  - intros i j Hi Hj Hne.
    assert (i = 0 \/ i = 1 \/ i = 2 \/ i = 3) as [-> | [-> | [-> | ->]]] by lia;
      assert (j = 0 \/ j = 1 \/ j = 2 \/ j = 3) as [-> | [-> | [-> | ->]]] by lia;
      try done; vm_compute; reflexivity.
  - intros i Hi.
    assert (i = 0 \/ i = 1 \/ i = 2 \/ i = 3) as [-> | [-> | [-> | ->]]] by lia;
      vm_compute; reflexivity.
Qed.

(** X15.  When no [sigma] is below 0 or above 1, [gtr_q] returns the matrix
    whose entry off the diagonal, in row [i] and column [j], is the
    exchangeability of the two nucleotides times the frequency of [j], the
    exchangeability being the same for [(i, j)] and [(j, i)]; each diagonal
    entry is minus the sum of the other entries of its row. *)
Theorem gtr_q_entries (pi sigma : list F) :
  mutation.sigma_rejected sigma = false ->
  exists m, mutation.gtr_q pi sigma = Ok m /\
    (forall i j, 0 <= i < 4 -> 0 <= j < 4 -> i <> j ->
       m i j = fmul (vec_at sigma (mutation.sigma_index i j)) (vec_at pi j) /\
       mutation.sigma_index i j = mutation.sigma_index j i) /\
    (forall i, 0 <= i < 4 -> m i i = fneg (mutation.off_diagonal4 m i)).
Proof.
  intros Hsigma. destruct (gtr_q_returns pi sigma Hsigma) as (m & Hm & Hoff & Hdiag).
  exists m. split; [done |]. split; [| done].
  intros i j Hi Hj Hne. split; [by apply Hoff |].
  unfold mutation.sigma_index. by rewrite Z.min_comm, Z.max_comm.
Qed.

End GtrFacts.

(** ** [gtr_q] in exact arithmetic *)

Lemma sigma_accepted_exact (ss : list R) :
  Forall (fun s => 0 <= s <= 1)%R ss ->
  mutation.sigma_rejected (Fin <$> ss) = false.
Proof.
  unfold mutation.sigma_rejected. induction 1 as [| s ss Hs _ IH]; [done |].
  rewrite fmap_cons. cbn [existsb]. rewrite IH.
  change (fltb (Fin s) (f_lit 0 1)) with (xltb (Fin s) (Fin (0 / 1))).
  change (fltb (f_lit 1 1) (Fin s)) with (xltb (Fin (1 / 1)) (Fin s)).
  unfold xltb.
  destruct (Rlt_dec s (0 / 1)); [lra |]. destruct (Rlt_dec (1 / 1) s); [lra | done].
Qed.



(** * The rate matrix of [mg94_p]: diagonal, frequencies and normalisation *)

Lemma fold_left_field {S A B : Type} (proj : S -> B) (body : S -> A -> S)
    (g : B -> A -> B) (l : list A) :
  (forall s a, a ∈ l -> proj (body s a) = g (proj s) a) ->
  forall s, proj (fold_left body l s) = fold_left g l (proj s).
Proof.
  induction l as [| a l IH]; intros Hstep s; simpl; [done |].
  rewrite IH by (intros s' a' Ha'; apply Hstep; by right).
  f_equal. apply Hstep. by left.
Qed.

Section Mg94State.

Context {F : Type} {FO : FloatOps F}.

Variable amino_group_table : Z -> Z.

#[local] Abbreviation mg94_cell := (mutation.mg94_cell amino_group_table).
#[local] Abbreviation mg94_row := (mutation.mg94_row amino_group_table).
#[local] Abbreviation mg94_q := (mutation.mg94_q amino_group_table).
#[local] Abbreviation rate_entry := (mutation.rate_entry amino_group_table).
#[local] Abbreviation rate_cell := (mutation.rate_cell amino_group_table).
#[local] Abbreviation off_diagonal := (mutation.off_diagonal amino_group_table).
#[local] Abbreviation expected_rate := (mutation.expected_rate amino_group_table).

Lemma mg94_cell_fields omega nuc_q i st j :
  mutation.Pi (mg94_cell omega nuc_q i st j) = mutation.Pi st /\
  mutation.d (mg94_cell omega nuc_q i st j) = mutation.d st /\
  mutation.rowSum (mg94_cell omega nuc_q i st j) =
  fadd (mutation.rowSum st) (mutation.Q (mg94_cell omega nuc_q i st j) i j).
Proof using Type.
  unfold mutation.mg94_cell.
  destruct (i =? j); [done |].
  destruct (1 <? mutation.cod_distance i j); [done |].
  destruct (negb (Z.land i 48 =? Z.land j 48)); [done |].
  destruct (negb (Z.land i 12 =? Z.land j 12)); [done |].
  destruct (negb (Z.land i 3 =? Z.land j 3)); done.
Qed.

Lemma mg94_cell_rowSum omega nuc_q i st j :
  0 <= i < 64 -> 0 <= j < 64 ->
  mutation.rowSum (mg94_cell omega nuc_q i st j) =
  fadd (mutation.rowSum st) (rate_cell omega nuc_q i j).
Proof using Type.
  intros Hi Hj. destruct (mg94_cell_fields omega nuc_q i st j) as (_ & _ & ->).
  f_equal. unfold mutation.rate_cell.
  destruct (Z.eqb_spec i j) as [<- | Hne].
  - unfold mutation.mg94_cell. rewrite Z.eqb_refl. simpl. by rewrite mset_eq.
  - by apply mg94_cell_entry.
Qed.

(** One row of the outer loop. *)
Lemma mg94_row_fields omega nuc_freqs nuc_q st i :
  0 <= i < 64 ->
  let st' := mg94_row omega nuc_freqs nuc_q st i in
  mutation.Q st' i i = fneg (off_diagonal omega nuc_q i) /\
  mutation.Pi st' i = mutation.codon_freq nuc_freqs i /\
  (forall k, k <> i -> mutation.Pi st' k = mutation.Pi st k) /\
  (forall r c, r <> i -> mutation.Q st' r c = mutation.Q st r c) /\
  mutation.d st' =
  fadd (mutation.d st) (fmul (mutation.codon_freq nuc_freqs i) (off_diagonal omega nuc_q i)).
Proof using Type.
  intros Hi st'. unfold st', mutation.mg94_row.
  set (st0 := mutation.mk_mg94 (mutation.Q st) _ _ _ _ _).
  set (st1 := fold_left (mg94_cell omega nuc_q i) (range 0 64) st0).
  assert (mutation.rowSum st1 = off_diagonal omega nuc_q i) as Hsum.
  { unfold st1, mutation.off_diagonal.
    apply (fold_left_field mutation.rowSum (mg94_cell omega nuc_q i)
             (fun a j => fadd a (rate_cell omega nuc_q i j)) (range 0 64)).
    intros s j Hj. apply mg94_cell_rowSum; [done | by apply (elem_of_range 0 64)]. }
  assert (mutation.Pi st1 = mutation.Pi st0) as HPi.
  { unfold st1. apply (fold_left_keeps (fun s => mutation.Pi s = mutation.Pi st0));
      [| done].
    intros s j _ Hs. by destruct (mg94_cell_fields omega nuc_q i s j) as (-> & _). }
  assert (mutation.d st1 = mutation.d st) as Hd.
  { unfold st1. apply (fold_left_keeps (fun s => mutation.d s = mutation.d st));
      [| done].
    intros s j _ Hs. by destruct (mg94_cell_fields omega nuc_q i s j) as (_ & -> & _). }
  assert (forall r c, r <> i -> mutation.Q st1 r c = mutation.Q st r c) as HQ.
  { intros r c Hr. unfold st1.
    apply (fold_left_keeps (fun s => mutation.Q s r c = mutation.Q st r c)); [| done].
    intros s j _ Hs. rewrite mg94_cell_frame; [done | congruence]. }
  cbn [mutation.Q mutation.Pi mutation.d]. rewrite Hsum, HPi, Hd.
  unfold st0. cbn [mutation.Pi].
  split; [by rewrite mset_eq | split; [by rewrite Z.eqb_refl | split; [| split]]].
  - intros k Hk. apply Z.eqb_neq in Hk. by rewrite Hk.
  - intros r c Hr. rewrite mset_ne by congruence. by apply HQ.
  - by rewrite Z.eqb_refl.
Qed.

(** The loops of [mg94_p], when they end. *)
Lemma mg94_q_fields omega nuc_freqs nuc_q :
  (forall i, 0 <= i < 64 ->
     mutation.Q (mg94_q omega nuc_freqs nuc_q) i i = fneg (off_diagonal omega nuc_q i) /\
     mutation.Pi (mg94_q omega nuc_freqs nuc_q) i = mutation.codon_freq nuc_freqs i) /\
  mutation.d (mg94_q omega nuc_freqs nuc_q) = expected_rate omega nuc_freqs nuc_q.
Proof using Type.
  split.
  - intros i Hi. unfold mutation.mg94_q.
    apply (fold_left_reaches
             (fun s => mutation.Q s i i = fneg (off_diagonal omega nuc_q i) /\
                       mutation.Pi s i = mutation.codon_freq nuc_freqs i) _ _ i).
    + intros s i' Hi' [HQ HPi].
      apply (elem_of_range 0 64) in Hi'.
      destruct (decide (i' = i)) as [-> | Hne].
      * by destruct (mg94_row_fields omega nuc_freqs nuc_q s i Hi) as (? & ? & _).
      * destruct (mg94_row_fields omega nuc_freqs nuc_q s i' Hi')
          as (_ & _ & HPi' & HQ' & _).
        rewrite HPi', HQ' by done. done.
    + apply (elem_of_range 0 64). lia.
    + intros s. by destruct (mg94_row_fields omega nuc_freqs nuc_q s i Hi) as (? & ? & _).
  - unfold mutation.mg94_q, mutation.expected_rate.
    apply (fold_left_field mutation.d (mg94_row omega nuc_freqs nuc_q)
             (fun a i => fadd a (fmul (mutation.codon_freq nuc_freqs i)
                                      (off_diagonal omega nuc_q i))) (range 0 64)).
    intros s i Hi. apply (elem_of_range 0 64) in Hi.
    by destruct (mg94_row_fields omega nuc_freqs nuc_q s i Hi) as (_ & _ & _ & _ & ?).
Qed.

End Mg94State.

(** ** The rate matrix in exact arithmetic *)

Lemma rsum_ext (g h : Z -> R) l a0 :
  (forall i, i ∈ l -> g i = h i) -> rsum g l a0 = rsum h l a0.
Proof.
  unfold rsum. revert a0. induction l as [| i l IH]; intros a0 Hgh; simpl; [done |].
  rewrite (Hgh i) by (by left). apply IH. intros k Hk. apply Hgh. by right.
Qed.

Lemma rsum_single (g : Z -> R) (a : R) (i : Z) l :
  NoDup l -> i ∈ l ->
  rsum (fun j => if j =? i then a else g j) l 0 =
  (a + rsum (fun j => if j =? i then 0 else g j) l 0)%R.
Proof.
  induction l as [| k l IH]; intros Hnd Hi; [by apply elem_of_nil in Hi |].
  apply NoDup_cons in Hnd as [Hk Hnd]. rewrite !rsum_cons.
  destruct (Z.eqb_spec k i) as [-> | Hne].
  - rewrite (rsum_ext (fun j => if j =? i then a else g j)
               (fun j => if j =? i then 0%R else g j)); [lra |].
    intros j Hj. destruct (Z.eqb_spec j i) as [-> | _]; done.
  - apply elem_of_cons in Hi as [-> | Hi]; [done |]. rewrite IH by done. lra.
Qed.

Lemma rsum_scale (g : Z -> R) (k : R) l :
  rsum (fun i => g i * k)%R l 0 = (rsum g l 0 * k)%R.
Proof.
  induction l as [| i l IH]; [unfold rsum; simpl; lra |].
  rewrite !rsum_cons, IH. lra.
Qed.

Lemma range_NoDup lo n : NoDup (range lo n).
Proof.
  unfold range. apply (NoDup_fmap_2 Z.of_nat), NoDup_seq.
Qed.

Section Mg94Exact.

Variable amino_group_table : Z -> Z.
Variable w : R.
Variable nuc_q : Matrix xreal.

Hypothesis nuc_q_finite :
  forall x y, 0 <= x < 4 -> 0 <= y < 4 -> exists r, nuc_q x y = Fin r.

#[local] Abbreviation mg94_q := (mutation.mg94_q amino_group_table).
#[local] Abbreviation rate_entry := (mutation.rate_entry amino_group_table (Fin w) nuc_q).
#[local] Abbreviation rate_cell := (mutation.rate_cell amino_group_table (Fin w) nuc_q).
#[local] Abbreviation off_diagonal :=
  (mutation.off_diagonal amino_group_table (Fin w) nuc_q).

Lemma diff_pos_bounds (i j : Z) : 0 <= mutation.diff_pos i j < 3.
Proof.
  unfold mutation.diff_pos.
  destruct (negb _); [lia |]. destruct (negb _); lia.
Qed.

Lemma rate_entry_finite (i j : Z) :
  0 <= i < 64 -> 0 <= j < 64 -> exists r, rate_entry i j = Fin r.
Proof using nuc_q_finite.
  intros Hi Hj. unfold mutation.rate_entry.
  destruct (1 <? mutation.cod_distance i j); [by eexists |].
  destruct (nuc_q_finite (mutation.nuc_at (mutation.diff_pos i j) i)
              (mutation.nuc_at (mutation.diff_pos i j) j)) as [r ->];
    try (apply nuc_at_bounds; [apply diff_pos_bounds | done]).
  destruct (amino_group_table i =? amino_group_table j); by eexists.
Qed.

#[local] Abbreviation cell_r := (cell_real amino_group_table w nuc_q).

Lemma rate_cell_real (i j : Z) :
  0 <= i < 64 -> 0 <= j < 64 -> rate_cell i j = Fin (cell_r i j).
Proof using nuc_q_finite.
  intros Hi Hj. unfold cell_real.
  unfold mutation.rate_cell.
  destruct (i =? j); [done |].
  by destruct (rate_entry_finite i j Hi Hj) as [r ->].
Qed.

Lemma off_diagonal_real (i : Z) :
  0 <= i < 64 ->
  off_diagonal i = Fin (rsum (cell_r i) (range 0 64) (0 / 1)).
Proof using nuc_q_finite.
  intros Hi. unfold mutation.off_diagonal.
  apply (xsum_fin (rate_cell i) (cell_r i)).
  intros j Hj. apply rate_cell_real; [done | by apply (elem_of_range 0 64)].
Qed.

Lemma cell_real_diagonal (i : Z) : cell_r i i = 0%R.
Proof using Type.
  unfold cell_real, mutation.rate_cell. rewrite Z.eqb_refl. done.
Qed.

(** The entries of row [i] of the rate matrix, as reals. *)
Lemma mg94_q_row_real (nuc_freqs : list xreal) (i j : Z) :
  0 <= i < 64 -> 0 <= j < 64 ->
  mutation.Q (mg94_q (Fin w) nuc_freqs nuc_q) i j =
  Fin (if j =? i then (- rsum (cell_r i) (range 0 64) (0 / 1))%R else cell_r i j).
Proof using nuc_q_finite.
  intros Hi Hj. destruct (Z.eqb_spec j i) as [-> | Hne].
  - destruct (mg94_q_fields amino_group_table (Fin w) nuc_freqs nuc_q) as [Hdiag _].
    destruct (Hdiag i Hi) as [-> _]. by rewrite off_diagonal_real.
  - rewrite mg94_q_rate_entry by (done || congruence).
    rewrite <- rate_cell_real by done. unfold mutation.rate_cell.
    apply Z.eqb_neq in Hne. by rewrite Z.eqb_sym, Hne.
Qed.


(** *** The normalising constant *)

Variables p0 p1 p2 p3 : R.

#[local] Abbreviation freqs := [Fin p0; Fin p1; Fin p2; Fin p3].
#[local] Abbreviation freq_r := (freq_real p0 p1 p2 p3).

Lemma vec_at_real (k : Z) : 0 <= k < 4 -> vec_at freqs k = Fin (freq_r k).
Proof using Type.
  intros Hk.
  assert (k = 0 \/ k = 1 \/ k = 2 \/ k = 3) as [-> | [-> | [-> | ->]]] by lia; done.
Qed.

Lemma codon_freq_real (i : Z) :
  0 <= i < 64 ->
  mutation.codon_freq freqs i =
  Fin (freq_r (mutation.nuc_at 0 i) * freq_r (mutation.nuc_at 1 i) *
       freq_r (mutation.nuc_at 2 i)).
Proof using Type.
  intros Hi. unfold mutation.codon_freq.
  rewrite !vec_at_real by (apply nuc_at_bounds; (done || lia)). done.
Qed.


End Mg94Exact.

(** ** Reversibility of the codon model over [gtr_q] *)

Lemma cod_distance_sym (i j : Z) : mutation.cod_distance i j = mutation.cod_distance j i.
Proof.
  unfold mutation.cod_distance.
  by rewrite (Z.eqb_sym (mutation.nuc_at 0 i)), (Z.eqb_sym (mutation.nuc_at 1 i)),
    (Z.eqb_sym (mutation.nuc_at 2 i)).
Qed.

Lemma diff_pos_sym (i j : Z) : mutation.diff_pos i j = mutation.diff_pos j i.
Proof.
  unfold mutation.diff_pos.
  by rewrite (Z.eqb_sym (mutation.nuc_at 0 i)), (Z.eqb_sym (mutation.nuc_at 1 i)).
Qed.

Lemma cod_distance_positive (i j : Z) :
  0 <= i < 64 -> 0 <= j < 64 -> i <> j -> 1 <= mutation.cod_distance i j.
Proof.
  intros Hi Hj Hne. pose proof (masks_agree_codons i j Hi Hj) as Hm.
  unfold mutation.masks_agree in Hm.
  unfold mutation.cod_distance.
  apply Z.eqb_neq in Hne. rewrite Hne in Hm.
  set (a0 := mutation.nuc_at 0 i =? mutation.nuc_at 0 j) in *.
  set (a1 := mutation.nuc_at 1 i =? mutation.nuc_at 1 j) in *.
  set (a2 := mutation.nuc_at 2 i =? mutation.nuc_at 2 j) in *.
  destruct a0, a1, a2; first [lia | by simpl in Hm; rewrite ?andb_false_r in Hm].
Qed.

Lemma vec_at_reals (ss : list R) (k : Z) :
  vec_at (Fin <$> ss) k = Fin (nth (Z.to_nat k) ss 0%R).
Proof.
  unfold vec_at. change (f_of_Z 0) with (Fin 0).
  generalize (Z.to_nat k) as n. induction ss as [| s ss IH]; intros [| n]; simpl;
    first [done | apply IH].
Qed.


(** ** The rates at the values of the test cases *)

Lemma sigma_reals_range : Forall (fun s => 0 <= s <= 1)%R sigma_reals.
Proof. unfold sigma_reals. repeat (constructor; [lra |]). constructor. Qed.

Lemma gtr_exact_returned :
  mutation.gtr_q pi_exact (Fin <$> sigma_reals) = Ok gtr_exact.
Proof.
  destruct (gtr_q_returns pi_exact (Fin <$> sigma_reals)
              (sigma_accepted_exact _ sigma_reals_range)) as (m & Hm & _).
  unfold gtr_exact. by rewrite Hm.
Qed.

Lemma yang_q_finite (x y : Z) :
  0 <= x < 4 -> 0 <= y < 4 -> exists r, mutation.yang_q (F:=xreal) x y = Fin r.
Proof.
  intros Hx Hy.
  assert (x = 0 \/ x = 1 \/ x = 2 \/ x = 3) as [-> | [-> | [-> | ->]]] by lia;
    assert (y = 0 \/ y = 1 \/ y = 2 \/ y = 3) as [-> | [-> | [-> | ->]]] by lia;
    eexists; reflexivity.
Qed.

(** [gtr_q_entries] at the frequencies and exchangeabilities of the test
    case, in binary32. *)
Lemma gtr_q_entries_witness :
  mutation.sigma_rejected sigma_test = false /\
  exists m, mutation.gtr_q pi_default sigma_test = Ok m /\
    (forall i j, 0 <= i < 4 -> 0 <= j < 4 -> i <> j ->
       m i j = fmul (vec_at sigma_test (mutation.sigma_index i j)) (vec_at pi_default j) /\
       mutation.sigma_index i j = mutation.sigma_index j i) /\
    (forall i, 0 <= i < 4 -> m i i = fneg (mutation.off_diagonal4 m i)).
Proof.
  split; [vm_compute; reflexivity |].
  apply (gtr_q_entries pi_default sigma_test). vm_compute. reflexivity.
Defined.




